(** * AllPlot: the ride plot of GoldenCheetah (src/AllPlot.cpp)

    A shallow embedding of the plot widget's logic: loading a ride into
    the per-channel arrays ([setData]), the moving-average smoother that
    re-bins the samples onto whole seconds ([recalc]), the derivation of
    the axis ranges and titles ([setYMax], [setXTitle]), the interval
    markers and the power-zone background ([AllPlotBackground.draw]).

    Conventions of the embedding.
    - A C++ [double] is an exact rational ([Q]); rounding, NaN and
      infinities are outside the model.  Statements about computed
      values use [==] ([Qeq]).
    - A C++ [int] that can be negative ([smooth], [secs], [rideTimeSecs],
      interval numbers, pixel coordinates) is a [Z]; overflow is outside
      the model.  Counters that only grow from 0 ([i], [arrayLength]) are
      [nat].
    - The local [QVector<double>]s of [recalc] are lists accessed through
      checked reads and writes: an access outside [0, size) is a [Fault],
      which is where the C++ has undefined behaviour.
    - The Qt/Qwt objects are records of the state the code sets and
      reads; pens, brushes, fonts and repainting are left out. *)

From Stdlib Require Import String.
From Stdlib Require Import ZArith QArith Qround List Lia Lqa Bool Sorted.
Import ListNotations.
Local Open Scope Z_scope.

(** ** Doubles *)

Definition Qlt_bool (a b : Q) : bool := negb (Qle_bool b a).

(** [static inline double max(double a, double b)]:
    [if (a > b) return a; else return b;] *)
Definition max (a b : Q) : Q := if Qlt_bool b a then a else b.

Definition MILES_PER_KM : Q := 62137119 # 100000000.
Definition FEET_PER_M : Q := 32808399 # 10000000.

(** Sum of a list of doubles and the unweighted mean. *)
Definition Qsum (l : list Q) : Q := fold_right Qplus 0%Q l.

Definition mean (l : list Q) : Q :=
  (Qsum l / inject_Z (Z.of_nat (length l)))%Q.

(** ** The ride, as the plot reads it (RideFile.h, RideItem.h, Zones.h) *)

Module RideFilePoint.
Record t := mk {
  secs : Q; cad : Q; hr : Q; km : Q; kph : Q; watts : Q; alt : Q;
  interval : Z
}.
End RideFilePoint.

Module RideFileDataPresent.
Record t := mk { watts : bool; hr : bool; kph : bool; cad : bool; alt : bool }.
End RideFileDataPresent.

Module RideFile.
Record t := mk {
  (* startTime().toString(GC_DATETIME_FORMAT) *)
  startTime : string;
  areDataPresent : RideFileDataPresent.t;
  dataPoints : list RideFilePoint.t
}.
End RideFile.

Module Zones.
Record t := mk {
  getZoneLows : Z -> list Z;
  getZoneNames : Z -> list string;
  numZones : Z -> Z
}.
End Zones.

Module RideItem.
Record t := mk {
  ride : option RideFile.t;           (* RideFile *ride, may be NULL *)
  zones : option (option Zones.t);    (* Zones **zones *)
  zoneRange : Z
}.
End RideItem.

(** ** Qwt objects *)

Inductive Axis := yLeft | yRight | xBottom | xTop.

Definition Axis_eqb (a b : Axis) : bool :=
  match a, b with
  | yLeft, yLeft | yRight, yRight | xBottom, xBottom | xTop, xTop => true
  | _, _ => false
  end.

Module QwtPlotCurve.
Record t := mk {
  title : string;
  attached : bool;
  visible : bool;
  yAxis : Axis;
  xData : list Q;
  yData : list Q
}.

Definition new (name : string) : t := mk name false true yLeft [] [].
Definition attach (c : t) : t :=
  mk (title c) true (visible c) (yAxis c) (xData c) (yData c).
Definition detach (c : t) : t :=
  mk (title c) false (visible c) (yAxis c) (xData c) (yData c).
Definition setVisible (b : bool) (c : t) : t :=
  mk (title c) (attached c) b (yAxis c) (xData c) (yData c).
Definition isVisible (c : t) : bool := visible c.
Definition setYAxis (a : Axis) (c : t) : t :=
  mk (title c) (attached c) (visible c) a (xData c) (yData c).
Definition setData (x y : list Q) (c : t) : t :=
  mk (title c) (attached c) (visible c) (yAxis c) x y.
End QwtPlotCurve.

Module QwtPlotMarker.
Inductive LineStyle := NoLine | HLine | VLine | Cross.
(** [label] is the number that [QString::number] renders. *)
Record t := mk { xValue : Q; yValue : Q; lineStyle : LineStyle; label : Z }.
End QwtPlotMarker.

(** The part of the base class [QwtPlot] that the code sets. *)
Module QwtPlot.
Record t := mk {
  title : string;
  axisTitle : Axis -> string;
  axisScale : Axis -> Q * Q;
  axisEnabled : Axis -> bool
}.

Definition upd {A} (f : Axis -> A) (a : Axis) (v : A) : Axis -> A :=
  fun b => if Axis_eqb b a then v else f b.

Definition new : t :=
  mk EmptyString (fun _ => EmptyString) (fun _ => (0%Q, 1000%Q))
     (fun a => match a with yLeft | xBottom => true | _ => false end).
Definition setTitle (s : string) (q : t) : t :=
  mk s (axisTitle q) (axisScale q) (axisEnabled q).
Definition setAxisTitle (a : Axis) (s : string) (q : t) : t :=
  mk (title q) (upd (axisTitle q) a s) (axisScale q) (axisEnabled q).
Definition setAxisScale (a : Axis) (lo hi : Q) (q : t) : t :=
  mk (title q) (axisTitle q) (upd (axisScale q) a (lo, hi)) (axisEnabled q).
Definition enableAxis (a : Axis) (b : bool) (q : t) : t :=
  mk (title q) (axisTitle q) (axisScale q) (upd (axisEnabled q) a b).
End QwtPlot.

(** [AllPlotZoneLabel]: the constructor computes [watts] and [text] only
    when shading is on and the zone exists; they stay unset otherwise. *)
Module AllPlotZoneLabel.
Record t := mk { zone_number : Z; watts : option Q; text : option string }.
End AllPlotZoneLabel.

(** ** The widget *)

Record AllPlot := mkAllPlot {
  unit : string;                       (* settings->value(GC_UNIT) *)
  useMetricUnits : bool;
  rideItem : option RideItem.t;
  smooth : Z;
  bydist : bool;
  shade_zones : bool;
  wattsArray : list Q;
  hrArray : list Q;
  speedArray : list Q;
  cadArray : list Q;
  altArray : list Q;
  timeArray : list Q;
  distanceArray : list Q;
  interArray : list Z;
  arrayLength : nat;
  wattsCurve : QwtPlotCurve.t;
  hrCurve : QwtPlotCurve.t;
  speedCurve : QwtPlotCurve.t;
  cadCurve : QwtPlotCurve.t;
  altCurve : QwtPlotCurve.t;
  grid : bool;                         (* grid->isVisible() *)
  zoneLabels : list AllPlotZoneLabel.t;
  d_mrk : list QwtPlotMarker.t;
  plot : QwtPlot.t
}.

Definition set_rideItem (x : option RideItem.t) (p : AllPlot) : AllPlot :=
  mkAllPlot (unit p) (useMetricUnits p) x (smooth p) (bydist p)
    (shade_zones p) (wattsArray p) (hrArray p) (speedArray p) (cadArray p)
    (altArray p) (timeArray p) (distanceArray p) (interArray p)
    (arrayLength p) (wattsCurve p) (hrCurve p) (speedCurve p) (cadCurve p)
    (altCurve p) (grid p) (zoneLabels p) (d_mrk p) (plot p).

Definition set_smooth (x : Z) (p : AllPlot) : AllPlot :=
  mkAllPlot (unit p) (useMetricUnits p) (rideItem p) x (bydist p)
    (shade_zones p) (wattsArray p) (hrArray p) (speedArray p) (cadArray p)
    (altArray p) (timeArray p) (distanceArray p) (interArray p)
    (arrayLength p) (wattsCurve p) (hrCurve p) (speedCurve p) (cadCurve p)
    (altCurve p) (grid p) (zoneLabels p) (d_mrk p) (plot p).

Definition set_bydist (x : bool) (p : AllPlot) : AllPlot :=
  mkAllPlot (unit p) (useMetricUnits p) (rideItem p) (smooth p) x
    (shade_zones p) (wattsArray p) (hrArray p) (speedArray p) (cadArray p)
    (altArray p) (timeArray p) (distanceArray p) (interArray p)
    (arrayLength p) (wattsCurve p) (hrCurve p) (speedCurve p) (cadCurve p)
    (altCurve p) (grid p) (zoneLabels p) (d_mrk p) (plot p).

Definition set_shade_zones (x : bool) (p : AllPlot) : AllPlot :=
  mkAllPlot (unit p) (useMetricUnits p) (rideItem p) (smooth p) (bydist p) x
    (wattsArray p) (hrArray p) (speedArray p) (cadArray p) (altArray p)
    (timeArray p) (distanceArray p) (interArray p) (arrayLength p)
    (wattsCurve p) (hrCurve p) (speedCurve p) (cadCurve p) (altCurve p)
    (grid p) (zoneLabels p) (d_mrk p) (plot p).

(** The eight sample arrays and [arrayLength], set together. *)
Record Arrays := mkArrays {
  a_watts : list Q; a_hr : list Q; a_speed : list Q; a_cad : list Q;
  a_alt : list Q; a_time : list Q; a_distance : list Q; a_inter : list Z;
  a_length : nat
}.

Definition arrays (p : AllPlot) : Arrays :=
  mkArrays (wattsArray p) (hrArray p) (speedArray p) (cadArray p)
    (altArray p) (timeArray p) (distanceArray p) (interArray p)
    (arrayLength p).

Definition set_arrays (a : Arrays) (p : AllPlot) : AllPlot :=
  mkAllPlot (unit p) (useMetricUnits p) (rideItem p) (smooth p) (bydist p)
    (shade_zones p) (a_watts a) (a_hr a) (a_speed a) (a_cad a) (a_alt a)
    (a_time a) (a_distance a) (a_inter a) (a_length a)
    (wattsCurve p) (hrCurve p) (speedCurve p) (cadCurve p) (altCurve p)
    (grid p) (zoneLabels p) (d_mrk p) (plot p).

Definition set_wattsArray (x : list Q) (p : AllPlot) : AllPlot :=
  mkAllPlot (unit p) (useMetricUnits p) (rideItem p) (smooth p) (bydist p)
    (shade_zones p) x (hrArray p) (speedArray p) (cadArray p) (altArray p)
    (timeArray p) (distanceArray p) (interArray p) (arrayLength p)
    (wattsCurve p) (hrCurve p) (speedCurve p) (cadCurve p) (altCurve p)
    (grid p) (zoneLabels p) (d_mrk p) (plot p).

Definition set_wattsCurve (x : QwtPlotCurve.t) (p : AllPlot) : AllPlot :=
  mkAllPlot (unit p) (useMetricUnits p) (rideItem p) (smooth p) (bydist p)
    (shade_zones p) (wattsArray p) (hrArray p) (speedArray p) (cadArray p)
    (altArray p) (timeArray p) (distanceArray p) (interArray p)
    (arrayLength p) x (hrCurve p) (speedCurve p) (cadCurve p) (altCurve p)
    (grid p) (zoneLabels p) (d_mrk p) (plot p).

Definition set_hrCurve (x : QwtPlotCurve.t) (p : AllPlot) : AllPlot :=
  mkAllPlot (unit p) (useMetricUnits p) (rideItem p) (smooth p) (bydist p)
    (shade_zones p) (wattsArray p) (hrArray p) (speedArray p) (cadArray p)
    (altArray p) (timeArray p) (distanceArray p) (interArray p)
    (arrayLength p) (wattsCurve p) x (speedCurve p) (cadCurve p) (altCurve p)
    (grid p) (zoneLabels p) (d_mrk p) (plot p).

Definition set_speedCurve (x : QwtPlotCurve.t) (p : AllPlot) : AllPlot :=
  mkAllPlot (unit p) (useMetricUnits p) (rideItem p) (smooth p) (bydist p)
    (shade_zones p) (wattsArray p) (hrArray p) (speedArray p) (cadArray p)
    (altArray p) (timeArray p) (distanceArray p) (interArray p)
    (arrayLength p) (wattsCurve p) (hrCurve p) x (cadCurve p) (altCurve p)
    (grid p) (zoneLabels p) (d_mrk p) (plot p).

Definition set_cadCurve (x : QwtPlotCurve.t) (p : AllPlot) : AllPlot :=
  mkAllPlot (unit p) (useMetricUnits p) (rideItem p) (smooth p) (bydist p)
    (shade_zones p) (wattsArray p) (hrArray p) (speedArray p) (cadArray p)
    (altArray p) (timeArray p) (distanceArray p) (interArray p)
    (arrayLength p) (wattsCurve p) (hrCurve p) (speedCurve p) x (altCurve p)
    (grid p) (zoneLabels p) (d_mrk p) (plot p).

Definition set_altCurve (x : QwtPlotCurve.t) (p : AllPlot) : AllPlot :=
  mkAllPlot (unit p) (useMetricUnits p) (rideItem p) (smooth p) (bydist p)
    (shade_zones p) (wattsArray p) (hrArray p) (speedArray p) (cadArray p)
    (altArray p) (timeArray p) (distanceArray p) (interArray p)
    (arrayLength p) (wattsCurve p) (hrCurve p) (speedCurve p) (cadCurve p) x
    (grid p) (zoneLabels p) (d_mrk p) (plot p).

Definition set_grid (x : bool) (p : AllPlot) : AllPlot :=
  mkAllPlot (unit p) (useMetricUnits p) (rideItem p) (smooth p) (bydist p)
    (shade_zones p) (wattsArray p) (hrArray p) (speedArray p) (cadArray p)
    (altArray p) (timeArray p) (distanceArray p) (interArray p)
    (arrayLength p) (wattsCurve p) (hrCurve p) (speedCurve p) (cadCurve p)
    (altCurve p) x (zoneLabels p) (d_mrk p) (plot p).

Definition set_zoneLabels (x : list AllPlotZoneLabel.t) (p : AllPlot)
  : AllPlot :=
  mkAllPlot (unit p) (useMetricUnits p) (rideItem p) (smooth p) (bydist p)
    (shade_zones p) (wattsArray p) (hrArray p) (speedArray p) (cadArray p)
    (altArray p) (timeArray p) (distanceArray p) (interArray p)
    (arrayLength p) (wattsCurve p) (hrCurve p) (speedCurve p) (cadCurve p)
    (altCurve p) (grid p) x (d_mrk p) (plot p).

Definition set_d_mrk (x : list QwtPlotMarker.t) (p : AllPlot) : AllPlot :=
  mkAllPlot (unit p) (useMetricUnits p) (rideItem p) (smooth p) (bydist p)
    (shade_zones p) (wattsArray p) (hrArray p) (speedArray p) (cadArray p)
    (altArray p) (timeArray p) (distanceArray p) (interArray p)
    (arrayLength p) (wattsCurve p) (hrCurve p) (speedCurve p) (cadCurve p)
    (altCurve p) (grid p) (zoneLabels p) x (plot p).

Definition set_plot (x : QwtPlot.t) (p : AllPlot) : AllPlot :=
  mkAllPlot (unit p) (useMetricUnits p) (rideItem p) (smooth p) (bydist p)
    (shade_zones p) (wattsArray p) (hrArray p) (speedArray p) (cadArray p)
    (altArray p) (timeArray p) (distanceArray p) (interArray p)
    (arrayLength p) (wattsCurve p) (hrCurve p) (speedCurve p) (cadCurve p)
    (altCurve p) (grid p) (zoneLabels p) (d_mrk p) x.

(** [QVector::empty()] *)
Definition empty {A} (l : list A) : bool :=
  match l with [] => true | _ => false end.

(** [AllPlot::shadeZones] *)
Definition shadeZones (p : AllPlot) : bool :=
  shade_zones p && negb (empty (wattsArray p)).

(** ** Faults and checked vectors *)

Inductive Vec :=
  SmoothWatts | SmoothHr | SmoothSpeed | SmoothCad | SmoothTime
| SmoothDistance | SmoothAltitude.

Inductive Access := Read | Write.

Inductive Fault :=
| OutOfRange (a : Access) (v : Vec) (i : Z)   (* operator[] outside [0,size) *)
| NegativeSize (n : Z).                       (* QVector<double>(n), n < 0 *)

Inductive Res (A : Type) : Type :=
| Ok (a : A)
| Err (f : Fault).
Arguments Ok {A} a.
Arguments Err {A} f.

Definition bind {A B} (m : Res A) (k : A -> Res B) : Res B :=
  match m with
  | Ok a => k a
  | Err f => Err f
  end.

Notation "x <- m ;; k" := (bind m (fun x => k))
  (at level 61, m at next level, right associativity).

Fixpoint mapM {A B} (f : A -> Res B) (l : list A) : Res (list B) :=
  match l with
  | [] => Ok []
  | a :: l' => b <- f a ;; bs <- mapM f l' ;; Ok (b :: bs)
  end.

(** [for (int secs = lo; secs < hi; ++secs) body]: [n] iterations from
    [secs]. *)
Fixpoint iter {S} (n : nat) (secs : Z) (body : Z -> S -> Res S) (s : S)
  : Res S :=
  match n with
  | O => Ok s
  | Datatypes.S n' => s' <- body secs s ;; iter n' (secs + 1) body s'
  end.

Definition for_range {S} (lo hi : Z) (body : Z -> S -> Res S) (s : S)
  : Res S :=
  iter (Z.to_nat (hi - lo)) lo body s.

(** Writing index [n] of a list. *)
Fixpoint upd {A} (n : nat) (x : A) (l : list A) : list A :=
  match l, n with
  | [], _ => []
  | _ :: t, O => x :: t
  | h :: t, Datatypes.S n' => h :: upd n' x t
  end.

(** [QVector<double> v(n)]: [n] zeros. *)
Definition QVector (n : Z) : Res (list Q) :=
  if n <? 0 then Err (NegativeSize n) else Ok (repeat 0%Q (Z.to_nat n)).

(** [QVector::resize]: keeps the leading elements, pads with zeros. *)
Definition resize (n : nat) (l : list Q) : list Q :=
  firstn n l ++ repeat 0%Q (n - length l).

Definition inRange (l : list Q) (i : Z) : bool :=
  (0 <=? i) && (i <? Z.of_nat (length l)).

(** [v[i]] read and [v[i] = x] on a local vector named [v]. *)
Definition vget (v : Vec) (l : list Q) (i : Z) : Res Q :=
  if inRange l i then Ok (nth (Z.to_nat i) l 0%Q)
  else Err (OutOfRange Read v i).

Definition vset (v : Vec) (l : list Q) (i : Z) (x : Q) : Res (list Q) :=
  if inRange l i then Ok (upd (Z.to_nat i) x l)
  else Err (OutOfRange Write v i).

(** ** [QMap<double,int>]: association list sorted by key *)

Definition QMap := list (Q * Z).

Fixpoint qmap_insert (k : Q) (v : Z) (m : QMap) : QMap :=
  match m with
  | [] => [(k, v)]
  | (k', v') :: m' =>
      match (k ?= k')%Q with
      | Lt => (k, v) :: m
      | Eq => (k', v) :: m'
      | Gt => (k', v') :: qmap_insert k v m'
      end
  end.

Fixpoint qmap_find (k : Q) (m : QMap) : Z :=
  match m with
  | [] => 0
  | (k', v') :: m' => if Qeq_bool k k' then v' else qmap_find k m'
  end.

Definition keys (m : QMap) : list Q := map fst m.

(** ** [recalc] *)

Module DataPoint.
Record t := mk {
  time : Q; hr : Q; watts : Q; speed : Q; cad : Q; alt : Q; inter : Z
}.
End DataPoint.

Record Totals := mkTotals {
  totalWatts : Q; totalHr : Q; totalSpeed : Q; totalCad : Q;
  totalDist : Q; totalAlt : Q
}.

Record Smooth := mkSmooth {
  smoothWatts : list Q; smoothHr : list Q; smoothSpeed : list Q;
  smoothCad : list Q; smoothTime : list Q; smoothDistance : list Q;
  smoothAltitude : list Q
}.

(** The locals of [recalc] that the loops update. *)
Module Locals.
Record t := mk {
  i : nat;
  totals : Totals;
  list : Datatypes.list DataPoint.t;
  lastInterval : Z;
  interList : QMap;
  vecs : Smooth
}.
End Locals.

Definition limit : Z := 7 * 24 * 60 * 60.

(** [(int) ceil(timeArray[arrayLength - 1])] *)
Definition rideTimeSecs (p : AllPlot) : Z :=
  Qceiling (nth (arrayLength p - 1) (timeArray p) 0%Q).

(** Lines 314-323. *)
Definition initBody (secs : Z) (v : Smooth) : Res Smooth :=
  sw <- vset SmoothWatts (smoothWatts v) secs 0%Q ;;
  sh <- vset SmoothHr (smoothHr v) secs 0%Q ;;
  ss <- vset SmoothSpeed (smoothSpeed v) secs 0%Q ;;
  sc <- vset SmoothCad (smoothCad v) secs 0%Q ;;
  st <- vset SmoothTime (smoothTime v) secs (inject_Z secs / 60)%Q ;;
  sd <- vset SmoothDistance (smoothDistance v) secs 0%Q ;;
  sa <- vset SmoothAltitude (smoothAltitude v) secs 0%Q ;;
  Ok (mkSmooth sw sh ss sc st sd sa).

(** The [DataPoint dp] built at index [i] (lines 328-334). *)
Definition dataPoint (p : AllPlot) (i : nat) : DataPoint.t :=
  DataPoint.mk
    (nth i (timeArray p) 0%Q)
    (if negb (empty (hrArray p)) then nth i (hrArray p) 0%Q else 0%Q)
    (if negb (empty (wattsArray p)) then nth i (wattsArray p) 0%Q else 0%Q)
    (if negb (empty (speedArray p)) then nth i (speedArray p) 0%Q else 0%Q)
    (if negb (empty (cadArray p)) then nth i (cadArray p) 0%Q else 0%Q)
    (if negb (empty (altArray p)) then nth i (altArray p) 0%Q else 0%Q)
    (nth i (interArray p) 0).

(** Body of the first [while] (lines 328-352). *)
Definition consume1 (p : AllPlot) (secs : Z) (s : Locals.t) : Locals.t :=
  let i := Locals.i s in
  let dp := dataPoint p i in
  let t := Locals.totals s in
  let t' :=
    mkTotals
      (if negb (empty (wattsArray p))
       then (totalWatts t + nth i (wattsArray p) 0)%Q else totalWatts t)
      (if negb (empty (hrArray p))
       then (totalHr t + nth i (hrArray p) 0)%Q else totalHr t)
      (if negb (empty (speedArray p))
       then (totalSpeed t + nth i (speedArray p) 0)%Q else totalSpeed t)
      (if negb (empty (cadArray p))
       then (totalCad t + nth i (cadArray p) 0)%Q else totalCad t)
      (nth i (distanceArray p) 0%Q)
      (if negb (empty (altArray p))
       then (totalAlt t + nth i (altArray p) 0)%Q else totalAlt t) in
  let inter_i := nth i (interArray p) 0 in
  if negb (Locals.lastInterval s =? inter_i)
  then Locals.mk (S i) t' (Locals.list s ++ [dp]) inter_i
         (qmap_insert (inject_Z secs / 60)%Q inter_i (Locals.interList s))
         (Locals.vecs s)
  else Locals.mk (S i) t' (Locals.list s ++ [dp]) (Locals.lastInterval s)
         (Locals.interList s) (Locals.vecs s).

(** [while ((i < arrayLength) && (timeArray[i] <= secs))]; every turn
    increments [i], so [arrayLength - i] turns are enough. *)
Fixpoint consume (fuel : nat) (p : AllPlot) (secs : Z) (s : Locals.t)
  : Locals.t :=
  match fuel with
  | O => s
  | S fuel' =>
      if (Locals.i s <? arrayLength p)%nat
         && Qle_bool (nth (Locals.i s) (timeArray p) 0%Q) (inject_Z secs)
      then consume fuel' p secs (consume1 p secs s)
      else s
  end.

(** [while (!list.empty() && (list.front().time < secs - smooth))]
    (lines 354-362), by recursion on the list. *)
Fixpoint expire (bound : Z) (t : Totals) (l : list DataPoint.t)
  : Totals * list DataPoint.t :=
  match l with
  | [] => (t, [])
  | dp :: rest =>
      if Qlt_bool (DataPoint.time dp) (inject_Z bound)
      then expire bound
             (mkTotals (totalWatts t - DataPoint.watts dp)%Q
                       (totalHr t - DataPoint.hr dp)%Q
                       (totalSpeed t - DataPoint.speed dp)%Q
                       (totalCad t - DataPoint.cad dp)%Q
                       (totalDist t)
                       (totalAlt t - DataPoint.alt dp)%Q)
             rest
      else (t, l)
  end.

(** [list.size()] as a double. *)
Definition size (l : list DataPoint.t) : Q := inject_Z (Z.of_nat (length l)).

(** Lines 365-380. *)
Definition store (secs : Z) (t : Totals) (l : list DataPoint.t) (v : Smooth)
  : Res Smooth :=
  if empty l then
    sw <- vset SmoothWatts (smoothWatts v) secs 0%Q ;;
    sh <- vset SmoothHr (smoothHr v) secs 0%Q ;;
    ss <- vset SmoothSpeed (smoothSpeed v) secs 0%Q ;;
    sc <- vset SmoothCad (smoothCad v) secs 0%Q ;;
    prev <- vget SmoothAltitude (smoothAltitude v) (secs - 1) ;;
    sa <- vset SmoothAltitude (smoothAltitude v) secs prev ;;
    sd <- vset SmoothDistance (smoothDistance v) secs (totalDist t) ;;
    st <- vset SmoothTime (smoothTime v) secs (inject_Z secs / 60)%Q ;;
    Ok (mkSmooth sw sh ss sc st sd sa)
  else
    sw <- vset SmoothWatts (smoothWatts v) secs (totalWatts t / size l)%Q ;;
    sh <- vset SmoothHr (smoothHr v) secs (totalHr t / size l)%Q ;;
    ss <- vset SmoothSpeed (smoothSpeed v) secs (totalSpeed t / size l)%Q ;;
    sc <- vset SmoothCad (smoothCad v) secs (totalCad t / size l)%Q ;;
    sa <- vset SmoothAltitude (smoothAltitude v) secs
            (totalAlt t / size l)%Q ;;
    sd <- vset SmoothDistance (smoothDistance v) secs (totalDist t) ;;
    st <- vset SmoothTime (smoothTime v) secs (inject_Z secs / 60)%Q ;;
    Ok (mkSmooth sw sh ss sc st sd sa).

(** Body of the main [for] (lines 326-381). *)
Definition mainBody (p : AllPlot) (secs : Z) (s : Locals.t) : Res Locals.t :=
  let s1 := consume (arrayLength p - Locals.i s) p secs s in
  let '(t, l) :=
    expire (secs - smooth p) (Locals.totals s1) (Locals.list s1) in
  v <- store secs t l (Locals.vecs s1) ;;
  Ok (Locals.mk (Locals.i s1) t l (Locals.lastInterval s1)
        (Locals.interList s1) v).

(** Lines 291-381: the declarations and the two loops. *)
Definition smoothing (p : AllPlot) : Res Locals.t :=
  let n := rideTimeSecs p + 1 in
  sw <- QVector n ;; sh <- QVector n ;; ss <- QVector n ;;
  sc <- QVector n ;; st <- QVector n ;; sd <- QVector n ;;
  sa <- QVector n ;;
  v <- for_range 0 (Z.min (smooth p) (rideTimeSecs p)) initBody
         (mkSmooth sw sh ss sc st sd sa) ;;
  for_range (smooth p) (rideTimeSecs p + 1) (mainBody p)
    (Locals.mk 0 (mkTotals 0 0 0 0 0 0) [] 0 [] v).

(** [AllPlot::setXTitle] *)
Definition setXTitle (p : AllPlot) : AllPlot :=
  if bydist p
  then set_plot
         (QwtPlot.setAxisTitle xBottom
            ("Distance " ++
             (if String.eqb (unit p) "Metric" then "(km)" else "(miles)"))
            (plot p)) p
  else set_plot (QwtPlot.setAxisTitle xBottom "Time (minutes)" (plot p)) p.

(** [ylabel += QString((ylabel == "") ? "" : " / ") + name] *)
Definition addLabel (ylabel name : string) : string :=
  (ylabel ++ ((if String.eqb ylabel "" then "" else " / ") ++ name))%string.

(** The constructor of [AllPlotZoneLabel] (lines 102-144). *)
Definition newZoneLabel (parent : AllPlot) (zone_number : Z)
  : AllPlotZoneLabel.t :=
  let unset := AllPlotZoneLabel.mk zone_number None None in
  match rideItem parent with
  | None => unset
  | Some item =>
      match RideItem.zones item with
      | Some (Some zones) =>
          if shadeZones parent && (0 <=? RideItem.zoneRange item) then
            let zone_lows :=
              Zones.getZoneLows zones (RideItem.zoneRange item) in
            let zone_names :=
              Zones.getZoneNames zones (RideItem.zoneRange item) in
            let num_zones := Z.of_nat (length zone_lows) in
            let low z := inject_Z (nth (Z.to_nat z) zone_lows 0) in
            if zone_number <? num_zones then
              AllPlotZoneLabel.mk zone_number
                (Some
                   (if zone_number + 1 <? num_zones
                    then ((1 # 2)
                          * (low zone_number + low (zone_number + 1)%Z))%Q
                    else if 0 <? zone_number
                    then ((3 # 2) * low zone_number
                          - (1 # 2) * low (zone_number - 1)%Z)%Q
                    else (2 * low zone_number)%Q))
                (Some (nth (Z.to_nat zone_number) zone_names ""%string))
            else unset
          else unset
      | _ => unset
      end
  end.

(** [0, 1, ..., n-1] *)
Definition upto (n : Z) : list Z := map Z.of_nat (seq 0 (Z.to_nat n)).

(** [AllPlot::refreshZoneLabels] *)
Definition refreshZoneLabels (p : AllPlot) : AllPlot :=
  let p := set_zoneLabels [] p in
  match rideItem p with
  | None => p
  | Some item =>
      match RideItem.zones item with
      | Some (Some zones) =>
          if 0 <=? RideItem.zoneRange item then
            set_zoneLabels
              (map (newZoneLabel p)
                 (upto (Zones.numZones zones (RideItem.zoneRange item)))) p
          else p
      | _ => p
      end
  end.

Section Widget.

(** [QwtPlotCurve::maxYValue()], computed by Qwt from the curve's data. *)
Variable maxYValue : QwtPlotCurve.t -> Q.

(** [AllPlot::setYMax] *)
Definition setYMax (p : AllPlot) : AllPlot :=
  let ymax := 0%Q in
  let ylabel := ""%string in
  let '(ymax, ylabel) :=
    if QwtPlotCurve.isVisible (wattsCurve p)
    then (max ymax (maxYValue (wattsCurve p)), addLabel ylabel "Watts")
    else (ymax, ylabel) in
  let '(ymax, ylabel) :=
    if QwtPlotCurve.isVisible (hrCurve p)
    then (max ymax (maxYValue (hrCurve p)), addLabel ylabel "BPM")
    else (ymax, ylabel) in
  let '(ymax, ylabel) :=
    if QwtPlotCurve.isVisible (cadCurve p)
    then (max ymax (maxYValue (cadCurve p)), addLabel ylabel "RPM")
    else (ymax, ylabel) in
  let '(ymax, ylabel) :=
    if QwtPlotCurve.isVisible (altCurve p)
    then (max ymax (maxYValue (altCurve p)),
          if useMetricUnits p then addLabel ylabel "Meters"
          else addLabel ylabel "Ft")
    else (ymax, ylabel) in
  let q := QwtPlot.setAxisScale yLeft 0 (ymax * (11 # 10)) (plot p) in
  let q := QwtPlot.setAxisTitle yLeft ylabel q in
  let q := QwtPlot.enableAxis yRight
             (QwtPlotCurve.isVisible (speedCurve p)) q in
  let q := QwtPlot.setAxisTitle yRight
             (if useMetricUnits p then "KPH" else "MPH") q in
  set_plot q p.

(** [curve->setData(data, data)], only for a channel that is present. *)
Definition clearIfPresent (a : list Q) (c : QwtPlotCurve.t)
  : QwtPlotCurve.t :=
  if negb (empty a) then QwtPlotCurve.setData [] [] c else c.

(** [curve->setData(xaxis.data(), smoothed.data(), rideTimeSecs + 1)]:
    the whole vectors, whose size is [rideTimeSecs + 1]. *)
Definition plotIfPresent (a : list Q) (x y : list Q) (c : QwtPlotCurve.t)
  : QwtPlotCurve.t :=
  if negb (empty a) then QwtPlotCurve.setData x y c else c.

(** One turn of the [foreach] over [interList.keys()] (lines 407-423). *)
Definition newMarker (p : AllPlot) (s : Locals.t) (time : Q)
  : Res QwtPlotMarker.t :=
  let text := qmap_find time (Locals.interList s) in
  if negb (bydist p)
  then Ok (QwtPlotMarker.mk time 0 QwtPlotMarker.VLine text)
  else
    d <- vget SmoothDistance (smoothDistance (Locals.vecs s))
           (Qceiling (60 * time)) ;;
    Ok (QwtPlotMarker.mk d 0 QwtPlotMarker.VLine text).

(** [AllPlot::recalc] *)
Definition recalc (p : AllPlot) : Res AllPlot :=
  if empty (timeArray p) then Ok p
  else if rideTimeSecs p >? limit then
    Ok (set_altCurve (clearIfPresent (altArray p) (altCurve p))
       (set_cadCurve (clearIfPresent (cadArray p) (cadCurve p))
       (set_speedCurve (clearIfPresent (speedArray p) (speedCurve p))
       (set_hrCurve (clearIfPresent (hrArray p) (hrCurve p))
       (set_wattsCurve (clearIfPresent (wattsArray p) (wattsCurve p))
          p)))))
  else
    s <- smoothing p ;;
    let v := Locals.vecs s in
    let xaxis := if bydist p then smoothDistance v else smoothTime v in
    let p1 :=
      set_altCurve
        (plotIfPresent (altArray p) xaxis (smoothAltitude v) (altCurve p))
      (set_cadCurve
        (plotIfPresent (cadArray p) xaxis (smoothCad v) (cadCurve p))
      (set_speedCurve
        (plotIfPresent (speedArray p) xaxis (smoothSpeed v) (speedCurve p))
      (set_hrCurve
        (plotIfPresent (hrArray p) xaxis (smoothHr v) (hrCurve p))
      (set_wattsCurve
        (plotIfPresent (wattsArray p) xaxis (smoothWatts v) (wattsCurve p))
        p)))) in
    xmax <- (if bydist p then Ok (totalDist (Locals.totals s))
             else vget SmoothTime (smoothTime v) (rideTimeSecs p)) ;;
    let p2 :=
      set_plot (QwtPlot.setAxisScale xBottom 0 xmax (plot p1)) p1 in
    let p3 := setYMax p2 in
    let p4 := refreshZoneLabels p3 in
    mrk <- mapM (newMarker p s) (keys (Locals.interList s)) ;;
    Ok (set_d_mrk mrk p4).

(** One turn of the loop over [ride->dataPoints()] (lines 507-530). *)
Definition fill1 (metric : bool) (a : Arrays) (point : RideFilePoint.t)
  : Arrays :=
  let n := a_length a in
  mkArrays
    (if negb (empty (a_watts a))
     then upd n (max 0 (RideFilePoint.watts point)) (a_watts a)
     else a_watts a)
    (if negb (empty (a_hr a))
     then upd n (max 0 (RideFilePoint.hr point)) (a_hr a)
     else a_hr a)
    (if negb (empty (a_speed a))
     then upd n (max 0 (if metric then RideFilePoint.kph point
                        else RideFilePoint.kph point * MILES_PER_KM)%Q)
            (a_speed a)
     else a_speed a)
    (if negb (empty (a_cad a))
     then upd n (max 0 (RideFilePoint.cad point)) (a_cad a)
     else a_cad a)
    (if negb (empty (a_alt a))
     then upd n (max 0 (if metric then RideFilePoint.alt point
                        else RideFilePoint.alt point * FEET_PER_M)%Q)
            (a_alt a)
     else a_alt a)
    (upd n (RideFilePoint.secs point) (a_time a))
    (upd n (max 0 (if metric then RideFilePoint.km point
                   else RideFilePoint.km point * MILES_PER_KM)%Q)
       (a_distance a))
    (upd n (RideFilePoint.interval point) (a_inter a))
    (S n).

Definition attachIfPresent (a : list Q) (c : QwtPlotCurve.t)
  : QwtPlotCurve.t :=
  if negb (empty a) then QwtPlotCurve.attach c else c.

Definition detachCurves (p : AllPlot) : AllPlot :=
  set_altCurve (QwtPlotCurve.detach (altCurve p))
  (set_cadCurve (QwtPlotCurve.detach (cadCurve p))
  (set_speedCurve (QwtPlotCurve.detach (speedCurve p))
  (set_hrCurve (QwtPlotCurve.detach (hrCurve p))
  (set_wattsCurve (QwtPlotCurve.detach (wattsCurve p)) p)))).

Definition attachCurves (p : AllPlot) : AllPlot :=
  set_altCurve (attachIfPresent (altArray p) (altCurve p))
  (set_cadCurve (attachIfPresent (cadArray p) (cadCurve p))
  (set_speedCurve (attachIfPresent (speedArray p) (speedCurve p))
  (set_hrCurve (attachIfPresent (hrArray p) (hrCurve p))
  (set_wattsCurve (attachIfPresent (wattsArray p) (wattsCurve p)) p)))).

(** [QVector<int>::resize] *)
Definition resizeZ (n : nat) (l : list Z) : list Z :=
  firstn n l ++ repeat 0 (n - length l).

(** [AllPlot::setData] up to the call of [recalc] (lines 473-531). *)
Definition load (p : AllPlot) (ride : RideFile.t) : AllPlot :=
  let p := set_plot (QwtPlot.setTitle (RideFile.startTime ride) (plot p)) p in
  let dataPresent := RideFile.areDataPresent ride in
  let npoints := length (RideFile.dataPoints ride) in
  let a :=
    mkArrays
      (resize (if RideFileDataPresent.watts dataPresent then npoints else 0)
         (wattsArray p))
      (resize (if RideFileDataPresent.hr dataPresent then npoints else 0)
         (hrArray p))
      (resize (if RideFileDataPresent.kph dataPresent then npoints else 0)
         (speedArray p))
      (resize (if RideFileDataPresent.cad dataPresent then npoints else 0)
         (cadArray p))
      (resize (if RideFileDataPresent.alt dataPresent then npoints else 0)
         (altArray p))
      (resize npoints (timeArray p))
      (resize npoints (distanceArray p))
      (resizeZ npoints (interArray p))
      O in
  let p := attachCurves (detachCurves (set_arrays a p)) in
  set_arrays
    (fold_left (fill1 (useMetricUnits p)) (RideFile.dataPoints ride) a) p.

(** [AllPlot::setData] *)
Definition setData (p : AllPlot) (_rideItem : RideItem.t) : Res AllPlot :=
  let p := set_wattsArray [] (set_rideItem (Some _rideItem) p) in
  match RideItem.ride _rideItem with
  | Some ride => recalc (load p ride)
  | None =>
      Ok (detachCurves
            (set_plot (QwtPlot.setTitle "no data" (plot p)) p))
  end.

(** [AllPlot::showPower] *)
Definition showPower (p : AllPlot) (id : Z) : Res AllPlot :=
  let p :=
    set_wattsCurve (QwtPlotCurve.setVisible (id <? 2) (wattsCurve p)) p in
  let p := set_shade_zones (id =? 0) p in
  recalc (setYMax p).

(** [Qt::CheckState].  The slots assert that the state is not
    [PartiallyChecked]; like a release build, the model goes on with
    [state == Qt::Checked] false. *)
Inductive CheckState := Unchecked | PartiallyChecked | Checked.

Definition isChecked (state : CheckState) : bool :=
  match state with Checked => true | _ => false end.

Definition showHr (p : AllPlot) (state : CheckState) : AllPlot :=
  setYMax
    (set_hrCurve (QwtPlotCurve.setVisible (isChecked state) (hrCurve p)) p).

Definition showSpeed (p : AllPlot) (state : CheckState) : AllPlot :=
  setYMax
    (set_speedCurve
       (QwtPlotCurve.setVisible (isChecked state) (speedCurve p)) p).

Definition showCad (p : AllPlot) (state : CheckState) : AllPlot :=
  setYMax
    (set_cadCurve
       (QwtPlotCurve.setVisible (isChecked state) (cadCurve p)) p).

Definition showAlt (p : AllPlot) (state : CheckState) : AllPlot :=
  setYMax
    (set_altCurve
       (QwtPlotCurve.setVisible (isChecked state) (altCurve p)) p).

Definition showGrid (p : AllPlot) (state : CheckState) : AllPlot :=
  set_grid (isChecked state) p.

Definition setSmoothing (p : AllPlot) (value : Z) : Res AllPlot :=
  recalc (set_smooth value p).

Definition setByDistance (p : AllPlot) (id : Z) : Res AllPlot :=
  recalc (setXTitle (set_bydist (id =? 1) p)).

End Widget.

(** [AllPlot::AllPlot], given the unit setting read from the application
    settings.  [arrayLength] is not initialised by the constructor; it is
    not read before [setData] sets it. *)
Definition newAllPlot (unit : string) : AllPlot :=
  setXTitle
    (mkAllPlot unit (String.eqb unit "Metric") None 30 false false
       [] [] [] [] [] [] [] [] O
       (QwtPlotCurve.new "Power") (QwtPlotCurve.new "Heart Rate")
       (QwtPlotCurve.setYAxis yRight (QwtPlotCurve.new "Speed"))
       (QwtPlotCurve.new "Cadence") (QwtPlotCurve.new "Altitude")
       true [] [] QwtPlot.new).

(** ** The zone background *)

Record QRect := mkQRect { left : Z; top : Z; right : Z; bottom : Z }.

Definition setBottom (y : Z) (r : QRect) : QRect :=
  mkQRect (left r) (top r) (right r) y.
Definition setTop (y : Z) (r : QRect) : QRect :=
  mkQRect (left r) y (right r) (bottom r).

Record QColor := mkQColor { hue : Z; saturation : Z; value : Z }.

Module AllPlotBackground.
Section Draw.

(** [zoneColor(z, num_zones)], declared in Zones.h. *)
Variable zoneColor : Z -> Z -> QColor.

(** One turn of the loop over the zones (lines 72-84): the rectangle
    filled, if any. *)
Definition band (yMap : Q -> Z) (rect : QRect) (zone_lows : list Z)
    (z : Z) : option (QRect * QColor) :=
  let num_zones := Z.of_nat (length zone_lows) in
  let r := rect in
  let c := zoneColor z num_zones in
  let shading_color := mkQColor (hue c) (Z.quot (saturation c) 4) (value c) in
  let r := setBottom (yMap (inject_Z (nth (Z.to_nat z) zone_lows 0))) r in
  let r :=
    if z + 1 <? num_zones
    then setTop (yMap (inject_Z (nth (Z.to_nat (z + 1)) zone_lows 0))) r
    else r in
  if top r <=? bottom r then Some (r, shading_color) else None.

Fixpoint somes {A} (l : list (option A)) : list A :=
  match l with
  | [] => []
  | Some a :: l' => a :: somes l'
  | None :: l' => somes l'
  end.

(** [AllPlotBackground::draw]: the [fillRect] calls, in order. *)
Definition draw (parent : AllPlot) (yMap : Q -> Z) (rect : QRect)
  : list (QRect * QColor) :=
  match rideItem parent with
  | None => []
  | Some item =>
      match RideItem.zones item with
      | Some (Some zones) =>
          if shadeZones parent && (0 <=? RideItem.zoneRange item) then
            let zone_lows :=
              Zones.getZoneLows zones (RideItem.zoneRange item) in
            let num_zones := Z.of_nat (length zone_lows) in
            if 0 <? num_zones
            then somes (map (band yMap rect zone_lows) (upto num_zones))
            else []
          else []
      | _ => []
      end
  end.

End Draw.
End AllPlotBackground.

(** ** The zone labels on the canvas *)

(** What [AllPlotZoneLabel::draw] paints: nothing when shading is off;
    otherwise the label's text in a rectangle of the text's size whose
    centre is [(x, y)].  [y] is [yMap.transform(watts)]: when the
    constructor left [watts] unset, the member is read without ever
    having been assigned. *)
Inductive Painted :=
| Nothing
| TextAt (x y : Z) (text : option string)
| UnsetWatts.

Definition AllPlotZoneLabel_draw (parent : AllPlot)
    (label : AllPlotZoneLabel.t) (yMap : Q -> Z) (rect : QRect) : Painted :=
  if shadeZones parent then
    let x := Z.quot (left rect + right rect) 2 in
    match AllPlotZoneLabel.watts label with
    | Some watts => TextAt x (yMap watts) (AllPlotZoneLabel.text label)
    | None => UnsetWatts
    end
  else Nothing.

(** * Specification vocabulary *)

(** Writing [f pt] at consecutive indices from [k], one per point: what
    the loop of [setData] does to one array. *)
Fixpoint updFrom {A P} (f : P -> A) (k : nat) (pts : list P) (arr : list A)
  : list A :=
  match pts with
  | [] => arr
  | pt :: rest => updFrom f (S k) rest (upd k (f pt) arr)
  end.

(** The value stored for a raw value [v] of a channel whose imperial
    conversion factor is [factor]. *)
Definition stored (metric : bool) (factor : Q) (v : Q) : Q :=
  max 0 (if metric then v else v * factor)%Q.

(** The class invariant that [setData] establishes: the arrays agree
    with [arrayLength], a channel array being empty when the channel is
    absent. *)
Definition sizedOrEmpty (n : nat) (l : list Q) : Prop :=
  l = [] \/ length l = n.

Record WF (p : AllPlot) : Prop := mkWF {
  wf_time : length (timeArray p) = arrayLength p;
  wf_distance : length (distanceArray p) = arrayLength p;
  wf_inter : length (interArray p) = arrayLength p;
  wf_watts : sizedOrEmpty (arrayLength p) (wattsArray p);
  wf_hr : sizedOrEmpty (arrayLength p) (hrArray p);
  wf_speed : sizedOrEmpty (arrayLength p) (speedArray p);
  wf_cad : sizedOrEmpty (arrayLength p) (cadArray p);
  wf_alt : sizedOrEmpty (arrayLength p) (altArray p)
}.

Definition allNonNeg (l : list Q) : Prop := Forall (fun x => 0 <= x)%Q l.

Record NonNeg (p : AllPlot) : Prop := mkNonNeg {
  nn_watts : allNonNeg (wattsArray p);
  nn_hr : allNonNeg (hrArray p);
  nn_speed : allNonNeg (speedArray p);
  nn_cad : allNonNeg (cadArray p);
  nn_alt : allNonNeg (altArray p);
  nn_distance : allNonNeg (distanceArray p)
}.

(** What [recalc] leaves alone. *)
Definition config (p : AllPlot) :=
  (unit p, useMetricUnits p, rideItem p, smooth p, bydist p, shade_zones p,
   grid p).

Definition curveFlags (c : QwtPlotCurve.t) :=
  (QwtPlotCurve.title c, QwtPlotCurve.attached c, QwtPlotCurve.visible c,
   QwtPlotCurve.yAxis c).

Definition flags (p : AllPlot) :=
  (curveFlags (wattsCurve p), curveFlags (hrCurve p),
   curveFlags (speedCurve p), curveFlags (cadCurve p),
   curveFlags (altCurve p)).

(** The public slots of the widget and a run of calls. *)
Inductive Call :=
| SetData (item : RideItem.t)
| ShowPower (id : Z)
| ShowHr (state : CheckState)
| ShowSpeed (state : CheckState)
| ShowCad (state : CheckState)
| ShowAlt (state : CheckState)
| ShowGrid (state : CheckState)
| SetSmoothing (value : Z)
| SetByDistance (id : Z).

Section Runs.
Variable maxYValue : QwtPlotCurve.t -> Q.

Definition exec (p : AllPlot) (c : Call) : Res AllPlot :=
  match c with
  | SetData item => setData maxYValue p item
  | ShowPower id => showPower maxYValue p id
  | ShowHr st => Ok (showHr maxYValue p st)
  | ShowSpeed st => Ok (showSpeed maxYValue p st)
  | ShowCad st => Ok (showCad maxYValue p st)
  | ShowAlt st => Ok (showAlt maxYValue p st)
  | ShowGrid st => Ok (showGrid p st)
  | SetSmoothing v => setSmoothing maxYValue p v
  | SetByDistance id => setByDistance maxYValue p id
  end.

Fixpoint run (p : AllPlot) (cs : list Call) : Res AllPlot :=
  match cs with
  | [] => Ok p
  | c :: cs' => p' <- exec p c ;; run p' cs'
  end.
End Runs.

Definition isSetData (c : Call) : bool :=
  match c with SetData _ => true | _ => false end.

(** The timestamp of the last sample. *)
Definition lastTime (p : AllPlot) : Q :=
  nth (arrayLength p - 1) (timeArray p) 0%Q.

(** The [showPower] call that decided [shade_zones], if any. *)
Fixpoint lastShowPower (cs : list Call) (d : option Z) : option Z :=
  match cs with
  | [] => d
  | ShowPower id :: cs' => lastShowPower cs' (Some id)
  | _ :: cs' => lastShowPower cs' d
  end.

(** [shade_zones] as that call leaves it. *)
Definition shadeOf (d : option Z) : bool :=
  match d with Some id => id =? 0 | None => false end.

(** ** The smoother, specified on lists *)

Fixpoint takeWhile {A} (f : A -> bool) (l : list A) : list A :=
  match l with
  | [] => []
  | a :: l' => if f a then a :: takeWhile f l' else []
  end.

Fixpoint dropWhile {A} (f : A -> bool) (l : list A) : list A :=
  match l with
  | [] => []
  | a :: l' => if f a then dropWhile f l' else l
  end.

(** [t <= secs] and [t < bound] on the time of a sample. *)
Definition upTo (secs : Z) (dp : DataPoint.t) : bool :=
  Qle_bool (DataPoint.time dp) (inject_Z secs).

Definition before (bound : Z) (dp : DataPoint.t) : bool :=
  Qlt_bool (DataPoint.time dp) (inject_Z bound).

(** The samples of the loaded ride, as [recalc] reads them. *)
Definition points (p : AllPlot) : list DataPoint.t :=
  map (dataPoint p) (seq 0 (arrayLength p)).

(** The sample that [recalc] sees for a point of the ride loaded by
    [setData]. *)
Definition toDataPoint (metric : bool) (present : RideFileDataPresent.t)
    (pt : RideFilePoint.t) : DataPoint.t :=
  DataPoint.mk
    (RideFilePoint.secs pt)
    (if RideFileDataPresent.hr present
     then max 0 (RideFilePoint.hr pt) else 0%Q)
    (if RideFileDataPresent.watts present
     then max 0 (RideFilePoint.watts pt) else 0%Q)
    (if RideFileDataPresent.kph present
     then stored metric MILES_PER_KM (RideFilePoint.kph pt) else 0%Q)
    (if RideFileDataPresent.cad present
     then max 0 (RideFilePoint.cad pt) else 0%Q)
    (if RideFileDataPresent.alt present
     then stored metric FEET_PER_M (RideFilePoint.alt pt) else 0%Q)
    (RideFilePoint.interval pt).

(** The samples consumed by the end of bin [secs], and what is left of
    them in [list] after the expiry loop of that bin. *)
Definition seen (p : AllPlot) (secs : Z) : list DataPoint.t :=
  takeWhile (upTo secs) (points p).

Definition queue (p : AllPlot) (secs : Z) : list DataPoint.t :=
  dropWhile (before (secs - smooth p)) (seen p secs).

(** The window of bin [secs]: all samples with
    [secs - smooth <= t <= secs]. *)
Definition inWindow (p : AllPlot) (secs : Z) (dp : DataPoint.t) : bool :=
  negb (before (secs - smooth p) dp) && upTo secs dp.

Definition window (p : AllPlot) (secs : Z) : list DataPoint.t :=
  filter (inWindow p secs) (points p).

Definition byTime (a b : DataPoint.t) : Prop :=
  (DataPoint.time a <= DataPoint.time b)%Q.

Definition sortedByTime (p : AllPlot) : Prop :=
  StronglySorted byTime (points p).

(** [v[j]] of a finished vector. *)
Definition vnth (v : list Q) (j : Z) : Q := nth (Z.to_nat j) v 0%Q.

(** [totalDist] once [i] samples are consumed. *)
Definition distUpTo (p : AllPlot) (i : nat) : Q :=
  match i with
  | O => 0%Q
  | S j => nth j (distanceArray p) 0%Q
  end.

(** The running totals are the sums over [list]. *)
Record Sums (t : Totals) (l : list DataPoint.t) : Prop := mkSums {
  sum_watts : (totalWatts t == Qsum (map DataPoint.watts l))%Q;
  sum_hr : (totalHr t == Qsum (map DataPoint.hr l))%Q;
  sum_speed : (totalSpeed t == Qsum (map DataPoint.speed l))%Q;
  sum_cad : (totalCad t == Qsum (map DataPoint.cad l))%Q;
  sum_alt : (totalAlt t == Qsum (map DataPoint.alt l))%Q
}.

Record Lengths (n : Z) (v : Smooth) : Prop := mkLengths {
  len_watts : Z.of_nat (length (smoothWatts v)) = n;
  len_hr : Z.of_nat (length (smoothHr v)) = n;
  len_speed : Z.of_nat (length (smoothSpeed v)) = n;
  len_cad : Z.of_nat (length (smoothCad v)) = n;
  len_time : Z.of_nat (length (smoothTime v)) = n;
  len_distance : Z.of_nat (length (smoothDistance v)) = n;
  len_altitude : Z.of_nat (length (smoothAltitude v)) = n
}.

(** What bin [j] of the finished vectors holds. *)
Record Bin (p : AllPlot) (v : Smooth) (j : Z) : Prop := mkBin {
  bin_watts :
    (vnth (smoothWatts v) j == mean (map DataPoint.watts (queue p j)))%Q;
  bin_hr :
    (vnth (smoothHr v) j == mean (map DataPoint.hr (queue p j)))%Q;
  bin_speed :
    (vnth (smoothSpeed v) j == mean (map DataPoint.speed (queue p j)))%Q;
  bin_cad :
    (vnth (smoothCad v) j == mean (map DataPoint.cad (queue p j)))%Q;
  bin_alt :
    queue p j <> [] ->
    (vnth (smoothAltitude v) j == mean (map DataPoint.alt (queue p j)))%Q;
  bin_alt_carried :
    queue p j = [] ->
    vnth (smoothAltitude v) j = vnth (smoothAltitude v) (j - 1);
  bin_time : vnth (smoothTime v) j = (inject_Z j / 60)%Q;
  bin_distance :
    vnth (smoothDistance v) j = distUpTo p (length (seen p j))
}.

(** The state of the main loop on entry to bin [k]. *)
Definition seenBefore (p : AllPlot) (k : Z) : list DataPoint.t :=
  if k <=? smooth p then [] else seen p (k - 1).

Definition queueBefore (p : AllPlot) (k : Z) : list DataPoint.t :=
  if k <=? smooth p then [] else queue p (k - 1).

Record MainInv (p : AllPlot) (k : Z) (s : Locals.t) : Prop := mkMainInv {
  mi_i : Locals.i s = length (seenBefore p k);
  mi_list : Locals.list s = queueBefore p k;
  mi_sums : Sums (Locals.totals s) (Locals.list s);
  mi_dist : totalDist (Locals.totals s) = distUpTo p (Locals.i s);
  mi_len : Lengths (rideTimeSecs p + 1) (Locals.vecs s);
  mi_bins : forall j, smooth p <= j < k -> Bin p (Locals.vecs s) j
}.

(** What [store] writes at bin [secs]. *)
Definition written (secs : Z) (t : Totals) (l : list DataPoint.t) (v : Smooth)
  : Smooth :=
  let n := Z.to_nat secs in
  let avg x := if empty l then 0%Q else (x / size l)%Q in
  mkSmooth
    (upd n (avg (totalWatts t)) (smoothWatts v))
    (upd n (avg (totalHr t)) (smoothHr v))
    (upd n (avg (totalSpeed t)) (smoothSpeed v))
    (upd n (avg (totalCad t)) (smoothCad v))
    (upd n (inject_Z secs / 60)%Q (smoothTime v))
    (upd n (totalDist t) (smoothDistance v))
    (upd n (if empty l then vnth (smoothAltitude v) (secs - 1)
            else (totalAlt t / size l)%Q) (smoothAltitude v)).

(** What [initBody] writes at bin [secs]. *)
Definition initWritten (secs : Z) (v : Smooth) : Smooth :=
  let n := Z.to_nat secs in
  mkSmooth (upd n 0%Q (smoothWatts v)) (upd n 0%Q (smoothHr v))
    (upd n 0%Q (smoothSpeed v)) (upd n 0%Q (smoothCad v))
    (upd n (inject_Z secs / 60)%Q (smoothTime v))
    (upd n 0%Q (smoothDistance v)) (upd n 0%Q (smoothAltitude v)).

(** The bins below the smoothing window, as the first loop leaves them. *)
Definition Low (n m : Z) (v : Smooth) : Prop :=
  Lengths n v /\
  forall j, 0 <= j < m ->
    vnth (smoothTime v) j = (inject_Z j / 60)%Q /\
    vnth (smoothDistance v) j = 0%Q.

(** The marker that [newMarker] makes for the key [time] when its
    vector read is in range. *)
Definition markerOf (p : AllPlot) (s : Locals.t) (time : Q)
  : QwtPlotMarker.t :=
  QwtPlotMarker.mk
    (if bydist p
     then vnth (smoothDistance (Locals.vecs s)) (Qceiling (60 * time))
     else time)
    0 QwtPlotMarker.VLine (qmap_find time (Locals.interList s)).

(** The keys of [interList] are bins of the main loop, in minutes. *)
Definition binKey (lo hi : Z) (e : Q * Z) : Prop :=
  exists b, lo <= b < hi /\ fst e = (inject_Z b / 60)%Q.

Section Finished.
Variable maxYValue : QwtPlotCurve.t -> Q.

(** The state [recalc] ends in when the loops end in [s] and no read
    of the tail faults (lines 383-425). *)
Definition finished (p : AllPlot) (s : Locals.t) : AllPlot :=
  let v := Locals.vecs s in
  let xaxis := if bydist p then smoothDistance v else smoothTime v in
  let p1 :=
    set_altCurve
      (plotIfPresent (altArray p) xaxis (smoothAltitude v) (altCurve p))
    (set_cadCurve
      (plotIfPresent (cadArray p) xaxis (smoothCad v) (cadCurve p))
    (set_speedCurve
      (plotIfPresent (speedArray p) xaxis (smoothSpeed v) (speedCurve p))
    (set_hrCurve
      (plotIfPresent (hrArray p) xaxis (smoothHr v) (hrCurve p))
    (set_wattsCurve
      (plotIfPresent (wattsArray p) xaxis (smoothWatts v) (wattsCurve p))
      p)))) in
  let xmax := if bydist p then totalDist (Locals.totals s)
              else vnth (smoothTime v) (rideTimeSecs p) in
  let p2 := set_plot (QwtPlot.setAxisScale xBottom 0 xmax (plot p1)) p1 in
  set_d_mrk (map (markerOf p s) (keys (Locals.interList s)))
    (refreshZoneLabels (setYMax maxYValue p2)).
End Finished.

(** ** Interval transitions *)

(** The samples whose interval number differs from that of the sample
    before them, the first one being compared with [last]. *)
Fixpoint transitions (last : Z) (l : list DataPoint.t) : list DataPoint.t :=
  match l with
  | [] => []
  | dp :: rest =>
      if last =? DataPoint.inter dp then transitions last rest
      else dp :: transitions (DataPoint.inter dp) rest
  end.

(** The interval number of the last sample of [l] ([d] if none). *)
Definition lastInter (d : Z) (l : list DataPoint.t) : Z :=
  fold_left (fun _ dp => DataPoint.inter dp) l d.

(** The bin of the main loop in which a sample of a sorted ride is
    consumed: the first whole second at or after its time, and not
    before [smooth]. *)
Definition binOf (p : AllPlot) (dp : DataPoint.t) : Z :=
  Z.max (smooth p) (Qceiling (DataPoint.time dp)).

Definition entryOf (p : AllPlot) (dp : DataPoint.t) : Q * Z :=
  ((inject_Z (binOf p dp) / 60)%Q, DataPoint.inter dp).

Definition insertAt (p : AllPlot) (m : QMap) (dp : DataPoint.t) : QMap :=
  qmap_insert (fst (entryOf p dp)) (snd (entryOf p dp)) m.

(** [interList] once the samples [l] are consumed. *)
Definition markersMap (p : AllPlot) (l : list DataPoint.t) : QMap :=
  fold_left (insertAt p) (transitions 0 l) [].

Record InterCore (p : AllPlot) (s : Locals.t) : Prop := mkInterCore {
  ic_le : (Locals.i s <= arrayLength p)%nat;
  ic_map :
    Locals.interList s = markersMap p (firstn (Locals.i s) (points p));
  ic_last :
    Locals.lastInterval s = lastInter 0 (firstn (Locals.i s) (points p))
}.

(** On entry to bin [k] the samples not yet consumed are later than
    [k - 1] (nothing is known at the first bin). *)
Definition fresh (p : AllPlot) (k : Z) (s : Locals.t) : Prop :=
  k <= smooth p \/
  Forall (fun dp => (inject_Z (k - 1) < DataPoint.time dp)%Q)
    (skipn (Locals.i s) (points p)).

(** The marker of a transition sample. *)
Definition transitionMarker (p : AllPlot) (v : Smooth) (dp : DataPoint.t)
  : QwtPlotMarker.t :=
  QwtPlotMarker.mk
    (if bydist p then vnth (smoothDistance v) (binOf p dp)
     else (inject_Z (binOf p dp) / 60)%Q)
    0 QwtPlotMarker.VLine (DataPoint.inter dp).

(** The transitions of the sample stream proper: the first sample has
    no sample before it. *)
Definition streamTransitions (l : list DataPoint.t) : list DataPoint.t :=
  match l with
  | [] => []
  | dp :: rest => transitions (DataPoint.inter dp) rest
  end.

(** ** The left axis *)

Section LeftAxis.
Variable maxYValue : QwtPlotCurve.t -> Q.

(** The curves drawn against the left axis with their unit names, in
    the order of [setYMax]. *)
Definition leftCurves (p : AllPlot) : list (QwtPlotCurve.t * string) :=
  [(wattsCurve p, "Watts"%string); (hrCurve p, "BPM"%string);
   (cadCurve p, "RPM"%string);
   (altCurve p, if useMetricUnits p then "Meters"%string else "Ft"%string)].

Definition visibleLeft (p : AllPlot) : list (QwtPlotCurve.t * string) :=
  filter (fun cu => QwtPlotCurve.isVisible (fst cu)) (leftCurves p).

(** The largest of 0 and the maximum y-values of the visible curves. *)
Definition leftMax (p : AllPlot) : Q :=
  fold_left (fun m cu => max m (maxYValue (fst cu))) (visibleLeft p) 0%Q.

(** The maximum over the visible curves alone, 0 when there is none. *)
Definition curvesMax (p : AllPlot) : Q :=
  match visibleLeft p with
  | [] => 0%Q
  | cu :: rest =>
      fold_left (fun m cu => max m (maxYValue (fst cu))) rest
        (maxYValue (fst cu))
  end.

Definition leftTitle (p : AllPlot) : string :=
  String.concat " / " (map snd (visibleLeft p)).
End LeftAxis.

(** ** The bands of the zone background *)

Section Bands.
Variable zoneColor : Z -> Z -> QColor.
Variables (yMap : Q -> Z) (rect : QRect) (zone_lows : list Z).

Definition num_zones : Z := Z.of_nat (length zone_lows).

(** Pixel row of the low of zone [z]. *)
Definition lowRow (z : Z) : Z :=
  yMap (inject_Z (nth (Z.to_nat z) zone_lows 0)).

(** Bottom and top rows of the band of zone [z]: from its low up to
    the low of the next zone, the top zone up to the top of [rect]. *)
Definition bandBottom (z : Z) : Z := lowRow z.
Definition bandTop (z : Z) : Z :=
  if z + 1 <? num_zones then lowRow (z + 1) else top rect.

Definition shade (z : Z) : QColor :=
  let c := zoneColor z num_zones in
  mkQColor (hue c) (Z.quot (saturation c) 4) (value c).

Definition bandRect (z : Z) : QRect :=
  mkQRect (left rect) (bandTop z) (right rect) (bandBottom z).

(** The zones whose band is filled. *)
Definition filled : list Z :=
  filter (fun z => bandTop z <=? bandBottom z) (upto num_zones).
End Bands.

(** ** Runs that stay within the vectors *)

(** A call that a sound caller makes: a smoothing window of at least
    one second, and rides whose timestamps are not negative. *)
Definition saneCall (c : Call) : bool :=
  match c with
  | SetSmoothing value => 1 <=? value
  | SetData item =>
      match RideItem.ride item with
      | Some ride =>
          forallb (fun pt => Qle_bool 0 (RideFilePoint.secs pt))
            (RideFile.dataPoints ride)
      | None => true
      end
  | _ => true
  end.

Definition Sane (p : AllPlot) : Prop :=
  1 <= smooth p /\ Forall (fun t => 0 <= t)%Q (timeArray p).

(** ** The five plotted channels *)

Inductive Channel := Power | HeartRate | Speed | Cadence | Altitude.

(** The sample array, the field of a [DataPoint], the running total,
    the smoothed vector and the curve of a channel. *)
Definition samples (c : Channel) (p : AllPlot) : list Q :=
  match c with
  | Power => wattsArray p
  | HeartRate => hrArray p
  | Speed => speedArray p
  | Cadence => cadArray p
  | Altitude => altArray p
  end.

Definition reading (c : Channel) (dp : DataPoint.t) : Q :=
  match c with
  | Power => DataPoint.watts dp
  | HeartRate => DataPoint.hr dp
  | Speed => DataPoint.speed dp
  | Cadence => DataPoint.cad dp
  | Altitude => DataPoint.alt dp
  end.

Definition total (c : Channel) (t : Totals) : Q :=
  match c with
  | Power => totalWatts t
  | HeartRate => totalHr t
  | Speed => totalSpeed t
  | Cadence => totalCad t
  | Altitude => totalAlt t
  end.

Definition smoothed (c : Channel) (v : Smooth) : list Q :=
  match c with
  | Power => smoothWatts v
  | HeartRate => smoothHr v
  | Speed => smoothSpeed v
  | Cadence => smoothCad v
  | Altitude => smoothAltitude v
  end.

Definition curveOf (c : Channel) (p : AllPlot) : QwtPlotCurve.t :=
  match c with
  | Power => wattsCurve p
  | HeartRate => hrCurve p
  | Speed => speedCurve p
  | Cadence => cadCurve p
  | Altitude => altCurve p
  end.

(** What [store] writes into the vector of channel [c] at a bin. *)
Definition storedAt (c : Channel) (secs : Z) (t : Totals)
    (l : list DataPoint.t) (v : Smooth) : Q :=
  if empty l then
    match c with
    | Altitude => vnth (smoothAltitude v) (secs - 1)
    | _ => 0%Q
    end
  else (total c t / size l)%Q.

Definition between (lo hi x : Q) : Prop := (lo <= x <= hi)%Q.

(** All entries of the five value vectors are 0. *)
Definition AllZero (v : Smooth) : Prop :=
  forall c j, vnth (smoothed c v) j = 0%Q.

(** ** Transitions that share a bin *)

(** Of the transitions that are consumed in one bin, the last one: a
    transition is kept unless the next one falls into the same bin. *)
Fixpoint lastPerBin (p : AllPlot) (l : list DataPoint.t) : list DataPoint.t :=
  match l with
  | [] => []
  | dp :: rest =>
      match rest with
      | [] => [dp]
      | next :: _ =>
          if binOf p dp =? binOf p next then lastPerBin p rest
          else dp :: lastPerBin p rest
      end
  end.

Definition binLe (p : AllPlot) (a b : DataPoint.t) : Prop :=
  binOf p a <= binOf p b.

(** ** Where a zone label is placed *)

(** The power at which the label of zone [z] is centred: half-way to
    the next zone; for the top zone, half the width of the zone below
    above its low; twice the low when there is only one zone. *)
Definition labelWatts (lows : list Z) (z : Z) : Q :=
  let low z := inject_Z (nth (Z.to_nat z) lows 0) in
  if z + 1 <? Z.of_nat (length lows)
  then ((1 # 2) * (low z + low (z + 1)%Z))%Q
  else if 0 <? z
  then ((3 # 2) * low z - (1 # 2) * low (z - 1)%Z)%Q
  else (2 * low z)%Q.

(** ** Settings decided by the last call *)

(** The value left by the last call that sets one ([pick c] is the
    value set by the call [c], if it sets one), [d] if there is none. *)
Fixpoint lastSet {A} (pick : Call -> option A) (cs : list Call) (d : A) : A :=
  match cs with
  | [] => d
  | c :: cs' =>
      lastSet pick cs' (match pick c with Some a => a | None => d end)
  end.

Definition byDistanceOf (c : Call) : option bool :=
  match c with SetByDistance id => Some (id =? 1) | _ => None end.

Definition smoothOf (c : Call) : option Z :=
  match c with SetSmoothing value => Some value | _ => None end.

Definition itemOf (c : Call) : option (option RideItem.t) :=
  match c with SetData item => Some (Some item) | _ => None end.

Definition titleOf (c : Call) : option string :=
  match c with
  | SetData item =>
      Some (match RideItem.ride item with
            | Some ride => RideFile.startTime ride
            | None => "no data"%string
            end)
  | _ => None
  end.

Definition gridOf (c : Call) : option bool :=
  match c with ShowGrid state => Some (isChecked state) | _ => None end.

(** The visibility that a call gives to the curve of a channel. *)
Definition shownOf (ch : Channel) (c : Call) : option bool :=
  match ch, c with
  | Power, ShowPower id => Some (id <? 2)
  | HeartRate, ShowHr state => Some (isChecked state)
  | Speed, ShowSpeed state => Some (isChecked state)
  | Cadence, ShowCad state => Some (isChecked state)
  | Altitude, ShowAlt state => Some (isChecked state)
  | _, _ => None
  end.

(** The title that [setXTitle] gives to the bottom axis. *)
Definition xTitle (bydist : bool) (unit : string) : string :=
  if bydist
  then ("Distance " ++
        (if String.eqb unit "Metric" then "(km)" else "(miles)"))%string
  else "Time (minutes)"%string.

(** ** Rides with zones *)

(** The test that guards the zone code: a ride item whose zones are
    there, with a zone range that is not negative. *)
Definition hasZones (p : AllPlot) : bool :=
  match rideItem p with
  | Some item =>
      match RideItem.zones item with
      | Some (Some _) => 0 <=? RideItem.zoneRange item
      | _ => false
      end
  | None => false
  end.

(** ** Concrete rides used by the examples *)

Module Ex.
(** Qwt's [maxYValue]: the largest y of the data; the bottom of the
    invalid bounding rectangle, -1, for a curve without data. *)
Definition maxY (c : QwtPlotCurve.t) : Q :=
  match QwtPlotCurve.yData c with
  | [] => (-1)%Q
  | y :: ys => fold_left max ys y
  end.

Definition allPresent : RideFileDataPresent.t :=
  RideFileDataPresent.mk true true true true true.

Definition onlyWatts : RideFileDataPresent.t :=
  RideFileDataPresent.mk true false false false false.

(** A point with the given time, power, altitude, distance and
    interval; 20 kph, 90 rpm, 120 bpm. *)
Definition pt (secs watts alt km : Q) (interval : Z) : RideFilePoint.t :=
  RideFilePoint.mk secs 90 120 km 20 watts alt interval.

(** Four seconds below sea level, with one negative power reading. *)
Definition lowRide : RideFile.t :=
  RideFile.mk "2009/06/01 10:00:00" allPresent
    [pt 0 100 (-5) 0 0; pt 1 (-3) (-5) (1 # 100) 0;
     pt 2 300 (-4) (2 # 100) 1; pt 3 200 (-4) (3 # 100) 1].

Definition lowItem : RideItem.t := RideItem.mk (Some lowRide) None (-1).

(** A ride whose power channel is flagged present but has no points. *)
Definition hollowRide : RideFile.t :=
  RideFile.mk "2009/06/01 10:00:00" onlyWatts [].

Definition hollowItem : RideItem.t :=
  RideItem.mk (Some hollowRide) None (-1).

Definition noRideItem : RideItem.t := RideItem.mk None None (-1).

(** A ride longer than a week: two samples, the last after 604801 s. *)
Definition longRide : RideFile.t :=
  RideFile.mk "2009/06/01 10:00:00" onlyWatts
    [pt 0 100 0 0 0; pt 604801 100 0 1 0].

Definition longItem : RideItem.t := RideItem.mk (Some longRide) None (-1).

(** The state a run ends in ([start] if it faults). *)
Definition after (start : AllPlot) (cs : list Call) : AllPlot :=
  match run maxY start cs with
  | Ok p => p
  | Err _ => start
  end.
End Ex.

Module Ex2.
(** [Ex.lowRide] loaded into a metric plot, with a 2 s window. *)
Definition low2 : AllPlot :=
  load (set_smooth 2 (newAllPlot "Metric")) Ex.lowRide.

(** A ride whose first sample comes after second 0. *)
Definition lateRide : RideFile.t :=
  RideFile.mk "2009/06/01 10:00:00" Ex.allPresent
    [Ex.pt (1 # 2) 100 10 0 0; Ex.pt (3 # 2) 200 10 (1 # 100) 0].

(** ... loaded with no smoothing at all ([smooth = 0]). *)
Definition late0 : AllPlot :=
  load (set_smooth 0 (newAllPlot "Metric")) lateRide.
End Ex2.

Module Ex3.
(** Laps 1 and 2 both start within the first two seconds. *)
Definition lapRide : RideFile.t :=
  RideFile.mk "2009/06/01 10:00:00" Ex.allPresent
    [Ex.pt 0 100 10 0 0; Ex.pt 1 150 10 (1 # 100) 1;
     Ex.pt 2 200 11 (2 # 100) 2; Ex.pt 3 250 11 (3 # 100) 2;
     Ex.pt 4 250 12 (4 # 100) 3].

Definition lap2 : AllPlot :=
  load (set_smooth 2 (newAllPlot "Metric")) lapRide.

(** A ride that stays in interval 1 from its first sample on. *)
Definition steadyRide : RideFile.t :=
  RideFile.mk "2009/06/01 10:00:00" Ex.allPresent
    [Ex.pt 0 100 10 0 1; Ex.pt 1 150 10 (1 # 100) 1].

Definition steady1 : AllPlot :=
  load (set_smooth 1 (newAllPlot "Metric")) steadyRide.

(** The lap ride with a 1 s window: every lap starts in a bin of its
    own. *)
Definition lap1 : AllPlot :=
  load (set_smooth 1 (newAllPlot "Metric")) lapRide.
End Ex3.

Module Ex4.
(** Three zones starting at 0, 150 and 300 W. *)
Definition zones3 : Zones.t :=
  Zones.mk (fun _ => [0; 150; 300])
           (fun _ => ["Z1"; "Z2"; "Z3"]%string) (fun _ => 3).

Definition zonedItem : RideItem.t :=
  RideItem.mk (Some Ex.lowRide) (Some (Some zones3)) 0.

(** The ride loaded with shading switched on. *)
Definition shaded : AllPlot :=
  Ex.after (newAllPlot "Metric") [SetData zonedItem; ShowPower 0].

Definition color (z n : Z) : QColor := mkQColor (z * 60) 255 255.

(** A canvas of 100 rows showing 0 W (row 100) to 100 W (row 0). *)
Definition canvas : QRect := mkQRect 0 0 200 100.
Definition rows (w : Q) : Z := 100 - Qfloor w.

(** A canvas of 400 rows showing 0 W to 400 W. *)
Definition tallCanvas : QRect := mkQRect 0 0 200 400.
Definition tallRows (w : Q) : Z := 400 - Qfloor w.
End Ex4.

Module Ex5.
(** A ride whose two samples carry the timestamps -5 s and -3 s. *)
Definition earlyRide : RideFile.t :=
  RideFile.mk "2009/06/01 10:00:00" Ex.onlyWatts
    [Ex.pt (-5) 100 0 0 0; Ex.pt (-3) 100 0 0 0].

Definition early : AllPlot := load (newAllPlot "Metric") earlyRide.

(** [Ex.lowRide], 3 s long, under the default window of 30 s. *)
Definition short30 : AllPlot := load (newAllPlot "Metric") Ex.lowRide.

(** A recording that pauses between seconds 1 and 10, climbing from
    10 m to 22 m. *)
Definition gapRide : RideFile.t :=
  RideFile.mk "2009/06/01 10:00:00" Ex.allPresent
    [Ex.pt 0 100 10 0 0; Ex.pt 1 100 12 (1 # 100) 0;
     Ex.pt 10 100 20 (5 # 100) 0; Ex.pt 11 100 22 (6 # 100) 0].

Definition gap2 : AllPlot :=
  load (set_smooth 2 (newAllPlot "Metric")) gapRide.

Definition lapItem : RideItem.t := RideItem.mk (Some Ex3.lapRide) None (-1).

(** The lap ride loaded, then replaced by the shorter [Ex.lowRide]. *)
Definition lapLoaded : AllPlot :=
  Ex.after (newAllPlot "Metric") [SetData lapItem].

(** The label that [refreshZoneLabels] makes for the middle zone of
    [Ex4.zones3]. *)
Definition midLabel : AllPlotZoneLabel.t := newZoneLabel Ex4.shaded 1.
End Ex5.


(** * Verification *)

(** ** Lists written by index *)

Lemma length_upd {A} (n : nat) (x : A) (l : list A) :
  length (upd n x l) = length l.
Proof.
  revert n; induction l as [|h t IH]; intros [|n]; simpl; auto.
Qed.

Lemma nth_upd_eq {A} (n : nat) (x d : A) (l : list A) :
  (n < length l)%nat -> nth n (upd n x l) d = x.
Proof.
  revert n; induction l as [|h t IH]; intros [|n] H; simpl in *;
    try lia; auto.
  apply IH; lia.
Qed.

Lemma nth_upd_neq {A} (n m : nat) (x d : A) (l : list A) :
  n <> m -> nth m (upd n x l) d = nth m l d.
Proof.
  revert n m; induction l as [|h t IH]; intros [|n] [|m] H; simpl;
    auto; try congruence.
Qed.

Lemma upd_app_here {A} (x y : A) (pre suf : list A) :
  upd (length pre) x (pre ++ y :: suf) = pre ++ x :: suf.
Proof.
  induction pre as [|h t IH]; simpl; [reflexivity | now rewrite IH].
Qed.

Lemma upd_guard {A} (n : nat) (x : A) (l : list A) :
  (if negb (empty l) then upd n x l else l) = upd n x l.
Proof. destruct l; destruct n; reflexivity. Qed.

Lemma length_resize (n : nat) (l : list Q) : length (resize n l) = n.
Proof.
  unfold resize. rewrite length_app, length_firstn, repeat_length. lia.
Qed.

Lemma length_resizeZ (n : nat) (l : list Z) : length (resizeZ n l) = n.
Proof.
  unfold resizeZ. rewrite length_app, length_firstn, repeat_length. lia.
Qed.

Lemma resize_0 (l : list Q) : resize 0 l = [].
Proof. reflexivity. Qed.

Lemma empty_length {A} (l : list A) : empty l = (length l =? 0)%nat.
Proof. destruct l; reflexivity. Qed.

Lemma updFrom_nil {A P} (f : P -> A) (pts : list P) (k : nat) :
  updFrom f k pts [] = [].
Proof.
  revert k; induction pts as [|pt rest IH]; intros k; simpl; auto.
  destruct k; apply IH.
Qed.

Lemma updFrom_full {A P} (f : P -> A) (pts : list P) :
  forall (pre suf : list A),
    length suf = length pts ->
    updFrom f (length pre) pts (pre ++ suf) = pre ++ map f pts.
Proof.
  induction pts as [|pt rest IH]; intros pre suf H; simpl.
  - destruct suf; [reflexivity | discriminate].
  - destruct suf as [|y suf]; [discriminate|].
    rewrite upd_app_here.
    replace (pre ++ f pt :: suf) with ((pre ++ [f pt]) ++ suf)
      by (rewrite <- app_assoc; reflexivity).
    replace (S (length pre)) with (length (pre ++ [f pt]))
      by (rewrite length_app; simpl; lia).
    rewrite IH by (simpl in H; lia).
    rewrite <- app_assoc; reflexivity.
Qed.

Lemma updFrom_all {A P} (f : P -> A) (pts : list P) (arr : list A) :
  length arr = length pts -> updFrom f 0 pts arr = map f pts.
Proof. intros H. apply (updFrom_full f pts [] arr H). Qed.
Lemma a_fill_length (m : bool) (pts : list RideFilePoint.t) :
  forall a, a_length (fold_left (fill1 m) pts a)
            = (a_length a + length pts)%nat.
Proof.
  induction pts as [|pt rest IH]; intros a; simpl; [lia|].
  rewrite IH; simpl; lia.
Qed.

Ltac fill_field :=
  let IH := fresh "IH" in
  intros pts; induction pts as [|? ? IH]; intros ?; simpl;
  [reflexivity | rewrite IH; simpl; rewrite ?upd_guard; reflexivity].

Lemma a_fill_time (m : bool) : forall pts a,
  a_time (fold_left (fill1 m) pts a)
  = updFrom RideFilePoint.secs (a_length a) pts (a_time a).
Proof. fill_field. Qed.

Lemma a_fill_inter (m : bool) : forall pts a,
  a_inter (fold_left (fill1 m) pts a)
  = updFrom RideFilePoint.interval (a_length a) pts (a_inter a).
Proof. fill_field. Qed.

Lemma a_fill_distance (m : bool) : forall pts a,
  a_distance (fold_left (fill1 m) pts a)
  = updFrom (fun pt => stored m MILES_PER_KM (RideFilePoint.km pt))
      (a_length a) pts (a_distance a).
Proof. fill_field. Qed.

Lemma a_fill_watts (m : bool) : forall pts a,
  a_watts (fold_left (fill1 m) pts a)
  = updFrom (fun pt => max 0 (RideFilePoint.watts pt))
      (a_length a) pts (a_watts a).
Proof. fill_field. Qed.

Lemma a_fill_hr (m : bool) : forall pts a,
  a_hr (fold_left (fill1 m) pts a)
  = updFrom (fun pt => max 0 (RideFilePoint.hr pt))
      (a_length a) pts (a_hr a).
Proof. fill_field. Qed.

Lemma a_fill_cad (m : bool) : forall pts a,
  a_cad (fold_left (fill1 m) pts a)
  = updFrom (fun pt => max 0 (RideFilePoint.cad pt))
      (a_length a) pts (a_cad a).
Proof. fill_field. Qed.

Lemma a_fill_speed (m : bool) : forall pts a,
  a_speed (fold_left (fill1 m) pts a)
  = updFrom (fun pt => stored m MILES_PER_KM (RideFilePoint.kph pt))
      (a_length a) pts (a_speed a).
Proof. fill_field. Qed.

Lemma a_fill_alt (m : bool) : forall pts a,
  a_alt (fold_left (fill1 m) pts a)
  = updFrom (fun pt => stored m FEET_PER_M (RideFilePoint.alt pt))
      (a_length a) pts (a_alt a).
Proof. fill_field. Qed.

(** A channel array after the loop: the stored values of all points when
    the channel is present, empty otherwise. *)
Lemma updFrom_channel {P} (f : P -> Q) (present : bool) (pts : list P)
    (old : list Q) :
  updFrom f 0 pts (resize (if present then length pts else 0) old)
  = if present then map f pts else [].
Proof.
  destruct present.
  - apply updFrom_all, length_resize.
  - rewrite resize_0. apply updFrom_nil.
Qed.

Section Load.
Variables (p : AllPlot) (ride : RideFile.t).

Lemma load_arrayLength :
  arrayLength (load p ride) = length (RideFile.dataPoints ride).
Proof. unfold load; simpl. now rewrite a_fill_length. Qed.

Lemma load_timeArray :
  timeArray (load p ride)
  = map RideFilePoint.secs (RideFile.dataPoints ride).
Proof.
  unfold load; simpl. rewrite a_fill_time; simpl.
  apply updFrom_all, length_resize.
Qed.

Lemma load_interArray :
  interArray (load p ride)
  = map RideFilePoint.interval (RideFile.dataPoints ride).
Proof.
  unfold load; simpl. rewrite a_fill_inter; simpl.
  apply updFrom_all, length_resizeZ.
Qed.

Lemma load_distanceArray :
  distanceArray (load p ride)
  = map (fun pt =>
           stored (useMetricUnits p) MILES_PER_KM (RideFilePoint.km pt))
      (RideFile.dataPoints ride).
Proof.
  unfold load; simpl. rewrite a_fill_distance; simpl.
  apply updFrom_all, length_resize.
Qed.

Lemma load_wattsArray :
  wattsArray (load p ride)
  = if RideFileDataPresent.watts (RideFile.areDataPresent ride)
    then map (fun pt => max 0 (RideFilePoint.watts pt))
           (RideFile.dataPoints ride)
    else [].
Proof.
  unfold load; simpl. rewrite a_fill_watts; simpl. apply updFrom_channel.
Qed.

Lemma load_hrArray :
  hrArray (load p ride)
  = if RideFileDataPresent.hr (RideFile.areDataPresent ride)
    then map (fun pt => max 0 (RideFilePoint.hr pt))
           (RideFile.dataPoints ride)
    else [].
Proof.
  unfold load; simpl. rewrite a_fill_hr; simpl. apply updFrom_channel.
Qed.

Lemma load_cadArray :
  cadArray (load p ride)
  = if RideFileDataPresent.cad (RideFile.areDataPresent ride)
    then map (fun pt => max 0 (RideFilePoint.cad pt))
           (RideFile.dataPoints ride)
    else [].
Proof.
  unfold load; simpl. rewrite a_fill_cad; simpl. apply updFrom_channel.
Qed.

Lemma load_speedArray :
  speedArray (load p ride)
  = if RideFileDataPresent.kph (RideFile.areDataPresent ride)
    then map (fun pt =>
                stored (useMetricUnits p) MILES_PER_KM
                  (RideFilePoint.kph pt))
           (RideFile.dataPoints ride)
    else [].
Proof.
  unfold load; simpl. rewrite a_fill_speed; simpl. apply updFrom_channel.
Qed.

Lemma load_altArray :
  altArray (load p ride)
  = if RideFileDataPresent.alt (RideFile.areDataPresent ride)
    then map (fun pt =>
                stored (useMetricUnits p) FEET_PER_M (RideFilePoint.alt pt))
           (RideFile.dataPoints ride)
    else [].
Proof.
  unfold load; simpl. rewrite a_fill_alt; simpl. apply updFrom_channel.
Qed.

Lemma load_config :
  config (load p ride) = config p.
Proof. reflexivity. Qed.

End Load.

(** ** The samples of a loaded ride *)

Lemma map_seq_nth {A B} (g : A -> B) (d : A) (l : list A) :
  map (fun i => g (nth i l d)) (seq 0 (length l)) = map g l.
Proof.
  induction l as [|a l IH]; simpl; [reflexivity|].
  f_equal. rewrite <- seq_shift, map_map. exact IH.
Qed.

Lemma nth_channel {P} (f : P -> Q) (b : bool) (pts : list P) (d : P)
    (i : nat) :
  (i < length pts)%nat ->
  (if negb (empty (if b then map f pts else []))
   then nth i (if b then map f pts else []) 0%Q else 0%Q)
  = if b then f (nth i pts d) else 0%Q.
Proof.
  intros H. destruct b; [|reflexivity].
  destruct pts as [|a pts]; [simpl in H; lia|].
  cbn [map empty negb].
  change (f a :: map f pts) with (map f (a :: pts)).
  rewrite (nth_indep _ 0%Q (f d)) by (rewrite length_map; exact H).
  apply map_nth.
Qed.

Section Loaded.
Variables (p : AllPlot) (ride : RideFile.t).

Lemma load_WF : WF (load p ride).
Proof.
assert (K : forall {P} (f : P -> Q) (b : bool) (pts : list P),
           sizedOrEmpty (length pts) (if b then map f pts else [])).
{ intros P f b pts. destruct b; [right; apply length_map | now left]. }
constructor; rewrite load_arrayLength.
- now rewrite load_timeArray, length_map.
- now rewrite load_distanceArray, length_map.
- now rewrite load_interArray, length_map.
- rewrite load_wattsArray. apply K.
- rewrite load_hrArray. apply K.
- rewrite load_speedArray. apply K.
- rewrite load_cadArray. apply K.
- rewrite load_altArray. apply K.
Qed.

(** [recalc] sees the points of the ride, clamped and converted, in
  their order. *)
Lemma points_load :
points (load p ride)
= map (toDataPoint (useMetricUnits p) (RideFile.areDataPresent ride))
    (RideFile.dataPoints ride).
Proof.
set (d := RideFilePoint.mk 0 0 0 0 0 0 0 0).
unfold points. rewrite load_arrayLength.
rewrite <- (map_seq_nth _ d).
apply map_ext_in. intros i Hi. apply in_seq in Hi.
assert (Hlt : (i < length (RideFile.dataPoints ride))%nat) by lia.
unfold dataPoint, toDataPoint.
rewrite load_timeArray, load_interArray, load_hrArray, load_wattsArray,
  load_speedArray, load_cadArray, load_altArray.
rewrite !(nth_channel _ _ _ d i Hlt).
f_equal.
- rewrite (nth_indep _ 0%Q (RideFilePoint.secs d))
    by (rewrite length_map; exact Hlt).
  apply map_nth.
- rewrite (nth_indep _ 0 (RideFilePoint.interval d))
    by (rewrite length_map; exact Hlt).
  apply map_nth.
Qed.

End Loaded.

(** ** What the operations leave unchanged *)

Section Frames.
Variable maxYValue : QwtPlotCurve.t -> Q.

Lemma setYMax_only_plot (p : AllPlot) :
  setYMax maxYValue p = set_plot (plot (setYMax maxYValue p)) p.
Proof.
  unfold setYMax.
  destruct (QwtPlotCurve.isVisible (wattsCurve p)),
           (QwtPlotCurve.isVisible (hrCurve p)),
           (QwtPlotCurve.isVisible (cadCurve p)),
           (QwtPlotCurve.isVisible (altCurve p)); reflexivity.
Qed.

Lemma refreshZoneLabels_only_labels (p : AllPlot) :
  refreshZoneLabels p = set_zoneLabels (zoneLabels (refreshZoneLabels p)) p.
Proof.
  unfold refreshZoneLabels; simpl.
  destruct (rideItem p) as [item|]; [|reflexivity].
  destruct (RideItem.zones item) as [[z|]|]; try reflexivity.
  destruct (0 <=? RideItem.zoneRange item); reflexivity.
Qed.

Lemma clearIfPresent_flags a c :
  curveFlags (clearIfPresent a c) = curveFlags c.
Proof. unfold clearIfPresent; destruct (negb (empty a)); reflexivity. Qed.

Lemma plotIfPresent_flags a x y c :
  curveFlags (plotIfPresent a x y c) = curveFlags c.
Proof. unfold plotIfPresent; destruct (negb (empty a)); reflexivity. Qed.

Lemma recalc_frame (p p' : AllPlot) :
  recalc maxYValue p = Ok p' ->
  arrays p' = arrays p /\ config p' = config p /\ flags p' = flags p.
Proof.
  unfold recalc.
  destruct (empty (timeArray p)).
  { intros H; inversion H; auto. }
  destruct (rideTimeSecs p >? limit).
  { intros H; inversion H; subst; clear H.
    unfold flags; simpl. rewrite !clearIfPresent_flags. auto. }
  destruct (smoothing p) as [s|f]; simpl; [|discriminate].
  match goal with
  | |- context [bind ?m _] => destruct m as [xmax|f]; simpl; [|discriminate]
  end.
  rewrite setYMax_only_plot, refreshZoneLabels_only_labels.
  match goal with
  | |- context [bind ?m _] => destruct m as [mrk|f]; simpl; [|discriminate]
  end.
  intros H; inversion H; subst; clear H.
  unfold flags; simpl. rewrite !plotIfPresent_flags. auto.
Qed.

Lemma setData_frame (p p' : AllPlot) (item : RideItem.t) (ride : RideFile.t) :
  RideItem.ride item = Some ride ->
  setData maxYValue p item = Ok p' ->
  let q := load (set_wattsArray [] (set_rideItem (Some item) p)) ride in
  arrays p' = arrays q /\ config p' = config q /\ flags p' = flags q.
Proof.
  unfold setData. intros -> H. now apply recalc_frame.
Qed.

End Frames.

(** ** The clamp *)

Lemma max_0_nonneg (x : Q) : (0 <= max 0 x)%Q.
Proof.
  unfold max, Qlt_bool.
  destruct (Qle_bool 0 x) eqn:E; simpl.
  - now apply Qle_bool_imp_le.
  - apply Qle_refl.
Qed.

Lemma max_0_of_nonneg (x : Q) : (0 <= x)%Q -> max 0 x = x.
Proof.
  intros H. unfold max, Qlt_bool.
  apply Qle_bool_iff in H. now rewrite H.
Qed.

Lemma stored_nonneg (m : bool) (factor v : Q) : (0 <= stored m factor v)%Q.
Proof. apply max_0_nonneg. Qed.

Lemma allNonNeg_map {P} (f : P -> Q) (pts : list P) :
  (forall pt, 0 <= f pt)%Q -> allNonNeg (map f pts).
Proof.
  intros H. unfold allNonNeg. apply Forall_forall. intros x Hx.
  apply in_map_iff in Hx as [pt [<- _]]. apply H.
Qed.

Lemma allNonNeg_channel {P} (f : P -> Q) (b : bool) (pts : list P) :
  (forall pt, 0 <= f pt)%Q -> allNonNeg (if b then map f pts else []).
Proof.
  intros H. destruct b; [now apply allNonNeg_map | constructor].
Qed.

Lemma NonNeg_load (p : AllPlot) (ride : RideFile.t) : NonNeg (load p ride).
Proof.
  constructor.
  - rewrite load_wattsArray. apply allNonNeg_channel. intros; apply max_0_nonneg.
  - rewrite load_hrArray. apply allNonNeg_channel. intros; apply max_0_nonneg.
  - rewrite load_speedArray. apply allNonNeg_channel.
    intros; apply stored_nonneg.
  - rewrite load_cadArray. apply allNonNeg_channel. intros; apply max_0_nonneg.
  - rewrite load_altArray. apply allNonNeg_channel.
    intros; apply stored_nonneg.
  - rewrite load_distanceArray. apply allNonNeg_map.
    intros; apply stored_nonneg.
Qed.

Lemma NonNeg_arrays (p p' : AllPlot) :
  arrays p' = arrays p -> NonNeg p -> NonNeg p'.
Proof.
  unfold arrays. intros E [A B C D F G]. inversion E.
  constructor; congruence.
Qed.

Lemma NonNeg_new (u : string) : NonNeg (newAllPlot u).
Proof. constructor; constructor. Qed.

Section Invariants.
Variable maxYValue : QwtPlotCurve.t -> Q.

Lemma setYMax_arrays p : arrays (setYMax maxYValue p) = arrays p.
Proof. rewrite setYMax_only_plot. reflexivity. Qed.

Lemma setYMax_config p : config (setYMax maxYValue p) = config p.
Proof. rewrite setYMax_only_plot. reflexivity. Qed.

(** Every slot but [setData] leaves the sample arrays alone. *)
Lemma exec_arrays (p p' : AllPlot) (c : Call) :
  isSetData c = false -> exec maxYValue p c = Ok p' ->
  arrays p' = arrays p.
Proof.
  destruct c; simpl; try discriminate; intros _ H.
  - unfold showPower in H. apply recalc_frame in H as [-> _].
    rewrite setYMax_arrays. reflexivity.
  - inversion H. unfold showHr. now rewrite setYMax_arrays.
  - inversion H. unfold showSpeed. now rewrite setYMax_arrays.
  - inversion H. unfold showCad. now rewrite setYMax_arrays.
  - inversion H. unfold showAlt. now rewrite setYMax_arrays.
  - inversion H. reflexivity.
  - unfold setSmoothing in H. apply recalc_frame in H as [-> _].
    reflexivity.
  - unfold setByDistance in H. apply recalc_frame in H as [-> _].
    unfold setXTitle; simpl. destruct (id =? 1); reflexivity.
Qed.

Lemma run_arrays (cs : list Call) : forall p p',
  forallb (fun c => negb (isSetData c)) cs = true ->
  run maxYValue p cs = Ok p' -> arrays p' = arrays p.
Proof.
  induction cs as [|c cs IH]; simpl; intros p p' Hcs H.
  - inversion H; reflexivity.
  - apply andb_prop in Hcs as [Hc Hcs].
    destruct (exec maxYValue p c) as [q|f] eqn:E; simpl in H;
      [|discriminate].
    rewrite (IH q p' Hcs H).
    apply (exec_arrays p q c); auto. now destruct (isSetData c).
Qed.

Lemma setData_NonNeg (p p' : AllPlot) (item : RideItem.t) :
  setData maxYValue p item = Ok p' ->
  RideItem.ride item <> None \/ NonNeg p -> NonNeg p'.
Proof.
  unfold setData. destruct (RideItem.ride item) as [ride|].
  - intros H _. apply recalc_frame in H as [E _].
    eapply NonNeg_arrays; [exact E | apply NonNeg_load].
  - intros H [C | [A B C D F G]]; [congruence|].
    inversion H; subst; clear H.
    constructor; simpl; auto. constructor.
Qed.

Lemma exec_NonNeg (p p' : AllPlot) (c : Call) :
  exec maxYValue p c = Ok p' -> NonNeg p -> NonNeg p'.
Proof.
  destruct c; intros H N;
    try (eapply NonNeg_arrays; [|exact N];
         eapply exec_arrays; [|exact H]; reflexivity).
  simpl in H. eapply setData_NonNeg; eauto.
Qed.

Lemma run_NonNeg (cs : list Call) : forall p p',
  run maxYValue p cs = Ok p' -> NonNeg p -> NonNeg p'.
Proof.
  induction cs as [|c cs IH]; simpl; intros p p' H N.
  - inversion H; subst; exact N.
  - destruct (exec maxYValue p c) as [q|f] eqn:E; simpl in H;
      [|discriminate].
    eapply IH; eauto using exec_NonNeg.
Qed.

Lemma run_app (cs1 cs2 : list Call) : forall p,
  run maxYValue p (cs1 ++ cs2)
  = (q <- run maxYValue p cs1 ;; run maxYValue q cs2).
Proof.
  induction cs1 as [|c cs1 IH]; simpl; intros p; [reflexivity|].
  destruct (exec maxYValue p c); simpl; auto.
Qed.


End Invariants.


(** ** Loading a ride: units and curves *)

Lemma empty_resize (k : nat) (l : list Q) :
  empty (resize k l) = (k =? 0)%nat.
Proof. rewrite empty_length, length_resize. reflexivity. Qed.

Lemma present_sized (b : bool) (n : nat) :
  negb ((if b then n else 0%nat) =? 0)%nat = b && negb (n =? 0)%nat.
Proof. destruct b, n; reflexivity. Qed.

Lemma arrays_inv (p q : AllPlot) :
  arrays p = arrays q ->
  wattsArray p = wattsArray q /\ hrArray p = hrArray q /\
  speedArray p = speedArray q /\ cadArray p = cadArray q /\
  altArray p = altArray q /\ timeArray p = timeArray q /\
  distanceArray p = distanceArray q /\ interArray p = interArray q /\
  arrayLength p = arrayLength q.
Proof. unfold arrays. intros E. injection E. intuition. Qed.

Lemma flags_inv (p q : AllPlot) :
  flags p = flags q ->
  curveFlags (wattsCurve p) = curveFlags (wattsCurve q) /\
  curveFlags (hrCurve p) = curveFlags (hrCurve q) /\
  curveFlags (speedCurve p) = curveFlags (speedCurve q) /\
  curveFlags (cadCurve p) = curveFlags (cadCurve q) /\
  curveFlags (altCurve p) = curveFlags (altCurve q).
Proof.
  intros E. repeat split.
  - exact (f_equal (fun t => fst (fst (fst (fst t)))) E).
  - exact (f_equal (fun t => snd (fst (fst (fst t)))) E).
  - exact (f_equal (fun t => snd (fst (fst t))) E).
  - exact (f_equal (fun t => snd (fst t)) E).
  - exact (f_equal snd E).
Qed.

Lemma curveFlags_inv (c d : QwtPlotCurve.t) :
  curveFlags c = curveFlags d ->
  QwtPlotCurve.attached c = QwtPlotCurve.attached d /\
  QwtPlotCurve.visible c = QwtPlotCurve.visible d.
Proof. unfold curveFlags. intros E. injection E. intuition. Qed.

Section Loading.
Variable maxYValue : QwtPlotCurve.t -> Q.

Lemma load_attached (p : AllPlot) (ride : RideFile.t) :
  let present := RideFile.areDataPresent ride in
  let some := negb (empty (RideFile.dataPoints ride)) in
  QwtPlotCurve.attached (wattsCurve (load p ride))
    = RideFileDataPresent.watts present && some /\
  QwtPlotCurve.attached (hrCurve (load p ride))
    = RideFileDataPresent.hr present && some /\
  QwtPlotCurve.attached (speedCurve (load p ride))
    = RideFileDataPresent.kph present && some /\
  QwtPlotCurve.attached (cadCurve (load p ride))
    = RideFileDataPresent.cad present && some /\
  QwtPlotCurve.attached (altCurve (load p ride))
    = RideFileDataPresent.alt present && some.
Proof.
  assert (K : forall a c,
             QwtPlotCurve.attached (attachIfPresent a (QwtPlotCurve.detach c))
             = negb (empty a)).
  { intros a c. unfold attachIfPresent. destruct (negb (empty a)); reflexivity. }
  unfold load.
  cbn [wattsCurve hrCurve speedCurve cadCurve altCurve set_arrays
       attachCurves detachCurves set_altCurve set_cadCurve set_speedCurve
       set_hrCurve set_wattsCurve wattsArray hrArray speedArray cadArray
       altArray a_watts a_hr a_speed a_cad a_alt set_plot].
  rewrite !K, !empty_resize, !present_sized,
    (empty_length (RideFile.dataPoints _)).
  repeat split.
Qed.

Lemma exec_units (p p' : AllPlot) (c : Call) :
  exec maxYValue p c = Ok p' ->
  unit p' = unit p /\ useMetricUnits p' = useMetricUnits p.
Proof.
  assert (K : forall q q', config q' = config q ->
              unit q' = unit q /\ useMetricUnits q' = useMetricUnits q).
  { unfold config. intros q q' E. inversion E. auto. }
  destruct c; simpl; intros H.
  - unfold setData in H. destruct (RideItem.ride item) as [ride|].
    + apply recalc_frame in H as (_ & E & _). apply K in E. exact E.
    + inversion H. auto.
  - unfold showPower in H. apply recalc_frame in H as (_ & E & _).
    apply K in E. rewrite setYMax_only_plot in E. exact E.
  - inversion H. unfold showHr. rewrite setYMax_only_plot. auto.
  - inversion H. unfold showSpeed. rewrite setYMax_only_plot. auto.
  - inversion H. unfold showCad. rewrite setYMax_only_plot. auto.
  - inversion H. unfold showAlt. rewrite setYMax_only_plot. auto.
  - inversion H. auto.
  - unfold setSmoothing in H. apply recalc_frame in H as (_ & E & _).
    apply K in E. exact E.
  - unfold setByDistance in H. apply recalc_frame in H as (_ & E & _).
    apply K in E. unfold setXTitle in E; simpl in E.
    destruct (id =? 1); exact E.
Qed.

Lemma run_units (cs : list Call) : forall p p',
  run maxYValue p cs = Ok p' ->
  unit p' = unit p /\ useMetricUnits p' = useMetricUnits p.
Proof.
  induction cs as [|c cs IH]; simpl; intros p p' H.
  - inversion H; auto.
  - destruct (exec maxYValue p c) as [q|f] eqn:E; simpl in H;
      [|discriminate].
    apply exec_units in E as [E1 E2]. apply IH in H as [H1 H2].
    split; congruence.
Qed.

Lemma setYMax_right_title (p : AllPlot) :
  QwtPlot.axisTitle (plot (setYMax maxYValue p)) yRight
  = (if useMetricUnits p then "KPH" else "MPH")%string.
Proof.
  unfold setYMax.
  destruct (QwtPlotCurve.isVisible (wattsCurve p)),
           (QwtPlotCurve.isVisible (hrCurve p)),
           (QwtPlotCurve.isVisible (cadCurve p)),
           (QwtPlotCurve.isVisible (altCurve p)); reflexivity.
Qed.

Lemma setYMax_altitude_title (p : AllPlot) :
  QwtPlotCurve.isVisible (altCurve p) = true ->
  exists before,
    QwtPlot.axisTitle (plot (setYMax maxYValue p)) yLeft
    = addLabel before (if useMetricUnits p then "Meters" else "Ft").
Proof.
  intros V. unfold setYMax. rewrite V.
  destruct (QwtPlotCurve.isVisible (wattsCurve p)),
           (QwtPlotCurve.isVisible (hrCurve p)),
           (QwtPlotCurve.isVisible (cadCurve p)),
           (useMetricUnits p); simpl; eexists; reflexivity.
Qed.

(** Claim C4, amended.  After a run from the constructor with unit
    setting [u] in which [setData] loads [ride] (and no later call
    loads another), every stored speed, altitude and distance value is
    [max(0, v)] of the raw value when [u] is "Metric" and
    [max(0, v * factor)] otherwise, with factor 0.62137119 for speed
    and distance and 3.2808399 for altitude; speed and altitude only
    when their channel is present.  The later calls leave the stored
    values as loaded, so the conversion is applied once.  The right
    axis is titled KPH or MPH, the altitude part of the left title is
    Meters or Ft, and the distance title carries (km) or (miles). *)
Theorem setData_units (u : string) (cs cs' : list Call)
    (item : RideItem.t) (ride : RideFile.t) (p : AllPlot) :
  RideItem.ride item = Some ride ->
  forallb (fun c => negb (isSetData c)) cs' = true ->
  run maxYValue (newAllPlot u) (cs ++ SetData item :: cs') = Ok p ->
  let metric := String.eqb u "Metric" in
  let present := RideFile.areDataPresent ride in
  let pts := RideFile.dataPoints ride in
  (forall factor v,
      stored true factor v = max 0 v /\
      stored false factor v = max 0 (v * factor)%Q) /\
  (MILES_PER_KM == 0.62137119 /\ FEET_PER_M == 3.2808399)%Q /\
  speedArray p
    = (if RideFileDataPresent.kph present
       then map (fun pt => stored metric MILES_PER_KM (RideFilePoint.kph pt))
              pts
       else []) /\
  altArray p
    = (if RideFileDataPresent.alt present
       then map (fun pt => stored metric FEET_PER_M (RideFilePoint.alt pt))
              pts
       else []) /\
  distanceArray p
    = map (fun pt => stored metric MILES_PER_KM (RideFilePoint.km pt)) pts /\
  QwtPlot.axisTitle (plot (setYMax maxYValue p)) yRight
    = (if metric then "KPH" else "MPH")%string /\
  (QwtPlotCurve.isVisible (altCurve p) = true ->
   exists before,
     QwtPlot.axisTitle (plot (setYMax maxYValue p)) yLeft
     = addLabel before (if metric then "Meters" else "Ft")) /\
  QwtPlot.axisTitle (plot (setXTitle (set_bydist true p))) xBottom
    = ("Distance " ++ (if metric then "(km)" else "(miles)"))%string.
Proof.
  intros Hride Hcs' Hrun metric present pts.
  rewrite run_app in Hrun.
  destruct (run maxYValue (newAllPlot u) cs) as [q1|f] eqn:R1;
    simpl in Hrun; [|discriminate].
  destruct (setData maxYValue q1 item) as [q2|f] eqn:R2;
    simpl in Hrun; [|discriminate].
  pose proof (run_units _ _ _ R1) as [U1 M1].
  pose proof (exec_units q1 q2 (SetData item) R2) as [U2 M2].
  pose proof (run_units _ _ _ Hrun) as [U3 M3].
  pose proof (run_arrays maxYValue _ _ _ Hcs' Hrun) as A3.
  pose proof (setData_frame maxYValue _ _ _ _ Hride R2) as (A2 & _ & _).
  simpl in A2.
  assert (Hm : useMetricUnits p = metric).
  { rewrite M3, M2, M1. reflexivity. }
  assert (Hu : unit p = u).
  { rewrite U3, U2, U1. reflexivity. }
  rewrite A2 in A3.
  apply arrays_inv in A3 as (_ & _ & As & _ & Aa & _ & Ad & _).
  split; [intros; split; reflexivity|].
  split; [split; reflexivity|].
  split.
  { rewrite As, load_speedArray. simpl. now rewrite M1. }
  split.
  { rewrite Aa, load_altArray. simpl. now rewrite M1. }
  split.
  { rewrite Ad, load_distanceArray. simpl. now rewrite M1. }
  split; [rewrite setYMax_right_title, Hm; reflexivity|].
  split.
  { intros V. destruct (setYMax_altitude_title p V) as [b Hb].
    exists b. now rewrite Hb, Hm. }
  unfold setXTitle; simpl. now rewrite Hu.
Qed.

(** Claim C7, amended.  The plot has five curves.  When [setData] is
    given a ride, a curve is attached exactly when its channel is
    flagged present and the ride has at least one data point, and is
    detached otherwise; when the ride item has no ride, all five
    curves are detached and the title becomes "no data". *)
Theorem setData_attaches (p p' : AllPlot) (item : RideItem.t) :
  setData maxYValue p item = Ok p' ->
  match RideItem.ride item with
  | Some ride =>
      let present := RideFile.areDataPresent ride in
      let some := negb (empty (RideFile.dataPoints ride)) in
      QwtPlotCurve.attached (wattsCurve p')
        = RideFileDataPresent.watts present && some /\
      QwtPlotCurve.attached (hrCurve p')
        = RideFileDataPresent.hr present && some /\
      QwtPlotCurve.attached (speedCurve p')
        = RideFileDataPresent.kph present && some /\
      QwtPlotCurve.attached (cadCurve p')
        = RideFileDataPresent.cad present && some /\
      QwtPlotCurve.attached (altCurve p')
        = RideFileDataPresent.alt present && some
  | None =>
      QwtPlotCurve.attached (wattsCurve p') = false /\
      QwtPlotCurve.attached (hrCurve p') = false /\
      QwtPlotCurve.attached (speedCurve p') = false /\
      QwtPlotCurve.attached (cadCurve p') = false /\
      QwtPlotCurve.attached (altCurve p') = false /\
      QwtPlot.title (plot p') = "no data"%string
  end.
Proof.
  intros H. destruct (RideItem.ride item) as [ride|] eqn:Hride.
  - pose proof (setData_frame maxYValue _ _ _ _ Hride H) as (_ & _ & F).
    apply flags_inv in F as (F1 & F2 & F3 & F4 & F5).
    apply curveFlags_inv in F1 as [-> _], F2 as [-> _], F3 as [-> _],
      F4 as [-> _], F5 as [-> _].
    apply load_attached.
  - unfold setData in H. rewrite Hride in H.
    inversion H; subst; clear H. simpl. repeat split; reflexivity.
Qed.


End Loading.

Lemma setData_units_witness :
  speedArray (Ex.after (newAllPlot "Imperial")
                [SetData Ex.lowItem; SetSmoothing 2])
  = map (fun pt => stored false MILES_PER_KM (RideFilePoint.kph pt))
      (RideFile.dataPoints Ex.lowRide).
Proof.
  assert (R : run Ex.maxY (newAllPlot "Imperial")
                ([] ++ SetData Ex.lowItem :: [SetSmoothing 2])
              = Ok (Ex.after (newAllPlot "Imperial")
                      [SetData Ex.lowItem; SetSmoothing 2])).
  { vm_compute. reflexivity. }
  destruct (setData_units Ex.maxY "Imperial" [] [SetSmoothing 2] Ex.lowItem
              Ex.lowRide _ eq_refl eq_refl R) as (_ & _ & S & _).
  exact S.
Defined.

(** The altitudes of a metric ride below sea level are not stored
    unchanged. *)
Lemma setData_metric_unchanged_counterexample :
  exists p,
    setData Ex.maxY (newAllPlot "Metric") Ex.lowItem = Ok p /\
    useMetricUnits p = true /\
    altArray p <> map RideFilePoint.alt (RideFile.dataPoints Ex.lowRide).
Proof.
  eexists. split; [vm_compute; reflexivity|]. split; [reflexivity|].
  discriminate.
Qed.

Lemma setData_attaches_witness :
  QwtPlotCurve.attached
    (wattsCurve (Ex.after (newAllPlot "Metric") [SetData Ex.lowItem]))
  = true.
Proof.
  assert (R : setData Ex.maxY (newAllPlot "Metric") Ex.lowItem
              = Ok (Ex.after (newAllPlot "Metric") [SetData Ex.lowItem])).
  { vm_compute. reflexivity. }
  destruct (setData_attaches Ex.maxY _ _ _ R) as (W & _).
  exact W.
Defined.

(** A power channel flagged present in a ride without data points: the
    power curve is not attached. *)
Lemma setData_attaches_counterexample :
  exists p,
    setData Ex.maxY (newAllPlot "Metric") Ex.hollowItem = Ok p /\
    RideFileDataPresent.watts (RideFile.areDataPresent Ex.hollowRide) = true /\
    QwtPlotCurve.attached (wattsCurve p) = false.
Proof.
  eexists. split; [vm_compute; reflexivity|]. split; reflexivity.
Qed.


(** ** Prefixes and suffixes cut by a test *)

Section Cuts.
Context {A : Type}.
Implicit Types (f g : A -> bool) (l : list A).

Lemma takeWhile_extend f g l :
  (forall a, f a = true -> g a = true) ->
  takeWhile g l
  = takeWhile f l ++ takeWhile g (skipn (length (takeWhile f l)) l).
Proof.
  intros Hfg. induction l as [|a l IH]; simpl; [reflexivity|].
  destruct (f a) eqn:Fa; simpl.
  - rewrite (Hfg a Fa). now rewrite <- IH.
  - reflexivity.
Qed.

Lemma dropWhile_extend f g l l' :
  (forall a, f a = true -> g a = true) ->
  dropWhile g (dropWhile f l ++ l') = dropWhile g (l ++ l').
Proof.
  intros Hfg. induction l as [|a l IH]; simpl; [reflexivity|].
  destruct (f a) eqn:Fa; simpl.
  - now rewrite (Hfg a Fa).
  - reflexivity.
Qed.

Lemma takeWhile_all f l : Forall (fun a => f a = true) (takeWhile f l).
Proof.
  induction l as [|a l IH]; simpl; [constructor|].
  destruct (f a) eqn:Fa; constructor; auto.
Qed.

Lemma takeWhile_none f l :
  Forall (fun a => f a = false) l -> takeWhile f l = [] \/ l = [].
Proof.
  intros H. destruct H as [|a l Ha _]; simpl; [now right|].
  rewrite Ha. now left.
Qed.

Lemma filter_none f l : Forall (fun a => f a = false) l -> filter f l = [].
Proof.
  induction 1 as [|a l Ha _ IH]; simpl; [reflexivity|]. now rewrite Ha.
Qed.

Lemma filter_ext_Forall f g l :
  Forall (fun a => f a = g a) l -> filter f l = filter g l.
Proof.
  induction 1 as [|a l Ha _ IH]; simpl; [reflexivity|].
  now rewrite Ha, IH.
Qed.

(** On a list sorted for [R], a test that is downward closed selects a
    prefix. *)
Lemma takeWhile_sorted (R : A -> A -> Prop) f l :
  (forall a b, R a b -> f b = true -> f a = true) ->
  StronglySorted R l -> takeWhile f l = filter f l.
Proof.
  intros Hdown. induction 1 as [|a l _ IH Hall]; simpl; [reflexivity|].
  destruct (f a) eqn:Fa; [now rewrite IH|].
  symmetry. apply filter_none.
  eapply Forall_impl; [|exact Hall]. intros b Rab. simpl in Rab.
  destruct (f b) eqn:Fb; [|reflexivity].
  rewrite (Hdown a b Rab Fb) in Fa. discriminate.
Qed.

(** The queue of the smoother on a sorted list: drop a downward-closed
    test [g] from the prefix selected by the downward-closed [f]. *)
Lemma dropWhile_takeWhile_sorted (R : A -> A -> Prop) f g l :
  (forall a b, R a b -> f b = true -> f a = true) ->
  (forall a b, R a b -> g b = true -> g a = true) ->
  StronglySorted R l ->
  dropWhile g (takeWhile f l) = filter (fun a => negb (g a) && f a) l.
Proof.
  intros Hf Hg. induction 1 as [|a l Hs IH Hall]; simpl; [reflexivity|].
  destruct (f a) eqn:Fa; simpl.
  - destruct (g a) eqn:Ga; simpl; [exact IH|].
    f_equal. rewrite (takeWhile_sorted R f l Hf Hs).
    apply filter_ext_Forall.
    eapply Forall_impl; [|exact Hall]. intros b Rab. simpl in Rab.
    destruct (g b) eqn:Gb; [|reflexivity].
    rewrite (Hg a b Rab Gb) in Ga. discriminate.
  - rewrite andb_false_r. symmetry. apply filter_none.
    eapply Forall_impl; [|exact Hall]. intros b Rab. simpl in Rab.
    destruct (f b) eqn:Fb; [|apply andb_false_r].
    rewrite (Hf a b Rab Fb) in Fa. discriminate.
Qed.

End Cuts.

(** ** Tests on sample times *)

Lemma Qlt_bool_iff (a b : Q) : Qlt_bool a b = true <-> (a < b)%Q.
Proof.
  unfold Qlt_bool. rewrite negb_true_iff.
  split.
  - intros H. apply Qnot_le_lt. intros C.
    apply Qle_bool_iff in C. congruence.
  - intros H. destruct (Qle_bool b a) eqn:E; [|reflexivity].
    apply Qle_bool_iff in E. exfalso. apply (Qlt_not_le _ _ H E).
Qed.

Lemma upTo_iff secs dp :
  upTo secs dp = true <-> (DataPoint.time dp <= inject_Z secs)%Q.
Proof. apply Qle_bool_iff. Qed.

Lemma before_iff bound dp :
  before bound dp = true <-> (DataPoint.time dp < inject_Z bound)%Q.
Proof. apply Qlt_bool_iff. Qed.

Lemma upTo_down secs a b : byTime a b -> upTo secs b = true -> upTo secs a = true.
Proof.
  unfold byTime. rewrite !upTo_iff. intros; eapply Qle_trans; eauto.
Qed.

Lemma before_down bound a b :
  byTime a b -> before bound b = true -> before bound a = true.
Proof.
  unfold byTime. rewrite !before_iff. intros; eapply Qle_lt_trans; eauto.
Qed.

Lemma upTo_mono k k' dp : k <= k' -> upTo k dp = true -> upTo k' dp = true.
Proof.
  rewrite !upTo_iff. intros H H'. eapply Qle_trans; [exact H'|].
  now rewrite <- Zle_Qle.
Qed.

Lemma before_mono k k' dp :
  k <= k' -> before k dp = true -> before k' dp = true.
Proof.
  rewrite !before_iff. intros H H'. eapply Qlt_le_trans; [exact H'|].
  now rewrite <- Zle_Qle.
Qed.

(** On a ride sorted by time the queue of a bin is its window. *)
Lemma queue_window (p : AllPlot) (secs : Z) :
  sortedByTime p -> queue p secs = window p secs.
Proof.
  intros S. unfold queue, seen, window.
  apply (dropWhile_takeWhile_sorted byTime); auto.
  - intros a b; apply upTo_down.
  - intros a b; apply before_down.
Qed.

(** ** The samples by index *)

Lemma points_length (p : AllPlot) : length (points p) = arrayLength p.
Proof. unfold points. now rewrite length_map, length_seq. Qed.

Lemma skipn_points (p : AllPlot) (i : nat) :
  (i < arrayLength p)%nat ->
  skipn i (points p) = dataPoint p i :: skipn (S i) (points p).
Proof.
  intros H. unfold points. rewrite !skipn_map, !skipn_seq. simpl.
  replace (arrayLength p - i)%nat with (S (arrayLength p - S i)) by lia.
  reflexivity.
Qed.

Lemma firstn_points_S (p : AllPlot) (i : nat) :
  (i < arrayLength p)%nat ->
  firstn (S i) (points p) = firstn i (points p) ++ [dataPoint p i].
Proof.
  intros H.
  rewrite <- (firstn_skipn i (points p)) at 1.
  rewrite (skipn_points p i H).
  rewrite firstn_app, firstn_firstn.
  rewrite length_firstn, points_length.
  replace (Nat.min (S i) i) with i by lia.
  replace (S i - Nat.min i (arrayLength p))%nat with 1%nat by lia.
  reflexivity.
Qed.

(** ** Checked accesses *)

Lemma vset_Ok v l i x l' :
  vset v l i x = Ok l' ->
  (0 <= i < Z.of_nat (length l)) /\ l' = upd (Z.to_nat i) x l.
Proof.
  unfold vset, inRange. destruct (0 <=? i) eqn:A; simpl; [|discriminate].
  destruct (i <? Z.of_nat (length l)) eqn:B; [|discriminate].
  intros H; inversion H. split; [lia | reflexivity].
Qed.

Lemma vset_in v l i x :
  0 <= i < Z.of_nat (length l) -> vset v l i x = Ok (upd (Z.to_nat i) x l).
Proof.
  intros H. unfold vset, inRange.
  replace (0 <=? i) with true by (symmetry; apply Z.leb_le; lia).
  replace (i <? Z.of_nat (length l)) with true
    by (symmetry; apply Z.ltb_lt; lia).
  reflexivity.
Qed.

Lemma vget_in v l i :
  0 <= i < Z.of_nat (length l) -> vget v l i = Ok (vnth l i).
Proof.
  intros H. unfold vget, inRange.
  replace (0 <=? i) with true by (symmetry; apply Z.leb_le; lia).
  replace (i <? Z.of_nat (length l)) with true
    by (symmetry; apply Z.ltb_lt; lia).
  reflexivity.
Qed.

Lemma vget_out v l i :
  i < 0 \/ Z.of_nat (length l) <= i ->
  vget v l i = Err (OutOfRange Read v i).
Proof.
  intros H. unfold vget, inRange.
  destruct (0 <=? i) eqn:A; simpl; [|reflexivity].
  destruct (i <? Z.of_nat (length l)) eqn:B; [|reflexivity]. lia.
Qed.

Lemma vset_out v l i x :
  i < 0 \/ Z.of_nat (length l) <= i ->
  vset v l i x = Err (OutOfRange Write v i).
Proof.
  intros H. unfold vset, inRange.
  destruct (0 <=? i) eqn:A; simpl; [|reflexivity].
  destruct (i <? Z.of_nat (length l)) eqn:B; [|reflexivity]. lia.
Qed.

Lemma vnth_upd_eq l i x :
  0 <= i < Z.of_nat (length l) -> vnth (upd (Z.to_nat i) x l) i = x.
Proof. intros H. unfold vnth. apply nth_upd_eq. lia. Qed.

Lemma vnth_upd_neq l i j x :
  0 <= i -> 0 <= j -> i <> j -> vnth (upd (Z.to_nat i) x l) j = vnth l j.
Proof. intros Hi Hj H. unfold vnth. apply nth_upd_neq. lia. Qed.

(** ** The loops of [recalc] *)

Lemma iter_inv {St} (Inv : Z -> St -> Prop) (body : Z -> St -> Res St) :
  forall n lo s s',
    (forall k t t',
        lo <= k < lo + Z.of_nat n -> Inv k t -> body k t = Ok t' ->
        Inv (k + 1) t') ->
    Inv lo s -> iter n lo body s = Ok s' -> Inv (lo + Z.of_nat n) s'.
Proof.
  induction n as [|n IH]; intros lo s s' Hstep H0 Hrun; simpl in Hrun.
  - inversion Hrun; subst. now rewrite Z.add_0_r.
  - destruct (body lo s) as [t|f] eqn:B; simpl in Hrun; [|discriminate].
    replace (lo + Z.of_nat (S n)) with (lo + 1 + Z.of_nat n) by lia.
    apply (IH (lo + 1) t s'); auto.
    + intros k u u' Hk. apply Hstep. lia.
    + apply (Hstep lo s t); auto. lia.
Qed.

Lemma iter_ok {St} (Good : St -> Prop) (body : Z -> St -> Res St) :
  forall n lo s,
    (forall k t,
        lo <= k < lo + Z.of_nat n -> Good t ->
        exists t', body k t = Ok t' /\ Good t') ->
    Good s -> exists s', iter n lo body s = Ok s' /\ Good s'.
Proof.
  induction n as [|n IH]; intros lo s Hstep H0; simpl.
  - exists s; auto.
  - destruct (Hstep lo s) as (t & B & Gt); [lia | exact H0 |].
    rewrite B; simpl. apply IH; auto.
    intros k u Hk. apply Hstep. lia.
Qed.

Lemma Qsum_app (l l' : list Q) : (Qsum (l ++ l') == Qsum l + Qsum l')%Q.
Proof.
  induction l as [|a l IH]; simpl; [lra|]. rewrite IH. lra.
Qed.

Section Consume.
Variables (p : AllPlot) (secs : Z).

Lemma consume1_i s : Locals.i (consume1 p secs s) = S (Locals.i s).
Proof. unfold consume1. destruct (negb _); reflexivity. Qed.

Lemma consume1_list s :
  Locals.list (consume1 p secs s)
  = Locals.list s ++ [dataPoint p (Locals.i s)].
Proof. unfold consume1. destruct (negb _); reflexivity. Qed.

Lemma consume1_vecs s : Locals.vecs (consume1 p secs s) = Locals.vecs s.
Proof. unfold consume1. destruct (negb _); reflexivity. Qed.

Lemma consume1_dist s :
  totalDist (Locals.totals (consume1 p secs s))
  = distUpTo p (Locals.i (consume1 p secs s)).
Proof. unfold consume1. destruct (negb _); reflexivity. Qed.

Lemma consume1_sums s :
  Sums (Locals.totals s) (Locals.list s) ->
  Sums (Locals.totals (consume1 p secs s)) (Locals.list (consume1 p secs s)).
Proof.
  intros [Hw Hh Hs Hc Ha]. rewrite consume1_list.
  assert (T : Locals.totals (consume1 p secs s)
              = let i := Locals.i s in let t := Locals.totals s in
                mkTotals
                  (if negb (empty (wattsArray p))
                   then (totalWatts t + nth i (wattsArray p) 0)%Q
                   else totalWatts t)
                  (if negb (empty (hrArray p))
                   then (totalHr t + nth i (hrArray p) 0)%Q else totalHr t)
                  (if negb (empty (speedArray p))
                   then (totalSpeed t + nth i (speedArray p) 0)%Q
                   else totalSpeed t)
                  (if negb (empty (cadArray p))
                   then (totalCad t + nth i (cadArray p) 0)%Q
                   else totalCad t)
                  (nth i (distanceArray p) 0%Q)
                  (if negb (empty (altArray p))
                   then (totalAlt t + nth i (altArray p) 0)%Q
                   else totalAlt t)).
  { unfold consume1. destruct (negb (_ =? _)); reflexivity. }
  rewrite T; clear T.
  constructor; simpl; rewrite map_app, Qsum_app; simpl;
    match goal with
    | |- context [empty ?a] => destruct (negb (empty a))
    end; lra.
Qed.

(** The first [while], turn by turn: [P s new s'] holds of the state
    [s'] reached from [s] by consuming the samples [new]. *)
Lemma consume_rect (P : Locals.t -> list DataPoint.t -> Locals.t -> Prop) :
  (forall s, P s [] s) ->
  (forall s new s',
      (Locals.i s < arrayLength p)%nat ->
      upTo secs (dataPoint p (Locals.i s)) = true ->
      P (consume1 p secs s) new s' ->
      P s (dataPoint p (Locals.i s) :: new) s') ->
  forall fuel s,
    (Locals.i s <= arrayLength p)%nat ->
    (arrayLength p - Locals.i s <= fuel)%nat ->
    P s (takeWhile (upTo secs) (skipn (Locals.i s) (points p)))
      (consume fuel p secs s).
Proof.
  intros Hnil Hcons.
  induction fuel as [|fuel IH]; intros s Hle Hfuel; cbn [consume].
  - rewrite skipn_all2 by (rewrite points_length; lia). apply Hnil.
  - destruct (Locals.i s <? arrayLength p)%nat eqn:Hlt; cbn [andb].
    + apply Nat.ltb_lt in Hlt. rewrite (skipn_points p _ Hlt).
      cbn [takeWhile].
      change (Qle_bool (nth (Locals.i s) (timeArray p) 0%Q) (inject_Z secs))
        with (upTo secs (dataPoint p (Locals.i s))).
      destruct (upTo secs (dataPoint p (Locals.i s))) eqn:U.
      * apply Hcons; auto.
        rewrite <- (consume1_i s). apply IH; rewrite consume1_i; lia.
      * apply Hnil.
    + apply Nat.ltb_ge in Hlt.
      rewrite skipn_all2 by (rewrite points_length; lia). apply Hnil.
Qed.

Variables (fuel : nat) (s : Locals.t).
Hypothesis Hle : (Locals.i s <= arrayLength p)%nat.
Hypothesis Hfuel : (arrayLength p - Locals.i s <= fuel)%nat.

Lemma consume_shape :
  let new := takeWhile (upTo secs) (skipn (Locals.i s) (points p)) in
  let s' := consume fuel p secs s in
  Locals.i s' = (Locals.i s + length new)%nat /\
  Locals.list s' = Locals.list s ++ new /\
  Locals.vecs s' = Locals.vecs s.
Proof.
  apply (consume_rect
           (fun s new s' =>
              Locals.i s' = (Locals.i s + length new)%nat /\
              Locals.list s' = Locals.list s ++ new /\
              Locals.vecs s' = Locals.vecs s)); auto.
  - intros t. rewrite app_nil_r. simpl. repeat split; lia.
  - intros t l t' _ _ (A & B & C).
    rewrite consume1_i in A. rewrite consume1_list in B.
    rewrite consume1_vecs in C. simpl.
    rewrite <- app_assoc in B. repeat split; auto. lia.
Qed.

Lemma consume_sums :
  Sums (Locals.totals s) (Locals.list s) ->
  Sums (Locals.totals (consume fuel p secs s))
    (Locals.list (consume fuel p secs s)).
Proof.
  apply (consume_rect
           (fun s new s' =>
              Sums (Locals.totals s) (Locals.list s) ->
              Sums (Locals.totals s') (Locals.list s'))); auto.
  intros t l t' _ _ IH H. apply IH. now apply consume1_sums.
Qed.

Lemma consume_dist :
  totalDist (Locals.totals s) = distUpTo p (Locals.i s) ->
  totalDist (Locals.totals (consume fuel p secs s))
  = distUpTo p (Locals.i (consume fuel p secs s)).
Proof.
  apply (consume_rect
           (fun s new s' =>
              totalDist (Locals.totals s) = distUpTo p (Locals.i s) ->
              totalDist (Locals.totals s') = distUpTo p (Locals.i s')));
    auto.
  intros t l t' _ _ IH _. apply IH. apply consume1_dist.
Qed.

End Consume.

(** The second [while]. *)
Lemma expire_spec (bound : Z) (l : list DataPoint.t) : forall t,
  Sums t l ->
  snd (expire bound t l) = dropWhile (before bound) l /\
  Sums (fst (expire bound t l)) (snd (expire bound t l)) /\
  totalDist (fst (expire bound t l)) = totalDist t.
Proof.
  induction l as [|dp rest IH]; intros t H; simpl.
  - auto.
  - change (Qlt_bool (DataPoint.time dp) (inject_Z bound))
      with (before bound dp).
    destruct (before bound dp); [|auto].
    match goal with
    | |- context [expire bound ?t' rest] =>
        destruct (IH t') as (A & B & C); [|auto]
    end.
    destruct H as [Hw Hh Hs Hc Ha]; simpl in *.
    constructor; simpl; lra.
Qed.

Lemma Lengths_written n secs t l v :
  Lengths n v -> Lengths n (written secs t l v).
Proof.
  intros [A B C D E F G]. constructor; simpl; now rewrite length_upd.
Qed.

Lemma store_in (n secs : Z) t l v :
  Lengths n v -> 0 <= secs < n -> (empty l = true -> 1 <= secs) ->
  store secs t l v = Ok (written secs t l v).
Proof.
  intros [A B C D E F G] Hs He. unfold store, written.
  destruct (empty l).
  - specialize (He eq_refl).
    rewrite !vset_in by lia. simpl.
    rewrite vget_in by lia. simpl.
    rewrite !vset_in by lia. reflexivity.
  - rewrite !vset_in by lia. reflexivity.
Qed.

Lemma bind_Ok {A B} (m : Res A) (k : A -> Res B) (b : B) :
  bind m k = Ok b -> exists a, m = Ok a /\ k a = Ok b.
Proof. destruct m as [a|f]; simpl; [eauto | discriminate]. Qed.

Lemma store_Ok (n secs : Z) t l v v' :
  Lengths n v -> store secs t l v = Ok v' ->
  0 <= secs < n /\ (empty l = true -> 1 <= secs) /\ v' = written secs t l v.
Proof.
  intros L H.
  assert (R : 0 <= secs < n).
  { destruct L as [A _ _ _ _ _ _]. unfold store in H.
    destruct (empty l); apply bind_Ok in H as (a & H & _);
      apply vset_Ok in H as [H _]; lia. }
  assert (E : empty l = true -> 1 <= secs).
  { intros El. unfold store in H. rewrite El in H.
    destruct L as [A B C D E F G].
    rewrite !vset_in in H by lia. simpl in H.
    destruct (Z.eq_dec secs 0) as [->|]; [|lia].
    rewrite vget_out in H by (left; lia). discriminate. }
  rewrite (store_in n secs t l v L R E) in H. inversion H. auto.
Qed.

Lemma mean_empty : (0 == mean [])%Q.
Proof. reflexivity. Qed.

Lemma mean_total (x : Q) (f : DataPoint.t -> Q) (l : list DataPoint.t) :
  (x == Qsum (map f l))%Q ->
  ((if empty l then 0 else x / size l) == mean (map f l))%Q.
Proof.
  intros H. destruct l as [|dp l]; [reflexivity|].
  cbn [empty]. unfold mean, size. rewrite length_map. now rewrite H.
Qed.

Section MainLoop.
Variable p : AllPlot.
Hypothesis Hsmooth : 1 <= smooth p.

Lemma seen_step (k : Z) :
  smooth p <= k ->
  seen p k
  = seenBefore p k
    ++ takeWhile (upTo k) (skipn (length (seenBefore p k)) (points p)).
Proof.
  intros Hk. unfold seenBefore. destruct (k <=? smooth p) eqn:E.
  - reflexivity.
  - apply (takeWhile_extend (upTo (k - 1)) (upTo k)).
    intros a. apply upTo_mono. lia.
Qed.

Lemma queue_step (k : Z) :
  smooth p <= k ->
  queue p k
  = dropWhile (before (k - smooth p))
      (queueBefore p k
       ++ takeWhile (upTo k) (skipn (length (seenBefore p k)) (points p))).
Proof.
  intros Hk. unfold queue at 1. rewrite (seen_step k Hk).
  unfold queueBefore, seenBefore. destruct (k <=? smooth p) eqn:E.
  - reflexivity.
  - unfold queue. symmetry.
    replace (k - 1 - smooth p) with (k - smooth p - 1) by lia.
    apply dropWhile_extend.
    intros a. apply before_mono. lia.
Qed.

Lemma seenBefore_next (k : Z) :
  smooth p <= k -> seenBefore p (k + 1) = seen p k.
Proof.
  intros Hk. unfold seenBefore.
  replace (k + 1 <=? smooth p) with false by (symmetry; apply Z.leb_gt; lia).
  now replace (k + 1 - 1) with k by lia.
Qed.

Lemma queueBefore_next (k : Z) :
  smooth p <= k -> queueBefore p (k + 1) = queue p k.
Proof.
  intros Hk. unfold queueBefore.
  replace (k + 1 <=? smooth p) with false by (symmetry; apply Z.leb_gt; lia).
  now replace (k + 1 - 1) with k by lia.
Qed.

Lemma seen_le (k : Z) : (length (seen p k) <= arrayLength p)%nat.
Proof.
  rewrite <- points_length. unfold seen.
  induction (points p) as [|a l IH]; simpl; [lia|].
  destruct (upTo k a); simpl; lia.
Qed.

Lemma seenBefore_le (k : Z) : (length (seenBefore p k) <= arrayLength p)%nat.
Proof.
  unfold seenBefore. destruct (k <=? smooth p); [simpl; lia | apply seen_le].
Qed.

(** One turn of the main loop keeps the invariant. *)
Lemma mainBody_inv (k : Z) (s s' : Locals.t) :
  smooth p <= k -> MainInv p k s -> mainBody p k s = Ok s' ->
  MainInv p (k + 1) s'.
Proof.
  intros Hk [Hi Hl Hsum Hd Hlen Hbins] Hrun.
  unfold mainBody in Hrun.
  pose proof (seenBefore_le k) as Hle. rewrite <- Hi in Hle.
  destruct (consume_shape p k (arrayLength p - Locals.i s) s Hle
              (Nat.le_refl _)) as (Ci & Cl & Cv).
  pose proof (consume_sums p k (arrayLength p - Locals.i s) s Hle
                (Nat.le_refl _) Hsum) as Cs.
  pose proof (consume_dist p k (arrayLength p - Locals.i s) s Hle
                (Nat.le_refl _) Hd) as Cd.
  set (s1 := consume (arrayLength p - Locals.i s) p k s) in *.
  destruct (expire_spec (k - smooth p) (Locals.list s1) (Locals.totals s1) Cs)
    as (El & Es & Ed).
  destruct (expire (k - smooth p) (Locals.totals s1) (Locals.list s1))
    as [t l] eqn:E. simpl in El, Es, Ed.
  apply bind_Ok in Hrun as (v & Hstore & Hret). inversion Hret; subst s'.
  clear Hret. rewrite Cv in Hstore.
  destruct (store_Ok _ _ _ _ _ _ Hlen Hstore) as (Hr & He & ->).
  assert (Qk : l = queue p k).
  { rewrite El, Cl, Hl, Hi. symmetry. apply queue_step. exact Hk. }
  assert (Sk : Locals.i s1 = length (seen p k)).
  { rewrite Ci, Hi, (seen_step k Hk), length_app.
    reflexivity. }
  destruct Hlen as [Lw Lh Ls Lc Lt Ld La].
  constructor; simpl.
  - rewrite seenBefore_next by exact Hk. exact Sk.
  - rewrite queueBefore_next by exact Hk. exact Qk.
  - exact Es.
  - rewrite Ed. exact Cd.
  - apply Lengths_written. constructor; assumption.
  - intros j Hj. destruct (Z.eq_dec j k) as [->|Hne].
    + destruct Es as [Sw Sh Ss Sc Sa].
      constructor; rewrite <- ?Qk; unfold written;
        cbn [smoothWatts smoothHr smoothSpeed smoothCad smoothTime
             smoothDistance smoothAltitude];
        rewrite ?vnth_upd_eq by lia.
      * now apply mean_total.
      * now apply mean_total.
      * now apply mean_total.
      * now apply mean_total.
      * intros Hne. destruct l as [|dp l]; [congruence|]. cbn [empty].
        apply (mean_total _ DataPoint.alt (dp :: l)) in Sa. exact Sa.
      * intros Q. rewrite Q. cbn [empty].
        rewrite vnth_upd_neq by lia. reflexivity.
      * reflexivity.
      * rewrite Ed, Cd, Sk. reflexivity.
    + destruct (Hbins j ltac:(lia)) as [Bw Bh Bs Bc Ba Bf Bt Bd].
      constructor; simpl; rewrite ?vnth_upd_neq by lia; auto.
Qed.

Lemma consume_vecs (secs : Z) (fuel : nat) : forall s,
  Locals.vecs (consume fuel p secs s) = Locals.vecs s.
Proof.
  induction fuel as [|fuel IH]; intros s; simpl; [reflexivity|].
  destruct (_ && _); [|reflexivity].
  now rewrite IH, consume1_vecs.
Qed.

(** With [smooth >= 1] a turn of the main loop inside the vectors
    does not fault. *)
Lemma mainBody_ok (n k : Z) (s : Locals.t) :
  Lengths n (Locals.vecs s) -> smooth p <= k < n ->
  exists s', mainBody p k s = Ok s' /\ Lengths n (Locals.vecs s').
Proof.
  intros L Hk. unfold mainBody.
  destruct (expire (k - smooth p) _ _) as [t l].
  rewrite consume_vecs.
  rewrite (store_in n k t l _ L); [| lia | lia].
  simpl. eexists; split; [reflexivity|]. simpl.
  now apply Lengths_written.
Qed.

Lemma initBody_ok (n k : Z) (v : Smooth) :
  Lengths n v -> 0 <= k < n ->
  exists v', initBody k v = Ok v' /\ Lengths n v'.
Proof.
  intros [A B C D E F G] Hk. unfold initBody.
  rewrite !vset_in by lia. simpl.
  eexists; split; [reflexivity|].
  constructor; simpl; now rewrite length_upd.
Qed.

Lemma QVector_ok (n : Z) :
  0 <= n -> QVector n = Ok (repeat 0%Q (Z.to_nat n)).
Proof.
  intros H. unfold QVector.
  now replace (n <? 0) with false by (symmetry; apply Z.ltb_ge; lia).
Qed.

Lemma for_range_ok {St} (Good : St -> Prop) (body : Z -> St -> Res St)
    (lo hi : Z) (s : St) :
  (forall k t, lo <= k < hi -> Good t ->
               exists t', body k t = Ok t' /\ Good t') ->
  Good s -> exists s', for_range lo hi body s = Ok s' /\ Good s'.
Proof.
  intros Hstep H0. unfold for_range. apply iter_ok; auto.
  intros k t Hk. apply Hstep. lia.
Qed.

Lemma for_range_inv {St} (Inv : Z -> St -> Prop) (body : Z -> St -> Res St)
    (lo hi : Z) (s s' : St) :
  (forall k t t', lo <= k < hi -> Inv k t -> body k t = Ok t' ->
                  Inv (k + 1) t') ->
  Inv lo s -> for_range lo hi body s = Ok s' -> Inv (Z.max lo hi) s'.
Proof.
  intros Hstep H0 Hrun. unfold for_range in Hrun.
  replace (Z.max lo hi) with (lo + Z.of_nat (Z.to_nat (hi - lo))) by lia.
  apply (iter_inv Inv body _ lo s s'); auto.
  intros k t t' Hk. apply Hstep. lia.
Qed.

(** The two loops: with [smooth >= 1] and a last timestamp above -1
    they run to the end, and every bin of the main loop holds what
    [Bin] says. *)
Lemma smoothing_spec :
  0 <= rideTimeSecs p + 1 ->
  exists s,
    smoothing p = Ok s /\
    MainInv p (Z.max (smooth p) (rideTimeSecs p + 1)) s.
Proof.
  intros Hn. unfold smoothing.
  rewrite (QVector_ok _ Hn). simpl.
  set (n := rideTimeSecs p + 1) in *.
  set (z := repeat 0%Q (Z.to_nat n)).
  assert (Lz : Z.of_nat (length z) = n).
  { unfold z. rewrite repeat_length. lia. }
  destruct (for_range_ok (Lengths n) initBody 0
              (Z.min (smooth p) (rideTimeSecs p)) (mkSmooth z z z z z z z))
    as (v & Hinit & Lv).
  { intros k t Hk G. apply initBody_ok; [exact G | lia]. }
  { constructor; exact Lz. }
  rewrite Hinit. simpl.
  set (s0 := Locals.mk 0 (mkTotals 0 0 0 0 0 0) [] 0 [] v).
  destruct (for_range_ok (fun s => Lengths n (Locals.vecs s)) (mainBody p)
              (smooth p) n s0) as (s & Hmain & Ls).
  { intros k t Hk G. apply mainBody_ok; [exact G | lia]. }
  { exact Lv. }
  exists s. split; [exact Hmain|].
  apply (for_range_inv (MainInv p) (mainBody p) (smooth p) n s0 s);
    [| | exact Hmain].
  - intros k t t' Hk. apply mainBody_inv. lia.
  - unfold s0. constructor; simpl.
    + unfold seenBefore. now rewrite Z.leb_refl.
    + unfold queueBefore. now rewrite Z.leb_refl.
    + constructor; reflexivity.
    + reflexivity.
    + exact Lv.
    + intros j Hj. lia.
Qed.

End MainLoop.

(** ** The keys of the interval map *)

Lemma qmap_insert_keys (P : Q * Z -> Prop) (k : Q) (v : Z) (m : QMap) :
  (forall v', P (k, v')) ->
  (forall k' v1 v2, P (k', v1) -> P (k', v2)) ->
  Forall P m -> Forall P (qmap_insert k v m).
Proof.
  intros Hk Hv. induction 1 as [|[k' v'] m He Hm IH]; simpl.
  - constructor; auto.
  - destruct (k ?= k')%Q; constructor; auto.
    eapply Hv; exact He.
Qed.

Lemma binKey_weaken lo hi hi' e : hi <= hi' -> binKey lo hi e -> binKey lo hi' e.
Proof. intros H (b & Hb & E). exists b. split; [lia | exact E]. Qed.

Lemma Qceiling_key (b : Z) : Qceiling (60 * (inject_Z b / 60)) = b.
Proof.
  rewrite (Qceiling_comp _ (inject_Z b)); [apply Qceiling_Z|]. field.
Qed.

Section Keys.
Variable p : AllPlot.

Lemma consume1_keys (k : Z) (s : Locals.t) :
  smooth p <= k ->
  Forall (binKey (smooth p) (k + 1)) (Locals.interList s) ->
  Forall (binKey (smooth p) (k + 1)) (Locals.interList (consume1 p k s)).
Proof.
  intros Hk H. unfold consume1. destruct (negb _); simpl; [|exact H].
  apply qmap_insert_keys.
  - intros v'. exists k. split; [lia | reflexivity].
  - intros k' v1 v2 (b & Hb & E). exists b. auto.
  - exact H.
Qed.

Lemma consume_keys (k : Z) (fuel : nat) : forall s,
  smooth p <= k ->
  Forall (binKey (smooth p) (k + 1)) (Locals.interList s) ->
  Forall (binKey (smooth p) (k + 1))
    (Locals.interList (consume fuel p k s)).
Proof.
  induction fuel as [|fuel IH]; intros s Hk H; simpl; [exact H|].
  destruct (_ && _); [|exact H].
  apply IH; auto. now apply consume1_keys.
Qed.

Lemma mainBody_keys (k : Z) (s s' : Locals.t) :
  smooth p <= k ->
  Forall (binKey (smooth p) k) (Locals.interList s) ->
  mainBody p k s = Ok s' ->
  Forall (binKey (smooth p) (k + 1)) (Locals.interList s').
Proof.
  intros Hk H Hrun. unfold mainBody in Hrun.
  destruct (expire _ _ _) as [t l].
  apply bind_Ok in Hrun as (v & _ & Hret). inversion Hret; subst; simpl.
  apply consume_keys; auto.
  eapply Forall_impl; [|exact H]. intros e. apply binKey_weaken. lia.
Qed.

Lemma smoothing_keys (s : Locals.t) :
  smoothing p = Ok s ->
  Forall (binKey (smooth p) (rideTimeSecs p + 1)) (Locals.interList s).
Proof.
  unfold smoothing. intros H.
  repeat (apply bind_Ok in H as (? & _ & H)).
  assert (K : Forall (binKey (smooth p)
                        (Z.max (smooth p) (rideTimeSecs p + 1)))
                (Locals.interList s)).
  { eapply (for_range_inv
              (fun k s => Forall (binKey (smooth p) k) (Locals.interList s))
              (mainBody p)); [| |exact H].
    - intros k t t' Hk. apply mainBody_keys. lia.
    - constructor. }
  eapply Forall_impl; [|exact K]. intros e (b & Hb & E).
  exists b. split; [|exact E].
  destruct (Z.max_spec (smooth p) (rideTimeSecs p + 1)) as [[? M]|[? M]];
    rewrite M in Hb; lia.
Qed.

End Keys.

Section Recalc.
Variable maxYValue : QwtPlotCurve.t -> Q.
Variable p : AllPlot.
Hypothesis Hne : empty (timeArray p) = false.
Hypothesis Hsmooth : 1 <= smooth p.
Hypothesis Hlo : 0 <= rideTimeSecs p.
Hypothesis Hhi : rideTimeSecs p <= limit.

Lemma mapM_newMarker (s : Locals.t) (l : list Q) :
  Lengths (rideTimeSecs p + 1) (Locals.vecs s) ->
  Forall (fun t => exists b, smooth p <= b < rideTimeSecs p + 1 /\
                             t = (inject_Z b / 60)%Q) l ->
  mapM (newMarker p s) l = Ok (map (markerOf p s) l).
Proof.
  intros L. induction 1 as [|t l (b & Hb & ->) _ IH]; simpl; [reflexivity|].
  rewrite IH.
  assert (E : newMarker p s (inject_Z b / 60)
              = Ok (markerOf p s (inject_Z b / 60))).
  { unfold newMarker, markerOf. destruct (bydist p); simpl; [|reflexivity].
    rewrite vget_in; [reflexivity|].
    rewrite Qceiling_key. destruct L. lia. }
  rewrite E. reflexivity.
Qed.

(** Within the limit, with [smooth >= 1] and a last timestamp above
    -1, [recalc] does not fault; it ends in [finished]. *)
Lemma recalc_spec :
  exists s,
    smoothing p = Ok s /\
    MainInv p (Z.max (smooth p) (rideTimeSecs p + 1)) s /\
    recalc maxYValue p = Ok (finished maxYValue p s).
Proof.
  destruct (smoothing_spec p Hsmooth) as (s & Hs & Inv); [lia|].
  exists s. split; [exact Hs|]. split; [exact Inv|].
  unfold recalc. rewrite Hne.
  replace (rideTimeSecs p >? limit) with false
    by (symmetry; rewrite Z.gtb_ltb; apply Z.ltb_ge; lia).
  rewrite Hs. cbn [bind].
  pose proof (mi_len _ _ _ Inv) as L.
  assert (X : (if bydist p then Ok (totalDist (Locals.totals s))
               else vget SmoothTime (smoothTime (Locals.vecs s))
                      (rideTimeSecs p))
              = Ok (if bydist p then totalDist (Locals.totals s)
                    else vnth (smoothTime (Locals.vecs s)) (rideTimeSecs p))).
  { destruct (bydist p); [reflexivity|]. apply vget_in.
    destruct L. lia. }
  rewrite X. cbn [bind].
  rewrite (mapM_newMarker s _ L).
  - reflexivity.
  - pose proof (smoothing_keys p s Hs) as K. unfold keys.
    apply Forall_forall. intros t Ht.
    apply in_map_iff in Ht as (e & <- & He).
    rewrite Forall_forall in K. exact (K e He).
Qed.

End Recalc.

(** ** Sorted rides *)

Lemma sorted_nth {A} (R : A -> A -> Prop) (d : A) (l : list A) :
  (forall a, R a a) -> StronglySorted R l ->
  forall i j, (i <= j < length l)%nat -> R (nth i l d) (nth j l d).
Proof.
  intros Hrefl. induction 1 as [|a l _ IH Hall]; intros i j Hij;
    simpl in Hij; [lia|].
  destruct i as [|i], j as [|j]; simpl; try lia.
  - apply Hrefl.
  - rewrite Forall_forall in Hall. apply Hall, nth_In. lia.
  - apply IH. lia.
Qed.

Lemma sorted_skipn {A} (R : A -> A -> Prop) (n : nat) : forall l,
  StronglySorted R l -> StronglySorted R (skipn n l).
Proof.
  induction n as [|n IH]; intros l H; simpl; [exact H|].
  destruct H; [constructor | now apply IH].
Qed.

Lemma byTime_refl a : byTime a a.
Proof. apply Qle_refl. Qed.

Lemma nth_points (p : AllPlot) (i : nat) (d : DataPoint.t) :
  (i < arrayLength p)%nat -> nth i (points p) d = dataPoint p i.
Proof.
  intros H. unfold points.
  rewrite (nth_indep _ d (dataPoint p 0))
    by (rewrite length_map, length_seq; exact H).
  rewrite map_nth. now rewrite seq_nth.
Qed.

Lemma sorted_times (p : AllPlot) (i j : nat) :
  sortedByTime p -> (i <= j < arrayLength p)%nat ->
  (nth i (timeArray p) 0 <= nth j (timeArray p) 0)%Q.
Proof.
  intros S H.
  pose proof (sorted_nth byTime (dataPoint p 0) (points p) byTime_refl S i j)
    as K.
  rewrite points_length in K. specialize (K H).
  rewrite !nth_points in K by lia. exact K.
Qed.

(** On a sorted ride every sample is consumed by the last bin. *)
Lemma seen_all (p : AllPlot) :
  sortedByTime p -> seen p (rideTimeSecs p) = points p.
Proof.
  intros S. unfold seen.
  assert (H : Forall (fun dp => upTo (rideTimeSecs p) dp = true) (points p)).
  { apply Forall_forall. intros dp Hin.
    destruct (In_nth _ _ (dataPoint p 0) Hin) as (i & Hi & <-).
    rewrite points_length in Hi. rewrite nth_points by exact Hi.
    apply upTo_iff. simpl.
    eapply Qle_trans; [apply (sorted_times p i (arrayLength p - 1) S); lia|].
    apply Qle_ceiling. }
  induction H as [|a l Ha _ IH]; simpl; [reflexivity|].
  now rewrite Ha, IH.
Qed.

Lemma rideTimeSecs_le_limit (p : AllPlot) :
  (lastTime p <= inject_Z (7 * 24 * 60 * 60))%Q -> rideTimeSecs p <= limit.
Proof.
  intros H. apply Qceiling_resp_le in H. rewrite Qceiling_Z in H. exact H.
Qed.

Lemma filter_andb {A} (f g : A -> bool) (l : list A) :
  filter (fun a => f a && g a) l = filter f (filter g l).
Proof.
  induction l as [|a l IH]; simpl; [reflexivity|].
  destruct (g a); simpl.
  - rewrite andb_true_r. destruct (f a); now rewrite IH.
  - now rewrite andb_false_r.
Qed.

Lemma window_In (p : AllPlot) (secs : Z) (dp : DataPoint.t) :
  In dp (window p secs) <->
  In dp (points p) /\
  (inject_Z (secs - smooth p) <= DataPoint.time dp)%Q /\
  (DataPoint.time dp <= inject_Z secs)%Q.
Proof.
  unfold window, inWindow. rewrite filter_In, andb_true_iff, negb_true_iff.
  rewrite upTo_iff.
  assert (B : before (secs - smooth p) dp = false <->
              (inject_Z (secs - smooth p) <= DataPoint.time dp)%Q).
  { destruct (before (secs - smooth p) dp) eqn:E.
    - apply before_iff in E. split; [discriminate|].
      intros C. exfalso. apply (Qlt_not_le _ _ E C).
    - split; [|reflexivity]. intros _. apply Qnot_lt_le. intros C.
      apply before_iff in C. congruence. }
  rewrite B. tauto.
Qed.

Lemma mean_nil_0 : (mean [] == 0)%Q.
Proof. reflexivity. Qed.

Section Smoother.
Variable maxYValue : QwtPlotCurve.t -> Q.

(** The tail of [recalc] hands the smoothed vectors to the curves. *)
Lemma finished_curves (p : AllPlot) (s : Locals.t) :
  let v := Locals.vecs s in
  let xaxis := if bydist p then smoothDistance v else smoothTime v in
  wattsCurve (finished maxYValue p s)
  = plotIfPresent (wattsArray p) xaxis (smoothWatts v) (wattsCurve p) /\
  hrCurve (finished maxYValue p s)
  = plotIfPresent (hrArray p) xaxis (smoothHr v) (hrCurve p) /\
  speedCurve (finished maxYValue p s)
  = plotIfPresent (speedArray p) xaxis (smoothSpeed v) (speedCurve p) /\
  cadCurve (finished maxYValue p s)
  = plotIfPresent (cadArray p) xaxis (smoothCad v) (cadCurve p) /\
  altCurve (finished maxYValue p s)
  = plotIfPresent (altArray p) xaxis (smoothAltitude v) (altCurve p).
Proof.
  unfold finished. cbv zeta.
  rewrite setYMax_only_plot, refreshZoneLabels_only_labels.
  repeat split; reflexivity.
Qed.

Lemma plotIfPresent_yData a x y c :
  empty a = false -> QwtPlotCurve.yData (plotIfPresent a x y c) = y.
Proof. intros E. unfold plotIfPresent. now rewrite E. Qed.

Lemma plotIfPresent_xData a x y c :
  empty a = false -> QwtPlotCurve.xData (plotIfPresent a x y c) = x.
Proof. intros E. unfold plotIfPresent. now rewrite E. Qed.

(** The bins of a sorted ride within the limit. *)
Lemma sorted_bins (p : AllPlot) (secs : Z) :
  empty (timeArray p) = false ->
  sortedByTime p ->
  (lastTime p <= inject_Z (7 * 24 * 60 * 60))%Q ->
  1 <= smooth p ->
  smooth p <= secs <= rideTimeSecs p ->
  exists s,
    smoothing p = Ok s /\
    recalc maxYValue p = Ok (finished maxYValue p s) /\
    Lengths (rideTimeSecs p + 1) (Locals.vecs s) /\
    Bin p (Locals.vecs s) secs /\ queue p secs = window p secs.
Proof.
  intros Hne S Hlast Hsm Hsecs.
  destruct (recalc_spec maxYValue p Hne Hsm ltac:(lia)
              (rideTimeSecs_le_limit p Hlast)) as (s & Hs & Inv & Hr).
  exists s. split; [exact Hs|]. split; [exact Hr|].
  split; [apply (mi_len _ _ _ Inv)|].
  split; [apply (mi_bins _ _ _ Inv); lia|].
  now apply queue_window.
Qed.


End Smoother.

Ltac sorted_example :=
  unfold sortedByTime; vm_compute; repeat constructor; easy.


(** ** The altitude fallback *)

Section Fallback.
Variable p : AllPlot.

Lemma smoothing_never_bad_read :
  1 <= smooth p ->
  forall i, smoothing p <> Err (OutOfRange Read SmoothAltitude i).
Proof.
  intros Hsm i.
  destruct (Z_lt_le_dec (rideTimeSecs p + 1) 0) as [Hneg|Hpos].
  - unfold smoothing, QVector.
    replace (rideTimeSecs p + 1 <? 0) with true
      by (symmetry; apply Z.ltb_lt; lia).
    simpl. discriminate.
  - destruct (smoothing_spec p Hsm Hpos) as (s & -> & _). discriminate.
Qed.

Lemma first_bin_faults :
  smooth p <= 0 ->
  arrayLength p <> 0%nat ->
  (0 < nth 0 (timeArray p) 0)%Q ->
  0 <= rideTimeSecs p ->
  smoothing p
  = Err (if smooth p =? 0 then OutOfRange Read SmoothAltitude (-1)
         else OutOfRange Write SmoothWatts (smooth p)).
Proof.
  intros Hsm Hn Hfirst Hrts. unfold smoothing.
  rewrite QVector_ok by lia. cbn [bind].
  set (z := repeat 0%Q (Z.to_nat (rideTimeSecs p + 1))).
  assert (Lz : Z.of_nat (length z) = rideTimeSecs p + 1).
  { unfold z. rewrite repeat_length. lia. }
  unfold for_range at 1.
  replace (Z.to_nat (Z.min (smooth p) (rideTimeSecs p) - 0)) with 0%nat
    by lia.
  cbn [iter bind].
  unfold for_range.
  destruct (Z.to_nat (rideTimeSecs p + 1 - smooth p)) as [|m] eqn:E; [lia|].
  cbn [iter].
  assert (B : mainBody p (smooth p)
                (Locals.mk 0 (mkTotals 0 0 0 0 0 0) [] 0 []
                   (mkSmooth z z z z z z z))
              = Err (if smooth p =? 0
                     then OutOfRange Read SmoothAltitude (-1)
                     else OutOfRange Write SmoothWatts (smooth p))).
  { unfold mainBody. cbn [Locals.i Locals.totals Locals.list Locals.vecs].
    rewrite Nat.sub_0_r.
    destruct (arrayLength p) as [|n] eqn:En; [congruence|].
    cbn [consume Locals.i].
    replace (Qle_bool (nth 0 (timeArray p) 0%Q) (inject_Z (smooth p)))
      with false.
    2:{ symmetry. destruct (Qle_bool _ _) eqn:C; [|reflexivity].
        apply Qle_bool_iff in C. exfalso.
        assert (inject_Z (smooth p) <= 0)%Q
          by (change 0%Q with (inject_Z 0); now rewrite <- Zle_Qle).
        lra. }
    rewrite andb_false_r.
    cbn [expire Locals.totals Locals.list Locals.vecs].
    unfold store. cbn [empty smoothWatts smoothHr smoothSpeed smoothCad
                         smoothAltitude].
    destruct (smooth p =? 0) eqn:Z0.
    - apply Z.eqb_eq in Z0. rewrite Z0.
      rewrite !vset_in by lia. cbn [bind].
      rewrite vget_out by (left; lia). reflexivity.
    - apply Z.eqb_neq in Z0.
      rewrite vset_out by (left; lia). reflexivity. }
  rewrite B. reflexivity.
Qed.

(** Claim C10.  When the window of a bin is empty the altitude
    is copied from index [secs - 1].  With [smooth >= 1] that index
    satisfies [0 <= smooth - 1 <= secs - 1] and lies inside the
    vector at every bin of the main loop, the read never faults, and
    the whole of the loops runs without a fault.  With [smooth <= 0]
    and a sorted ride whose first timestamp is above 0, the read at
    index [smooth - 1] is outside the vector and the first turn of the
    main loop faults (at that read when [smooth = 0]; already at the
    write of [smoothWatts[smooth]] when [smooth < 0]). *)
Theorem altitude_fallback_bounds :
  (1 <= smooth p ->
   (forall i, smoothing p <> Err (OutOfRange Read SmoothAltitude i)) /\
   (0 <= rideTimeSecs p + 1 ->
    exists s,
      smoothing p = Ok s /\
      forall secs,
        smooth p <= secs <= rideTimeSecs p ->
        let alt := smoothAltitude (Locals.vecs s) in
        0 <= smooth p - 1 <= secs - 1 /\
        secs - 1 < Z.of_nat (length alt) /\
        vget SmoothAltitude alt (secs - 1) = Ok (vnth alt (secs - 1)) /\
        (queue p secs = [] -> vnth alt secs = vnth alt (secs - 1)) /\
        (sortedByTime p -> window p secs = [] ->
         vnth alt secs = vnth alt (secs - 1)))) /\
  (smooth p <= 0 ->
   arrayLength p <> 0%nat ->
   sortedByTime p ->
   (0 < nth 0 (timeArray p) 0)%Q ->
   (forall v,
       vget SmoothAltitude (smoothAltitude v) (smooth p - 1)
       = Err (OutOfRange Read SmoothAltitude (smooth p - 1))) /\
   smoothing p
   = Err (if smooth p =? 0 then OutOfRange Read SmoothAltitude (-1)
          else OutOfRange Write SmoothWatts (smooth p))).
Proof.
  split.
  - intros Hsm. split; [now apply smoothing_never_bad_read|].
    intros Hpos. destruct (smoothing_spec p Hsm Hpos) as (s & Hs & Inv).
    exists s. split; [exact Hs|]. intros secs Hsecs alt.
    pose proof (mi_len _ _ _ Inv) as [_ _ _ _ _ _ La]. fold alt in La.
    pose proof (mi_bins _ _ _ Inv secs ltac:(lia)) as B.
    split; [lia|]. split; [lia|].
    split; [apply vget_in; lia|].
    split; [apply (bin_alt_carried _ _ _ B)|].
    intros S W. apply (bin_alt_carried _ _ _ B).
    now rewrite queue_window.
  - intros Hsm Hn S Hfirst.
    split; [intros v; apply vget_out; left; lia|].
    apply first_bin_faults; auto.
    assert (0 < lastTime p)%Q.
    { eapply Qlt_le_trans; [exact Hfirst|].
      apply (sorted_times p 0 (arrayLength p - 1) S). lia. }
    assert (inject_Z 0 < inject_Z (rideTimeSecs p))%Q.
    { eapply Qlt_le_trans; [exact H|]. apply Qle_ceiling. }
    rewrite <- Zlt_Qlt in H0. lia.
Qed.

End Fallback.

Lemma altitude_fallback_bounds_witness :
  (exists s, smoothing Ex2.low2 = Ok s) /\
  smoothing Ex2.late0 = Err (OutOfRange Read SmoothAltitude (-1)).
Proof.
  destruct (altitude_fallback_bounds Ex2.low2) as [A _].
  destruct (altitude_fallback_bounds Ex2.late0) as [_ B].
  split.
  - destruct (A ltac:(vm_compute; easy)) as [_ A2].
    destruct (A2 ltac:(vm_compute; easy)) as (s & Hs & _).
    exists s. exact Hs.
  - destruct (B ltac:(vm_compute; easy) ltac:(vm_compute; easy)
                ltac:(sorted_example) ltac:(vm_compute; easy)) as [_ B2].
    exact B2.
Defined.

(** ** A ride shorter than the smoothing window *)

(** Claim C2, failing input.  [Ex.lowRide] lasts 3 s and is loaded with
    the default 30 s window: the series have 4 entries, but the
    x-value of the last bin is 0 instead of 3/60 and the x-axis is
    scaled from 0 to 0 instead of to the final time. *)
Theorem short_ride_last_bin :
  exists p,
    setData Ex.maxY (newAllPlot "Metric") Ex.lowItem = Ok p /\
    smooth p = 30 /\ rideTimeSecs p = 3 /\ bydist p = false /\
    map Qred (QwtPlotCurve.xData (wattsCurve p))
    = [0; 1 # 60; 1 # 30; 0]%Q /\
    vnth (QwtPlotCurve.xData (wattsCurve p)) 3 = 0%Q /\
    ~ (vnth (QwtPlotCurve.xData (wattsCurve p)) 3 == inject_Z 3 / 60)%Q /\
    QwtPlot.axisScale (plot p) xBottom = (0, 0)%Q.
Proof.
  eexists. split; [vm_compute; reflexivity|].
  repeat split; try reflexivity. vm_compute. discriminate.
Qed.

(** ** Interval markers *)

Lemma lastInter_snoc d l dp : lastInter d (l ++ [dp]) = DataPoint.inter dp.
Proof. unfold lastInter. now rewrite fold_left_app. Qed.

Lemma transitions_snoc dp : forall l d,
  transitions d (l ++ [dp])
  = transitions d l
    ++ (if lastInter d l =? DataPoint.inter dp then [] else [dp]).
Proof.
  induction l as [|a l IH]; intros d; simpl.
  - unfold lastInter; simpl. destruct (d =? DataPoint.inter dp); reflexivity.
  - change (lastInter d (a :: l)) with (lastInter (DataPoint.inter a) l).
    destruct (d =? DataPoint.inter a) eqn:E.
    + apply Z.eqb_eq in E. subst d. apply IH.
    + simpl. now rewrite IH.
Qed.

Lemma transitions_In d l dp : In dp (transitions d l) -> In dp l.
Proof.
  revert d. induction l as [|a l IH]; intros d; simpl; [tauto|].
  destruct (d =? DataPoint.inter a); simpl; intros H.
  - right. eapply IH; eauto.
  - destruct H; [now left | right; eapply IH; eauto].
Qed.

Lemma rest_after_takeWhile {A} (R : A -> A -> Prop) (f : A -> bool) l :
  (forall a b, R a b -> f b = true -> f a = true) ->
  StronglySorted R l ->
  Forall (fun a => f a = false) (skipn (length (takeWhile f l)) l).
Proof.
  intros Hdown. induction 1 as [|a l _ IH Hall]; simpl; [constructor|].
  destruct (f a) eqn:Fa; simpl; [exact IH|].
  constructor; [exact Fa|].
  eapply Forall_impl; [|exact Hall]. intros b Rab. simpl in Rab.
  destruct (f b) eqn:Fb; [|reflexivity].
  rewrite (Hdown a b Rab Fb) in Fa. discriminate.
Qed.

Section Intervals.
Variable p : AllPlot.
Hypothesis Hsorted : sortedByTime p.

(** The bin that consumes a sample. *)
Lemma binOf_consumed (k : Z) (dp : DataPoint.t) :
  smooth p <= k -> upTo k dp = true ->
  (k <= smooth p \/ (inject_Z (k - 1) < DataPoint.time dp)%Q) ->
  binOf p dp = k.
Proof.
  intros Hk U F. apply upTo_iff in U. unfold binOf.
  assert (C : Qceiling (DataPoint.time dp) <= k).
  { apply Qceiling_resp_le in U. now rewrite Qceiling_Z in U. }
  destruct F as [F|F]; [lia|].
  assert (k - 1 < Qceiling (DataPoint.time dp)).
  { rewrite Zlt_Qlt. eapply Qlt_le_trans; [exact F | apply Qle_ceiling]. }
  lia.
Qed.

Lemma consume1_core (k : Z) (s : Locals.t) :
  (Locals.i s < arrayLength p)%nat ->
  binOf p (dataPoint p (Locals.i s)) = k ->
  InterCore p s -> InterCore p (consume1 p k s).
Proof.
  intros Hlt Hbin [Hle Hmap Hlast].
  constructor.
  - rewrite consume1_i. lia.
  - rewrite consume1_i, (firstn_points_S p _ Hlt).
    unfold markersMap. rewrite transitions_snoc, fold_left_app.
    fold (markersMap p (firstn (Locals.i s) (points p))).
    rewrite <- Hmap, <- Hlast. unfold consume1.
    change (nth (Locals.i s) (interArray p) 0)
      with (DataPoint.inter (dataPoint p (Locals.i s))).
    destruct (Locals.lastInterval s =? _); simpl; [reflexivity|].
    unfold insertAt, entryOf; simpl. now rewrite Hbin.
  - rewrite consume1_i, (firstn_points_S p _ Hlt), lastInter_snoc.
    unfold consume1.
    change (nth (Locals.i s) (interArray p) 0)
      with (DataPoint.inter (dataPoint p (Locals.i s))).
    destruct (Locals.lastInterval s =? _) eqn:E; simpl; [|reflexivity].
    now apply Z.eqb_eq in E.
Qed.

Lemma fresh_consume1 (k : Z) (s : Locals.t) :
  (Locals.i s < arrayLength p)%nat ->
  fresh p k s -> fresh p k (consume1 p k s).
Proof.
  intros Hlt [F|F]; [now left | right].
  rewrite consume1_i. rewrite (skipn_points p _ Hlt) in F.
  now inversion F.
Qed.

Lemma consume_core (k : Z) (fuel : nat) (s : Locals.t) :
  smooth p <= k ->
  (arrayLength p - Locals.i s <= fuel)%nat ->
  InterCore p s -> fresh p k s ->
  InterCore p (consume fuel p k s).
Proof.
  intros Hk Hfuel C F. pose proof (ic_le _ _ C) as Hle.
  revert C F.
  apply (consume_rect p k
           (fun s new s' =>
              InterCore p s -> fresh p k s -> InterCore p s'));
    auto.
  intros t l t' Hlt U IH C F. apply IH.
  - apply consume1_core; auto. apply binOf_consumed; auto.
    destruct F as [F|F]; [now left | right].
    rewrite (skipn_points p _ Hlt) in F. now inversion F.
  - now apply fresh_consume1.
Qed.

Lemma fresh_next (k : Z) (fuel : nat) (s : Locals.t) :
  (Locals.i s <= arrayLength p)%nat ->
  (arrayLength p - Locals.i s <= fuel)%nat ->
  fresh p (k + 1) (consume fuel p k s).
Proof.
  intros Hle Hfuel. right.
  destruct (consume_shape p k fuel s Hle Hfuel) as (Ci & _ & _).
  rewrite Ci, Nat.add_comm, <- skipn_skipn.
  replace (k + 1 - 1) with k by lia.
  eapply Forall_impl;
    [|apply (rest_after_takeWhile byTime (upTo k));
      [intros a b; apply upTo_down
      |apply sorted_skipn; exact Hsorted]].
  intros dp U. simpl in U.
  apply Qnot_le_lt. intros C. apply upTo_iff in C. congruence.
Qed.

Lemma mainBody_core (k : Z) (s s' : Locals.t) :
  smooth p <= k ->
  InterCore p s /\ fresh p k s ->
  mainBody p k s = Ok s' ->
  InterCore p s' /\ fresh p (k + 1) s'.
Proof.
  intros Hk [C F] Hrun. pose proof (ic_le _ _ C) as Hle.
  pose proof (consume_core k _ s Hk (Nat.le_refl _) C F) as [C1 C2 C3].
  pose proof (fresh_next k _ s Hle (Nat.le_refl _)) as F'.
  unfold mainBody in Hrun.
  destruct (expire _ _ _) as [t l].
  apply bind_Ok in Hrun as (v & _ & Hret). inversion Hret; subst s'.
  split; [constructor; assumption | exact F'].
Qed.

Lemma smoothing_core (s : Locals.t) :
  smoothing p = Ok s -> InterCore p s.
Proof.
  unfold smoothing. intros H.
  repeat (apply bind_Ok in H as (? & _ & H)).
  assert (K : InterCore p s /\
              fresh p (Z.max (smooth p) (rideTimeSecs p + 1)) s).
  { eapply (for_range_inv (fun k s => InterCore p s /\ fresh p k s)
              (mainBody p)); [| |exact H].
    - intros k t t' Hk. apply mainBody_core. lia.
    - split; [constructor; simpl; auto; lia | left; lia]. }
  apply K.
Qed.

End Intervals.

Lemma key_lt (a b : Z) : a < b -> (inject_Z a / 60 < inject_Z b / 60)%Q.
Proof.
  intros H. rewrite Zlt_Qlt in H.
  apply Qlt_shift_div_l; [reflexivity|].
  setoid_replace (inject_Z a / 60 * 60)%Q with (inject_Z a) by field.
  exact H.
Qed.

Lemma qmap_insert_last (b : Z) (v : Z) (m : QMap) :
  Forall (binKey 0 b) m ->
  qmap_insert (inject_Z b / 60) v m = m ++ [((inject_Z b / 60)%Q, v)].
Proof.
  induction 1 as [|[k' v'] m (c & Hc & E) _ IH]; simpl; [reflexivity|].
  simpl in E. subst k'.
  replace (inject_Z b / 60 ?= inject_Z c / 60)%Q with Gt.
  - now rewrite IH.
  - symmetry. apply Qgt_alt. apply key_lt. lia.
Qed.

Lemma qmap_find_other (b c : Z) (m : QMap) (v : Z) :
  b <> c ->
  qmap_find (inject_Z b / 60) (((inject_Z c / 60)%Q, v) :: m)
  = qmap_find (inject_Z b / 60) m.
Proof.
  intros H. simpl.
  destruct (Qeq_bool _ _) eqn:E; [|reflexivity].
  apply Qeq_bool_iff in E. exfalso.
  destruct (Z_lt_le_dec b c) as [L|L].
  - apply key_lt in L. rewrite E in L. apply (Qlt_irrefl _ L).
  - assert (L' : c < b) by lia.
    apply key_lt in L'. rewrite E in L'. apply (Qlt_irrefl _ L').
Qed.

Section Markers.
Variable maxYValue : QwtPlotCurve.t -> Q.
Variable p : AllPlot.
Hypothesis Hne : empty (timeArray p) = false.
Hypothesis Hsorted : sortedByTime p.
Hypothesis Hlast : (lastTime p <= inject_Z (7 * 24 * 60 * 60))%Q.
Hypothesis Hsmooth : 1 <= smooth p <= rideTimeSecs p.

Lemma binOf_range (dp : DataPoint.t) :
  In dp (points p) -> smooth p <= binOf p dp <= rideTimeSecs p.
Proof.
  intros Hin. unfold binOf.
  assert (U : upTo (rideTimeSecs p) dp = true).
  { pose proof (takeWhile_all (upTo (rideTimeSecs p)) (points p)) as A.
    fold (seen p (rideTimeSecs p)) in A. rewrite (seen_all p Hsorted) in A.
    rewrite Forall_forall in A. now apply A. }
  apply upTo_iff, Qceiling_resp_le in U. rewrite Qceiling_Z in U. lia.
Qed.

Lemma binOf_first (dp : DataPoint.t) :
  let b := binOf p dp in
  upTo b dp = true /\ (smooth p < b -> upTo (b - 1) dp = false).
Proof.
  unfold binOf. split.
  - apply upTo_iff. eapply Qle_trans; [apply Qle_ceiling|].
    rewrite <- Zle_Qle. lia.
  - intros H. destruct (upTo _ dp) eqn:U; [|reflexivity].
    apply upTo_iff in U. exfalso.
    pose proof (Qceiling_lt (DataPoint.time dp)) as C.
    assert (Z.max (smooth p) (Qceiling (DataPoint.time dp))
            = Qceiling (DataPoint.time dp)) as M by lia.
    rewrite M in U. apply (Qlt_irrefl (DataPoint.time dp)).
    eapply Qle_lt_trans; [exact U | exact C].
Qed.

Lemma sorted_transitions : forall l d,
  StronglySorted byTime l -> StronglySorted byTime (transitions d l).
Proof.
  intros l d H. revert d.
  induction H as [|a l _ IH Hall]; intros d; simpl; [constructor|].
  destruct (d =? DataPoint.inter a); [apply IH|].
  constructor; [apply IH|].
  rewrite Forall_forall in *. intros x Hx.
  apply Hall. eapply transitions_In; eauto.
Qed.

Lemma binOf_mono (a b : DataPoint.t) :
  byTime a b -> binOf p a <= binOf p b.
Proof.
  unfold byTime, binOf. intros H. apply Qceiling_resp_le in H. lia.
Qed.

Lemma sorted_bins_le (l : list DataPoint.t) :
  StronglySorted byTime l -> StronglySorted Z.le (map (binOf p) l).
Proof.
  induction 1 as [|a l _ IH Hall]; simpl; constructor; auto.
  rewrite Forall_forall in *. intros x Hx.
  apply in_map_iff in Hx as (dp & <- & Hdp).
  apply binOf_mono. now apply Hall.
Qed.

Lemma increasing_of_NoDup (l : list Z) :
  StronglySorted Z.le l -> NoDup l -> StronglySorted Z.lt l.
Proof.
  induction 1 as [|a l _ IH Hall]; intros N; constructor.
  - apply IH. now inversion N.
  - inversion N as [|? ? Hnotin _]; subst.
    rewrite Forall_forall in *. intros x Hx.
    specialize (Hall x Hx).
    assert (a <> x) by (intros ->; contradiction). lia.
Qed.

(** Transitions that fall in increasing bins are appended one by one. *)
Lemma fold_insert_increasing (l : list DataPoint.t) : forall (m : QMap),
  StronglySorted Z.lt (map (binOf p) l) ->
  Forall (fun dp => 0 <= binOf p dp) l ->
  Forall (fun dp => Forall (binKey 0 (binOf p dp)) m) l ->
  fold_left (insertAt p) l m = m ++ map (entryOf p) l.
Proof.
  induction l as [|dp l IH]; intros m S Hpos Hm; simpl.
  - now rewrite app_nil_r.
  - inversion S as [|? ? S' Hlt]; subst.
    inversion Hpos as [|? ? Hp Hpos']; subst.
    inversion Hm as [|? ? Hm1 Hm']; subst.
    unfold insertAt at 2, entryOf at 1 2. cbn [fst snd].
    rewrite (qmap_insert_last _ _ m Hm1).
    rewrite IH; auto.
    + rewrite <- app_assoc. reflexivity.
    + rewrite Forall_forall in *. intros x Hx.
      assert (L : binOf p dp < binOf p x).
      { apply Hlt. apply in_map_iff. eauto. }
      apply Forall_app. split.
      * eapply Forall_impl; [|exact (Hm' x Hx)].
        intros e. apply binKey_weaken. lia.
      * constructor; [|constructor].
        exists (binOf p dp). split; [lia | reflexivity].
Qed.

Lemma find_increasing (l : list DataPoint.t) :
  StronglySorted Z.lt (map (binOf p) l) ->
  forall dp, In dp l ->
    qmap_find (inject_Z (binOf p dp) / 60) (map (entryOf p) l)
    = DataPoint.inter dp.
Proof.
  induction l as [|a l IH]; intros S dp Hin; [inversion Hin|].
  inversion S as [|? ? S' Hlt]; subst.
  destruct Hin as [->|Hin].
  - simpl. now rewrite Qeq_bool_refl.
  - simpl map. unfold entryOf at 1.
    rewrite qmap_find_other; [now apply IH|].
    rewrite Forall_forall in Hlt.
    assert (binOf p a < binOf p dp)
      by (apply Hlt; apply in_map_iff; eauto).
    lia.
Qed.


End Markers.



(** ** [setYMax] *)

Lemma max_cases (a b : Q) : max a b = a \/ max a b = b.
Proof. unfold max. destruct (Qlt_bool b a); auto. Qed.

Lemma max_ge_l (a b : Q) : (a <= max a b)%Q.
Proof.
  unfold max. destruct (Qlt_bool b a) eqn:E; [apply Qle_refl|].
  unfold Qlt_bool in E. apply negb_false_iff, Qle_bool_iff in E. exact E.
Qed.

Lemma max_ge_r (a b : Q) : (b <= max a b)%Q.
Proof.
  unfold max. destruct (Qlt_bool b a) eqn:E; [|apply Qle_refl].
  apply Qlt_bool_iff in E. now apply Qlt_le_weak.
Qed.

Lemma fold_max_ge {A} (f : A -> Q) (l : list A) : forall m,
  (m <= fold_left (fun m a => max m (f a)) l m)%Q /\
  Forall (fun a => f a <= fold_left (fun m a => max m (f a)) l m)%Q l.
Proof.
  induction l as [|a l IH]; intros m; simpl.
  - split; [apply Qle_refl | constructor].
  - destruct (IH (max m (f a))) as [H1 H2]. split.
    + eapply Qle_trans; [apply max_ge_l | exact H1].
    + constructor; [|exact H2].
      eapply Qle_trans; [apply max_ge_r | exact H1].
Qed.

Lemma fold_max_attained {A} (f : A -> Q) (l : list A) : forall m,
  let r := fold_left (fun m a => max m (f a)) l m in
  r = m \/ exists a, In a l /\ r = f a.
Proof.
  induction l as [|a l IH]; intros m; simpl; [now left|].
  destruct (IH (max m (f a))) as [H|(b & Hb & H)].
  - destruct (max_cases m (f a)) as [E|E]; rewrite H, E.
    + now left.
    + right. exists a. auto.
  - right. exists b. auto.
Qed.

Section YMax.
Variable maxYValue : QwtPlotCurve.t -> Q.

Lemma setYMax_left (p : AllPlot) :
  QwtPlot.axisScale (plot (setYMax maxYValue p)) yLeft
  = (0%Q, (leftMax maxYValue p * (11 # 10))%Q) /\
  QwtPlot.axisTitle (plot (setYMax maxYValue p)) yLeft = leftTitle p /\
  QwtPlot.axisEnabled (plot (setYMax maxYValue p)) yRight
  = QwtPlotCurve.isVisible (speedCurve p).
Proof.
  unfold setYMax, leftMax, leftTitle, visibleLeft, leftCurves.
  cbn [filter fst].
  destruct (QwtPlotCurve.isVisible (wattsCurve p)),
           (QwtPlotCurve.isVisible (hrCurve p)),
           (QwtPlotCurve.isVisible (cadCurve p)),
           (QwtPlotCurve.isVisible (altCurve p)),
           (useMetricUnits p); repeat split; reflexivity.
Qed.

Lemma setXTitle_speedCurve (p : AllPlot) :
  speedCurve (setXTitle p) = speedCurve p.
Proof. unfold setXTitle. destruct (bydist p); reflexivity. Qed.

Lemma setYMax_speedCurve (p : AllPlot) :
  speedCurve (setYMax maxYValue p) = speedCurve p.
Proof. rewrite setYMax_only_plot. reflexivity. Qed.

Lemma load_speed_axis (p : AllPlot) (ride : RideFile.t) :
  QwtPlotCurve.yAxis (speedCurve (load p ride))
  = QwtPlotCurve.yAxis (speedCurve p).
Proof.
  unfold load.
  cbn [speedCurve set_arrays attachCurves detachCurves set_altCurve
       set_cadCurve set_speedCurve set_hrCurve set_wattsCurve set_plot].
  unfold attachIfPresent.
  match goal with
  | |- context [negb (empty ?a)] => destruct (negb (empty a))
  end; reflexivity.
Qed.

Lemma recalc_speed_axis (p p' : AllPlot) :
  recalc maxYValue p = Ok p' ->
  QwtPlotCurve.yAxis (speedCurve p') = QwtPlotCurve.yAxis (speedCurve p).
Proof.
  intros H. apply recalc_frame in H as (_ & _ & F).
  apply flags_inv in F as (_ & _ & F & _).
  unfold curveFlags in F. now inversion F.
Qed.

Lemma exec_speed_axis (p p' : AllPlot) (c : Call) :
  exec maxYValue p c = Ok p' ->
  QwtPlotCurve.yAxis (speedCurve p') = QwtPlotCurve.yAxis (speedCurve p).
Proof.
  destruct c; cbn [exec]; intros H.
  - unfold setData in H. destruct (RideItem.ride item) as [ride|].
    + rewrite (recalc_speed_axis _ _ H), load_speed_axis. reflexivity.
    + inversion H. reflexivity.
  - unfold showPower in H. rewrite (recalc_speed_axis _ _ H).
    now rewrite setYMax_speedCurve.
  - inversion H. unfold showHr. now rewrite setYMax_speedCurve.
  - inversion H. unfold showSpeed. now rewrite setYMax_speedCurve.
  - inversion H. unfold showCad. now rewrite setYMax_speedCurve.
  - inversion H. unfold showAlt. now rewrite setYMax_speedCurve.
  - inversion H. reflexivity.
  - unfold setSmoothing in H. now rewrite (recalc_speed_axis _ _ H).
  - unfold setByDistance in H. rewrite (recalc_speed_axis _ _ H).
    now rewrite setXTitle_speedCurve.
Qed.

Lemma run_speed_axis (cs : list Call) : forall p p',
  run maxYValue p cs = Ok p' ->
  QwtPlotCurve.yAxis (speedCurve p') = QwtPlotCurve.yAxis (speedCurve p).
Proof.
  induction cs as [|c cs IH]; simpl; intros p p' H.
  - now inversion H.
  - destruct (exec maxYValue p c) as [q|f] eqn:E; simpl in H;
      [|discriminate].
    rewrite (IH _ _ H). now apply (exec_speed_axis p q c).
Qed.

(** Claim C3, amended.  In every state [p] reached from the constructor,
    [setYMax] scales the left axis to [0, 1.1 * m], where [m] is the
    largest of 0 and the maximum y-values of the visible curves among
    power, heart rate, cadence and altitude: [m] bounds each of them,
    is at least 0, and is 0 or one of them.  The left title is the
    unit names of exactly those visible curves joined by " / ".  The
    speed curve has no part in either (replacing it changes neither):
    it is plotted against the right axis, which is enabled exactly
    when the speed curve is visible. *)
Theorem setYMax_left_axis (u : string) (cs : list Call) (p : AllPlot) :
  run maxYValue (newAllPlot u) cs = Ok p ->
  let q := plot (setYMax maxYValue p) in
  let m := leftMax maxYValue p in
  QwtPlot.axisScale q yLeft = (0%Q, (m * (11 # 10))%Q) /\
  (0 <= m)%Q /\
  (forall c name, In (c, name) (visibleLeft p) -> (maxYValue c <= m)%Q) /\
  (m = 0%Q \/ exists c name, In (c, name) (visibleLeft p) /\ m = maxYValue c) /\
  (forall c name,
      In (c, name) (visibleLeft p) <->
      In (c, name) (leftCurves p) /\ QwtPlotCurve.isVisible c = true) /\
  QwtPlot.axisTitle q yLeft
  = String.concat " / " (map snd (visibleLeft p)) /\
  (forall c,
      let q' := plot (setYMax maxYValue (set_speedCurve c p)) in
      QwtPlot.axisScale q' yLeft = QwtPlot.axisScale q yLeft /\
      QwtPlot.axisTitle q' yLeft = QwtPlot.axisTitle q yLeft) /\
  QwtPlotCurve.yAxis (speedCurve p) = yRight /\
  QwtPlot.axisEnabled q yRight = QwtPlotCurve.isVisible (speedCurve p).
Proof.
  intros Hrun q m.
  destruct (setYMax_left p) as (Hs & Ht & He).
  destruct (fold_max_ge (fun cu => maxYValue (fst cu)) (visibleLeft p) 0%Q)
    as [G0 G].
  split; [exact Hs|]. split; [exact G0|].
  split.
  { intros c name Hin. rewrite Forall_forall in G.
    apply (G (c, name) Hin). }
  split.
  { destruct (fold_max_attained (fun cu => maxYValue (fst cu))
                (visibleLeft p) 0%Q) as [E|([c name] & Hin & E)].
    - now left.
    - right. exists c, name. auto. }
  split.
  { intros c name. unfold visibleLeft. rewrite filter_In. reflexivity. }
  split; [exact Ht|].
  split.
  { intros c q'.
    destruct (setYMax_left (set_speedCurve c p)) as (Hs' & Ht' & _).
    unfold q', q. rewrite Hs', Ht', Hs, Ht. split; reflexivity. }
  split; [|exact He].
  rewrite (run_speed_axis cs _ _ Hrun). reflexivity.
Qed.

End YMax.

Lemma setYMax_left_axis_witness :
  QwtPlot.axisScale
    (plot (setYMax Ex.maxY
             (Ex.after (newAllPlot "Metric") [SetData Ex.lowItem]))) yLeft
  = (0%Q,
     (leftMax Ex.maxY (Ex.after (newAllPlot "Metric") [SetData Ex.lowItem])
      * (11 # 10))%Q).
Proof.
  assert (R : run Ex.maxY (newAllPlot "Metric") [SetData Ex.lowItem]
              = Ok (Ex.after (newAllPlot "Metric") [SetData Ex.lowItem])).
  { vm_compute. reflexivity. }
  destruct (setYMax_left_axis Ex.maxY "Metric" [SetData Ex.lowItem] _ R)
    as (S & _).
  exact S.
Defined.

(** In a plot whose visible curves have no data Qwt reports -1 as every
    maximum y-value: the left axis is scaled to [0, 0], not to
    [0, 1.1 * (-1)]. *)
Lemma setYMax_left_axis_counterexample :
  let p := newAllPlot "Metric" in
  let q := plot (setYMax Ex.maxY p) in
  QwtPlotCurve.isVisible (wattsCurve p) = true /\
  (curvesMax Ex.maxY p == -1)%Q /\
  (snd (QwtPlot.axisScale q yLeft) == 0)%Q /\
  ~ (snd (QwtPlot.axisScale q yLeft) == curvesMax Ex.maxY p * (11 # 10))%Q.
Proof.
  cbv zeta. split; [reflexivity|]. split; [vm_compute; reflexivity|].
  split; [vm_compute; reflexivity|]. vm_compute. discriminate.
Qed.

(** ** Zone shading *)

Lemma somes_map_filter {A B} (f : A -> bool) (g : A -> B) (l : list A) :
  AllPlotBackground.somes (map (fun a => if f a then Some (g a) else None) l)
  = map g (filter f l).
Proof.
  induction l as [|a l IH]; simpl; [reflexivity|].
  destruct (f a); simpl; now rewrite IH.
Qed.

Section Shading.
Variable maxYValue : QwtPlotCurve.t -> Q.
Variable zoneColor : Z -> Z -> QColor.

Lemma band_spec yMap rect lows z :
  AllPlotBackground.band zoneColor yMap rect lows z
  = if bandTop yMap rect lows z <=? bandBottom yMap lows z
    then Some (bandRect yMap rect lows z, shade zoneColor lows z)
    else None.
Proof.
  unfold AllPlotBackground.band, bandRect, shade.
  unfold bandTop, bandBottom, lowRow, num_zones.
  destruct (z + 1 <? Z.of_nat (length lows)); reflexivity.
Qed.

Lemma draw_spec (p : AllPlot) yMap rect item zones :
  rideItem p = Some item ->
  RideItem.zones item = Some (Some zones) ->
  shadeZones p = true ->
  0 <= RideItem.zoneRange item ->
  let lows := Zones.getZoneLows zones (RideItem.zoneRange item) in
  AllPlotBackground.draw zoneColor p yMap rect
  = map (fun z => (bandRect yMap rect lows z, shade zoneColor lows z))
      (filled yMap rect lows).
Proof.
  intros Hi Hz Hs Hr lows. unfold AllPlotBackground.draw.
  rewrite Hi, Hz, Hs.
  replace (0 <=? RideItem.zoneRange item) with true
    by (symmetry; now apply Z.leb_le).
  cbn [andb]. fold lows. unfold filled, num_zones.
  rewrite <- somes_map_filter.
  destruct (0 <? Z.of_nat (length lows)) eqn:E.
  - f_equal. apply map_ext. intros z. apply band_spec.
  - apply Z.ltb_ge in E. destruct lows; [reflexivity | simpl in E; lia].
Qed.

Lemma draw_off (p : AllPlot) yMap rect :
  shadeZones p = false -> AllPlotBackground.draw zoneColor p yMap rect = [].
Proof.
  intros H. unfold AllPlotBackground.draw. rewrite H.
  destruct (rideItem p) as [item|]; [|reflexivity].
  destruct (RideItem.zones item) as [[z|]|]; reflexivity.
Qed.

Lemma recalc_shade (p p' : AllPlot) :
  recalc maxYValue p = Ok p' -> shade_zones p' = shade_zones p.
Proof.
  intros H. apply recalc_frame in H as (_ & C & _).
  unfold config in C. now inversion C.
Qed.

Lemma exec_shade (p p' : AllPlot) (c : Call) :
  exec maxYValue p c = Ok p' ->
  shade_zones p'
  = match c with ShowPower id => id =? 0 | _ => shade_zones p end.
Proof.
  destruct c; cbn [exec]; intros H.
  - unfold setData in H. destruct (RideItem.ride item) as [ride|].
    + now rewrite (recalc_shade _ _ H).
    + inversion H. reflexivity.
  - unfold showPower in H. rewrite (recalc_shade _ _ H).
    now rewrite setYMax_only_plot.
  - inversion H. unfold showHr. now rewrite setYMax_only_plot.
  - inversion H. unfold showSpeed. now rewrite setYMax_only_plot.
  - inversion H. unfold showCad. now rewrite setYMax_only_plot.
  - inversion H. unfold showAlt. now rewrite setYMax_only_plot.
  - inversion H. reflexivity.
  - unfold setSmoothing in H. now rewrite (recalc_shade _ _ H).
  - unfold setByDistance in H. rewrite (recalc_shade _ _ H).
    unfold setXTitle. cbn [bydist set_bydist].
    destruct (id =? 1); reflexivity.
Qed.

Lemma run_shade (cs : list Call) : forall p p' d,
  shade_zones p = shadeOf d ->
  run maxYValue p cs = Ok p' ->
  shade_zones p' = shadeOf (lastShowPower cs d).
Proof.
  induction cs as [|c cs IH]; simpl; intros p p' d Hd H.
  - inversion H; subst. exact Hd.
  - destruct (exec maxYValue p c) as [q|f] eqn:E; simpl in H;
      [|discriminate].
    apply exec_shade in E.
    destruct c; apply (IH q p'); auto; rewrite E; auto.
Qed.

(** Claim C6, amended.  [shade_zones] is decided by the last call of
    [showPower]: it is set exactly when that call had [id == 0] (and
    is off before any such call).  Shading is active iff [shade_zones]
    is set and the power array is non-empty.  When it is active for a
    ride item with zones and a zone range of at least 0, the
    background fills, in zone order, the band of every zone whose top
    row is not below its bottom row -- the other zones are skipped --
    the band reaching from the row of the zone's low value up to the
    row of the next zone's low value, and up to the top of the canvas
    for the last zone.  When shading is not active nothing is
    filled. *)
Theorem zone_shading (u : string) (cs : list Call) (p : AllPlot)
    (yMap : Q -> Z) (rect : QRect) :
  run maxYValue (newAllPlot u) cs = Ok p ->
  shade_zones p = shadeOf (lastShowPower cs None) /\
  shadeZones p = shade_zones p && negb (empty (wattsArray p)) /\
  (shadeZones p = false ->
   AllPlotBackground.draw zoneColor p yMap rect = []) /\
  (forall item zones,
      rideItem p = Some item ->
      RideItem.zones item = Some (Some zones) ->
      shadeZones p = true ->
      0 <= RideItem.zoneRange item ->
      let lows := Zones.getZoneLows zones (RideItem.zoneRange item) in
      let n := Z.of_nat (length lows) in
      let row z := yMap (inject_Z (nth (Z.to_nat z) lows 0)) in
      AllPlotBackground.draw zoneColor p yMap rect
      = map (fun z => (bandRect yMap rect lows z, shade zoneColor lows z))
          (filled yMap rect lows) /\
      (forall z,
          In z (filled yMap rect lows) <->
          0 <= z < n /\
          top (bandRect yMap rect lows z)
          <= bottom (bandRect yMap rect lows z)) /\
      (forall z,
          bottom (bandRect yMap rect lows z) = row z /\
          top (bandRect yMap rect lows z)
          = (if z + 1 <? n then row (z + 1) else top rect) /\
          left (bandRect yMap rect lows z) = left rect /\
          right (bandRect yMap rect lows z) = right rect)).
Proof.
  intros Hrun.
  split; [apply (run_shade cs (newAllPlot u) p None); auto|].
  split; [reflexivity|].
  split; [apply draw_off|].
  intros item zones Hi Hz Hs Hr lows n row.
  split; [now apply draw_spec|]. split.
  - intros z. unfold filled. rewrite filter_In, Z.leb_le.
    unfold upto, num_zones. fold n. rewrite in_map_iff.
    cbn [top bottom bandRect]. split.
    + intros [(k & <- & Hk) H]. apply in_seq in Hk. split; [lia | exact H].
    + intros [Hz' H]. split; [|exact H].
      exists (Z.to_nat z). split; [lia|]. apply in_seq. lia.
  - intros z. repeat split.
Qed.

End Shading.

Lemma zone_shading_witness :
  length (AllPlotBackground.draw Ex4.color Ex4.shaded Ex4.tallRows
            Ex4.tallCanvas)
  = 3%nat.
Proof.
  assert (Hr : 0 <= RideItem.zoneRange Ex4.zonedItem) by apply Z.le_refl.
  assert (R : run Ex.maxY (newAllPlot "Metric")
                [SetData Ex4.zonedItem; ShowPower 0]
              = Ok Ex4.shaded) by (vm_compute; reflexivity).
  assert (Hi : rideItem Ex4.shaded = Some Ex4.zonedItem)
    by (vm_compute; reflexivity).
  assert (Hs : shadeZones Ex4.shaded = true) by (vm_compute; reflexivity).
  pose proof (zone_shading Ex.maxY Ex4.color "Metric" _ _ Ex4.tallRows
                Ex4.tallCanvas R) as (_ & _ & _ & D).
  destruct (D Ex4.zonedItem Ex4.zones3 Hi eq_refl Hs Hr) as (E & _).
  rewrite E. vm_compute. reflexivity.
Defined.

(** Three zones, the last starting at 300 W, on a canvas that shows 0 to
    100 W: the top zone lies above the canvas and its band is not
    filled. *)
Lemma zone_shading_counterexample :
  shadeZones Ex4.shaded = true /\
  length (Zones.getZoneLows Ex4.zones3 0) = 3%nat /\
  map fst (AllPlotBackground.draw Ex4.color Ex4.shaded Ex4.rows Ex4.canvas)
  = [mkQRect 0 (-50) 200 100; mkQRect 0 (-200) 200 (-50)].
Proof. repeat split; vm_compute; reflexivity. Qed.

(** ** The grid when the window fits the ride *)

Lemma initBody_Ok (n k : Z) (v v' : Smooth) :
  Lengths n v -> initBody k v = Ok v' ->
  0 <= k < n /\ v' = initWritten k v.
Proof.
  intros L H. pose proof L as [A B C D E F G].
  assert (R : 0 <= k < n).
  { unfold initBody in H. apply bind_Ok in H as (a & H & _).
    apply vset_Ok in H as [H _]. lia. }
  split; [exact R|].
  unfold initBody in H. rewrite !vset_in in H by lia.
  simpl in H. inversion H. reflexivity.
Qed.

Lemma Lengths_initWritten n k v : Lengths n v -> Lengths n (initWritten k v).
Proof.
  intros [A B C D E F G]. constructor; simpl; now rewrite length_upd.
Qed.

Lemma initBody_low (n k : Z) (v v' : Smooth) :
  Low n k v -> initBody k v = Ok v' -> Low n (k + 1) v'.
Proof.
  intros [L H] Hrun.
  destruct (initBody_Ok n k v v' L Hrun) as [R ->].
  split; [now apply Lengths_initWritten|].
  pose proof L as [A B C D E F G].
  intros j Hj. unfold initWritten.
  cbn [smoothTime smoothDistance].
  destruct (Z.eq_dec j k) as [->|Hne].
  - rewrite !vnth_upd_eq by lia. auto.
  - rewrite !vnth_upd_neq by lia. apply H. lia.
Qed.

Lemma mainBody_low (p : AllPlot) (n m k : Z) (s s' : Locals.t) :
  0 <= m <= k ->
  Low n m (Locals.vecs s) -> mainBody p k s = Ok s' ->
  Low n m (Locals.vecs s').
Proof.
  intros Hk [L H] Hrun. unfold mainBody in Hrun.
  destruct (expire _ _ _) as [t l].
  apply bind_Ok in Hrun as (v & Hstore & Hret). inversion Hret; subst s'.
  cbn [Locals.vecs]. rewrite consume_vecs in Hstore.
  destruct (store_Ok _ _ _ _ _ _ L Hstore) as (R & _ & ->).
  split; [now apply Lengths_written|].
  intros j Hj. unfold written. cbn [smoothTime smoothDistance].
  rewrite !vnth_upd_neq by lia. now apply H.
Qed.

Lemma QVector_Ok (n : Z) (x : list Q) :
  QVector n = Ok x -> 0 <= n /\ x = repeat 0%Q (Z.to_nat n).
Proof.
  unfold QVector. destruct (n <? 0) eqn:E; [discriminate|].
  intros H; inversion H. apply Z.ltb_ge in E. auto.
Qed.

Lemma smoothing_low (p : AllPlot) (s : Locals.t) :
  0 <= smooth p ->
  smoothing p = Ok s ->
  Low (rideTimeSecs p + 1) (Z.min (smooth p) (rideTimeSecs p))
    (Locals.vecs s).
Proof.
  intros Hsm H. unfold smoothing in H.
  apply bind_Ok in H as (sw & Hw & H). apply QVector_Ok in Hw as [Hn ->].
  apply bind_Ok in H as (sh & Hh & H). apply QVector_Ok in Hh as [_ ->].
  apply bind_Ok in H as (ss & Hss & H). apply QVector_Ok in Hss as [_ ->].
  apply bind_Ok in H as (sc & Hc & H). apply QVector_Ok in Hc as [_ ->].
  apply bind_Ok in H as (st & Ht & H). apply QVector_Ok in Ht as [_ ->].
  apply bind_Ok in H as (sd & Hd & H). apply QVector_Ok in Hd as [_ ->].
  apply bind_Ok in H as (sa & Ha & H). apply QVector_Ok in Ha as [_ ->].
  apply bind_Ok in H as (v & Hinit & Hmain).
  set (n := rideTimeSecs p + 1) in *.
  set (m := Z.min (smooth p) (rideTimeSecs p)) in *.
  assert (Lv : Low n (Z.max 0 m) v).
  { eapply (for_range_inv (Low n) initBody); [| |exact Hinit].
    - intros k t t' _. apply initBody_low.
    - split; [|intros j Hj; lia].
      constructor; simpl; rewrite repeat_length; lia. }
  assert (Lm : Low n m v).
  { destruct Lv as [L Hv]. split; [exact L|].
    intros j Hj. apply Hv. lia. }
  destruct (Z_lt_le_dec m 0) as [Neg|Pos].
  { assert (Ls : Lengths n (Locals.vecs s)).
    { eapply (for_range_inv (fun _ s => Lengths n (Locals.vecs s))
                (mainBody p)); [| |exact Hmain].
      - intros k t t' Hk L Hb.
        apply (mainBody_low p n 0 k t t' ltac:(lia)); auto.
        split; [exact L | intros j Hj; lia].
      - apply Lm. }
    split; [exact Ls | intros j Hj; lia]. }
  eapply (for_range_inv (fun _ s => Low n m (Locals.vecs s)) (mainBody p));
    [| |exact Hmain].
  - intros k t t' Hk. apply mainBody_low. unfold m. lia.
  - exact Lm.
Qed.

Section Grid.
Variable maxYValue : QwtPlotCurve.t -> Q.

Lemma setYMax_xBottom (p : AllPlot) :
  QwtPlot.axisScale (plot (setYMax maxYValue p)) xBottom
  = QwtPlot.axisScale (plot p) xBottom.
Proof.
  unfold setYMax.
  destruct (QwtPlotCurve.isVisible (wattsCurve p)),
           (QwtPlotCurve.isVisible (hrCurve p)),
           (QwtPlotCurve.isVisible (cadCurve p)),
           (QwtPlotCurve.isVisible (altCurve p)); reflexivity.
Qed.

Lemma plot_set_d_mrk m (q : AllPlot) : plot (set_d_mrk m q) = plot q.
Proof. reflexivity. Qed.

Lemma plot_refreshZoneLabels (q : AllPlot) :
  plot (refreshZoneLabels q) = plot q.
Proof. rewrite refreshZoneLabels_only_labels. reflexivity. Qed.

Lemma axisScale_set_plot a lo hi q0 (q : AllPlot) :
  QwtPlot.axisScale (plot (set_plot (QwtPlot.setAxisScale a lo hi q0) q)) a
  = (lo, hi).
Proof. destruct a; reflexivity. Qed.

Lemma finished_xBottom (p : AllPlot) (s : Locals.t) :
  QwtPlot.axisScale (plot (finished maxYValue p s)) xBottom
  = (0%Q, if bydist p then totalDist (Locals.totals s)
          else vnth (smoothTime (Locals.vecs s)) (rideTimeSecs p)).
Proof.
  unfold finished. cbv zeta.
  rewrite plot_set_d_mrk, plot_refreshZoneLabels, setYMax_xBottom.
  apply axisScale_set_plot.
Qed.


End Grid.

(** ** Instances on the example rides *)

(** Facts about closed terms, by evaluation. *)
Ltac evaluated :=
  vm_compute; repeat constructor;
  try (let H := fresh in intro H; discriminate H).


(** ** States reached through the public slots *)

Lemma WF_arrays (p p' : AllPlot) : arrays p' = arrays p -> WF p -> WF p'.
Proof.
  intros E [A B C D F G H I].
  apply arrays_inv in E as (Ew & Eh & Es & Ec & Ea & Et & Ed & Ei & El).
  constructor; congruence.
Qed.

Lemma WF_new (u : string) : WF (newAllPlot u).
Proof.
  unfold newAllPlot, setXTitle; simpl.
  constructor; simpl; try reflexivity; now left.
Qed.

Lemma points_arrays (p q : AllPlot) : arrays p = arrays q -> points p = points q.
Proof.
  intros E.
  apply arrays_inv in E as (Ew & Eh & Es & Ec & Ea & Et & Ed & Ei & El).
  unfold points, dataPoint. now rewrite Ew, Eh, Es, Ec, Ea, Et, Ei, El.
Qed.

Section Reachable.
Variable maxYValue : QwtPlotCurve.t -> Q.

Lemma setData_WF (p p' : AllPlot) (item : RideItem.t) :
  setData maxYValue p item = Ok p' -> WF p -> WF p'.
Proof.
  unfold setData. destruct (RideItem.ride item) as [ride|]; intros H W.
  - apply recalc_frame in H as [E _].
    eapply WF_arrays; [exact E | apply load_WF].
  - inversion H; subst; clear H. destruct W as [A B C D F G I J].
    constructor; simpl; auto. now left.
Qed.

Lemma exec_WF (p p' : AllPlot) (c : Call) :
  exec maxYValue p c = Ok p' -> WF p -> WF p'.
Proof.
  destruct c; intros H W;
    try (eapply WF_arrays; [|exact W];
         eapply exec_arrays; [|exact H]; reflexivity).
  simpl in H. eapply setData_WF; eauto.
Qed.

Lemma run_WF (cs : list Call) : forall p p',
  run maxYValue p cs = Ok p' -> WF p -> WF p'.
Proof.
  induction cs as [|c cs IH]; simpl; intros p p' H W.
  - inversion H; subst; exact W.
  - destruct (exec maxYValue p c) as [q|f] eqn:E; simpl in H;
      [|discriminate].
    eapply IH; eauto using exec_WF.
Qed.


Lemma Sane_frame (p p' : AllPlot) :
  arrays p' = arrays p -> config p' = config p -> Sane p -> Sane p'.
Proof.
  intros A C [S T].
  apply arrays_inv in A as (_ & _ & _ & _ & _ & Et & _).
  unfold config in C. inversion C. unfold Sane. split; congruence.
Qed.

Lemma Sane_rideTimeSecs (p : AllPlot) : Sane p -> 0 <= rideTimeSecs p.
Proof.
  intros [_ T]. unfold rideTimeSecs.
  assert (H : (0 <= nth (arrayLength p - 1) (timeArray p) 0)%Q).
  { destruct (nth_in_or_default (arrayLength p - 1) (timeArray p) 0%Q)
      as [I | ->]; [|apply Qle_refl].
    rewrite Forall_forall in T. now apply T. }
  apply Qceiling_resp_le in H. exact H.
Qed.

(** With a window of at least one second and timestamps that are not
    negative, [recalc] returns. *)
Lemma recalc_total (p : AllPlot) :
  Sane p -> exists p', recalc maxYValue p = Ok p' /\ Sane p'.
Proof.
  intros S.
  assert (R : exists p', recalc maxYValue p = Ok p').
  { destruct (empty (timeArray p)) eqn:E.
    - exists p. unfold recalc. now rewrite E.
    - destruct (rideTimeSecs p >? limit) eqn:L.
      + unfold recalc. rewrite E, L. eexists; reflexivity.
      + destruct (recalc_spec maxYValue p E (proj1 S) (Sane_rideTimeSecs p S))
          as (s & _ & _ & Hr).
        { rewrite Z.gtb_ltb in L. now apply Z.ltb_ge. }
        eexists; exact Hr. }
  destruct R as [p' R]. exists p'. split; [exact R|].
  destruct (recalc_frame maxYValue p p' R) as (A & C & _).
  now apply (Sane_frame p p').
Qed.

Lemma Sane_setYMax (p : AllPlot) : Sane p -> Sane (setYMax maxYValue p).
Proof. rewrite setYMax_only_plot. exact (fun H => H). Qed.

Lemma exec_Sane (p : AllPlot) (c : Call) :
  saneCall c = true -> Sane p ->
  exists p', exec maxYValue p c = Ok p' /\ Sane p'.
Proof.
  intros Hc S. destruct c as [item|id|st|st|st|st|st|v|id]; cbn [exec].
  - unfold setData. cbn [saneCall] in Hc.
    destruct (RideItem.ride item) as [ride|].
    + apply recalc_total. destruct S as [S T]. split.
      * exact S.
      * rewrite load_timeArray. apply Forall_forall. intros t Ht.
        apply in_map_iff in Ht as (pt & <- & Hpt).
        rewrite forallb_forall in Hc. apply Qle_bool_iff. now apply Hc.
    + eexists; split; [reflexivity|]. exact S.
  - unfold showPower. apply recalc_total, Sane_setYMax. exact S.
  - eexists; split; [reflexivity|]. unfold showHr. now apply Sane_setYMax.
  - eexists; split; [reflexivity|]. unfold showSpeed. now apply Sane_setYMax.
  - eexists; split; [reflexivity|]. unfold showCad. now apply Sane_setYMax.
  - eexists; split; [reflexivity|]. unfold showAlt. now apply Sane_setYMax.
  - eexists; split; [reflexivity|]. exact S.
  - unfold setSmoothing. apply recalc_total. destruct S as [_ T].
    split; [|exact T]. cbn [saneCall] in Hc. cbn [smooth set_smooth].
    now apply Z.leb_le.
  - unfold setByDistance. apply recalc_total.
    unfold setXTitle. cbn [bydist set_bydist].
    destruct (id =? 1); exact S.
Qed.


(** Property X3.  A last timestamp of -1 or less is not guarded
    against.  When [ceil(last) + 1], the size given to the vectors, is
    negative, [recalc] stops at the first [QVector<double>(n)]; when it
    is 0 (and [smooth >= 0]) the vectors are empty and both loops are
    skipped: in time mode the read [smoothTime[rideTimeSecs]] for the
    axis scale is then at index -1, in distance mode nothing is read
    and [recalc] returns. *)
Theorem recalc_negative_last (p : AllPlot) :
  empty (timeArray p) = false ->
  rideTimeSecs p < 0 ->
  (rideTimeSecs p < -1 ->
   recalc maxYValue p = Err (NegativeSize (rideTimeSecs p + 1))) /\
  (rideTimeSecs p = -1 -> 0 <= smooth p -> bydist p = false ->
   recalc maxYValue p = Err (OutOfRange Read SmoothTime (-1))) /\
  (rideTimeSecs p = -1 -> 0 <= smooth p -> bydist p = true ->
   exists p', recalc maxYValue p = Ok p' /\ d_mrk p' = [] /\
              QwtPlot.axisScale (plot p') xBottom = (0, 0)%Q).
Proof.
  intros Hne Hneg.
  assert (L : (rideTimeSecs p >? limit) = false).
  { rewrite Z.gtb_ltb. apply Z.ltb_ge. unfold limit. lia. }
  assert (S0 : rideTimeSecs p = -1 -> 0 <= smooth p ->
               smoothing p
               = Ok (Locals.mk 0 (mkTotals 0 0 0 0 0 0) [] 0 []
                       (mkSmooth [] [] [] [] [] [] []))).
  { intros R Hs. unfold smoothing. rewrite R.
    change (-1 + 1) with 0. unfold QVector. change (0 <? 0) with false.
    cbn [Z.to_nat repeat bind]. unfold for_range.
    replace (Z.to_nat (Z.min (smooth p) (-1) - 0)) with 0%nat by lia.
    cbn [iter bind].
    replace (Z.to_nat (0 - smooth p)) with 0%nat by lia.
    reflexivity. }
  split; [|split].
  - intros R. unfold recalc. rewrite Hne, L. unfold smoothing, QVector.
    replace (rideTimeSecs p + 1 <? 0) with true
      by (symmetry; apply Z.ltb_lt; lia).
    reflexivity.
  - intros R Hs Hb. unfold recalc. rewrite Hne, L, (S0 R Hs), Hb, R.
    reflexivity.
  - intros R Hs Hb. unfold recalc. rewrite Hne, L, (S0 R Hs), Hb.
    cbn [bind Locals.vecs Locals.totals Locals.interList totalDist keys
         map mapM].
    eexists. split; [reflexivity|]. split; [reflexivity|].
    rewrite plot_set_d_mrk, plot_refreshZoneLabels, setYMax_xBottom.
    apply axisScale_set_plot.
Qed.

(** Property X4.  [setData] with a ride replaces whatever was loaded
    before: afterwards [arrayLength] is the number of points of the
    ride, the time and interval arrays hold the timestamps and the
    interval numbers as they are in the ride (timestamps are not
    clamped), the power, heart-rate and cadence arrays hold
    [max(0, v)] for each point when their channel is present and are
    empty otherwise, and the item is remembered.  Nothing of the
    previous arrays is left, also when the previous ride was longer. *)
Theorem setData_replaces (p p' : AllPlot) (item : RideItem.t)
    (ride : RideFile.t) :
  RideItem.ride item = Some ride ->
  setData maxYValue p item = Ok p' ->
  let present := RideFile.areDataPresent ride in
  let pts := RideFile.dataPoints ride in
  arrayLength p' = length pts /\
  timeArray p' = map RideFilePoint.secs pts /\
  interArray p' = map RideFilePoint.interval pts /\
  wattsArray p'
  = (if RideFileDataPresent.watts present
     then map (fun pt => max 0 (RideFilePoint.watts pt)) pts else []) /\
  hrArray p'
  = (if RideFileDataPresent.hr present
     then map (fun pt => max 0 (RideFilePoint.hr pt)) pts else []) /\
  cadArray p'
  = (if RideFileDataPresent.cad present
     then map (fun pt => max 0 (RideFilePoint.cad pt)) pts else []) /\
  points p' = map (toDataPoint (useMetricUnits p) present) pts /\
  rideItem p' = Some item.
Proof.
  intros Hride H present pts.
  destruct (setData_frame maxYValue p p' item ride Hride H) as (A & C & _).
  cbv zeta in A, C.
  pose proof (points_arrays _ _ A) as P. rewrite points_load in P.
  apply arrays_inv in A as (Ew & Eh & _ & Ec & _ & Et & _ & Ei & El).
  rewrite El, Et, Ei, Ew, Eh, Ec.
  rewrite load_arrayLength, load_timeArray, load_interArray, load_wattsArray,
    load_hrArray, load_cadArray.
  repeat (split; [reflexivity|]).
  split; [exact P|].
  rewrite load_config in C. unfold config in C. now inversion C.
Qed.

End Reachable.



Lemma recalc_negative_last_witness :
  recalc Ex.maxY Ex5.early = Err (NegativeSize (-2)).
Proof.
  assert (E : empty (timeArray Ex5.early) = false) by evaluated.
  assert (N : rideTimeSecs Ex5.early < 0) by evaluated.
  assert (K : rideTimeSecs Ex5.early < -1) by evaluated.
  assert (V : rideTimeSecs Ex5.early + 1 = -2) by evaluated.
  destruct (recalc_negative_last Ex.maxY Ex5.early E N) as (A & _).
  pose proof (A K) as H. rewrite V in H. exact H.
Defined.

Lemma setData_replaces_witness :
  arrayLength (Ex.after Ex5.lapLoaded [SetData Ex.lowItem])
  = length (RideFile.dataPoints Ex.lowRide) /\
  (length (RideFile.dataPoints Ex.lowRide) < arrayLength Ex5.lapLoaded)%nat.
Proof.
  assert (R : setData Ex.maxY Ex5.lapLoaded Ex.lowItem
              = Ok (Ex.after Ex5.lapLoaded [SetData Ex.lowItem]))
    by evaluated.
  destruct (setData_replaces Ex.maxY Ex5.lapLoaded
              (Ex.after Ex5.lapLoaded [SetData Ex.lowItem]) Ex.lowItem
              Ex.lowRide eq_refl R) as (A & _).
  split; [exact A | vm_compute; reflexivity].
Defined.

(** ** Invariants of the two loops *)

Lemma reading_dataPoint (c : Channel) (p : AllPlot) (i : nat) :
  reading c (dataPoint p i)
  = if negb (empty (samples c p)) then nth i (samples c p) 0%Q else 0%Q.
Proof. destruct c; reflexivity. Qed.

Lemma Sums_total (c : Channel) (t : Totals) (l : list DataPoint.t) :
  Sums t l -> (total c t == Qsum (map (reading c) l))%Q.
Proof. intros [A B C D E]. destruct c; assumption. Qed.

Lemma smoothed_written (c : Channel) (k : Z) t l v :
  smoothed c (written k t l v)
  = upd (Z.to_nat k) (storedAt c k t l v) (smoothed c v).
Proof. unfold written, storedAt. destruct c, (empty l); reflexivity. Qed.

Lemma smoothed_initWritten (c : Channel) (k : Z) v :
  smoothed c (initWritten k v) = upd (Z.to_nat k) 0%Q (smoothed c v).
Proof. destruct c; reflexivity. Qed.

Lemma Lengths_smoothed (c : Channel) (n : Z) (v : Smooth) :
  Lengths n v -> Z.of_nat (length (smoothed c v)) = n.
Proof. intros [A B C D E F G]. destruct c; assumption. Qed.

Lemma mainBody_vecs (p : AllPlot) (n k : Z) (s s' : Locals.t) :
  Lengths n (Locals.vecs s) -> mainBody p k s = Ok s' ->
  0 <= k < n /\ (empty (Locals.list s') = true -> 1 <= k) /\
  Locals.vecs s'
  = written k (Locals.totals s') (Locals.list s') (Locals.vecs s).
Proof.
  intros L Hrun. unfold mainBody in Hrun.
  destruct (expire _ _ _) as [t l].
  apply bind_Ok in Hrun as (v & Hstore & Hret). inversion Hret; subst s'.
  cbn [Locals.vecs Locals.totals Locals.list].
  rewrite consume_vecs in Hstore.
  destruct (store_Ok _ _ _ _ _ _ L Hstore) as (R & E & ->). auto.
Qed.

(** Induction over the two loops of [recalc]: [I] is kept by the
    initialising loop, [J] by the main loop. *)
Lemma smoothing_rect (p : AllPlot) (s : Locals.t)
    (I : Smooth -> Prop) (J : Z -> Locals.t -> Prop) :
  (forall z, z = repeat 0%Q (Z.to_nat (rideTimeSecs p + 1)) ->
     I (mkSmooth z z z z z z z)) ->
  (forall k v, 0 <= k < rideTimeSecs p + 1 ->
     Lengths (rideTimeSecs p + 1) v -> I v -> I (initWritten k v)) ->
  (forall v, Lengths (rideTimeSecs p + 1) v -> I v ->
     J (smooth p) (Locals.mk 0 (mkTotals 0 0 0 0 0 0) [] 0 [] v)) ->
  (forall k t t', smooth p <= k ->
     Lengths (rideTimeSecs p + 1) (Locals.vecs t) -> J k t ->
     mainBody p k t = Ok t' -> J (k + 1) t') ->
  smoothing p = Ok s ->
  0 <= rideTimeSecs p + 1 /\
  Lengths (rideTimeSecs p + 1) (Locals.vecs s) /\
  J (Z.max (smooth p) (rideTimeSecs p + 1)) s.
Proof.
  intros HI0 HI HJ0 HJ H. unfold smoothing in H.
  set (n := rideTimeSecs p + 1) in *.
  apply bind_Ok in H as (sw & Hw & H). apply QVector_Ok in Hw as [Hn ->].
  apply bind_Ok in H as (sh & Hh & H). apply QVector_Ok in Hh as [_ ->].
  apply bind_Ok in H as (ss & Hss & H). apply QVector_Ok in Hss as [_ ->].
  apply bind_Ok in H as (sc & Hc & H). apply QVector_Ok in Hc as [_ ->].
  apply bind_Ok in H as (st & Ht & H). apply QVector_Ok in Ht as [_ ->].
  apply bind_Ok in H as (sd & Hd & H). apply QVector_Ok in Hd as [_ ->].
  apply bind_Ok in H as (sa & Ha & H). apply QVector_Ok in Ha as [_ ->].
  apply bind_Ok in H as (v & Hinit & Hmain).
  assert (Iv : Lengths n v /\ I v).
  { eapply (for_range_inv (fun _ v => Lengths n v /\ I v) initBody);
      [| |exact Hinit].
    - intros k t t' _ [L It] Hb.
      destruct (initBody_Ok n k t t' L Hb) as [R ->].
      split; [now apply Lengths_initWritten | now apply HI].
    - split; [|now apply HI0].
      constructor; simpl; rewrite repeat_length; lia. }
  destruct Iv as [Lv Iv].
  split; [exact Hn|].
  eapply (for_range_inv (fun k s => Lengths n (Locals.vecs s) /\ J k s)
            (mainBody p)); [| |exact Hmain].
  - intros k t t' Hk [L Jt] Hb. split.
    + destruct (mainBody_vecs p n k t t' L Hb) as (_ & _ & ->).
      now apply Lengths_written.
    + apply (HJ k t t'); auto. lia.
  - split; [exact Lv | now apply HJ0].
Qed.

Lemma vnth_repeat (m : nat) (j : Z) : vnth (repeat 0%Q m) j = 0%Q.
Proof.
  unfold vnth. generalize (Z.to_nat j) as i. clear j.
  induction m as [|m IH]; intros [|i]; simpl; auto.
Qed.

Lemma vnth_upd_0 (l : list Q) (k j : Z) :
  vnth l j = 0%Q -> vnth (upd (Z.to_nat k) 0%Q l) j = 0%Q.
Proof.
  unfold vnth. generalize (Z.to_nat j) as i. generalize (Z.to_nat k) as m.
  clear. induction l as [|a l IH]; intros m i H.
  - destruct m, i; reflexivity.
  - destruct m as [|m], i as [|i]; simpl in *; auto.
Qed.

(** All the value vectors are still zero when the main loop starts,
    and the main loop writes at [smooth] and above only. *)
Lemma smoothing_zero_below (p : AllPlot) (s : Locals.t) :
  smoothing p = Ok s ->
  forall c j, 0 <= j < smooth p -> vnth (smoothed c (Locals.vecs s)) j = 0%Q.
Proof.
  intros H.
  destruct (smoothing_rect p s AllZero
              (fun _ s => forall c j, 0 <= j < smooth p ->
                            vnth (smoothed c (Locals.vecs s)) j = 0%Q))
    as (_ & _ & K); [| | | |exact H|exact K].
  - intros z -> c j. destruct c; apply vnth_repeat.
  - intros k v _ _ Z c j. rewrite smoothed_initWritten.
    apply vnth_upd_0, Z.
  - intros v _ Z c j _. apply Z.
  - intros k t t' Hk L Jt Hb c j Hj.
    destruct (mainBody_vecs p _ k t t' L Hb) as (R & _ & ->).
    rewrite smoothed_written, vnth_upd_neq by lia. now apply Jt.
Qed.

(** ** Bounds of the smoothed values *)

Lemma Forall_upd {A} (P : A -> Prop) (n : nat) (x : A) (l : list A) :
  P x -> Forall P l -> Forall P (upd n x l).
Proof.
  intros Hx H. revert n. induction H as [|a l Ha Hl IH]; intros n.
  - destruct n; constructor.
  - destruct n; simpl; constructor; auto.
Qed.

Lemma vnth_Forall (P : Q -> Prop) (l : list Q) (j : Z) :
  P 0%Q -> Forall P l -> P (vnth l j).
Proof.
  intros H0 H. unfold vnth.
  destruct (nth_in_or_default (Z.to_nat j) l 0%Q) as [I | ->]; [|exact H0].
  rewrite Forall_forall in H. now apply H.
Qed.

Lemma Qsum_bounds (lo hi : Q) (l : list Q) :
  Forall (between lo hi) l ->
  (inject_Z (Z.of_nat (length l)) * lo <= Qsum l
   <= inject_Z (Z.of_nat (length l)) * hi)%Q.
Proof.
  induction 1 as [|a l [Ha1 Ha2] _ [IH1 IH2]].
  - cbn [length Qsum fold_right Z.of_nat]. change (inject_Z 0) with 0%Q.
    split; lra.
  - cbn [length Qsum fold_right]. fold (Qsum l).
    rewrite Nat2Z.inj_succ. unfold Z.succ. rewrite inject_Z_plus.
    set (n := inject_Z (Z.of_nat (length l))) in *.
    change (inject_Z 1) with 1%Q.
    split.
    + setoid_replace ((n + 1) * lo)%Q with (n * lo + lo)%Q by ring. lra.
    + setoid_replace ((n + 1) * hi)%Q with (n * hi + hi)%Q by ring. lra.
Qed.

Lemma average_between (lo hi x : Q) (l : list Q) :
  l <> [] -> Forall (between lo hi) l -> (x == Qsum l)%Q ->
  between lo hi (x / inject_Z (Z.of_nat (length l))).
Proof.
  intros Hne H E. destruct (Qsum_bounds lo hi l H) as [B1 B2].
  assert (P : (0 < inject_Z (Z.of_nat (length l)))%Q).
  { destruct l; [congruence|]. rewrite <- (Zlt_Qlt 0). simpl. lia. }
  unfold between. rewrite E. split.
  - apply Qle_shift_div_l; [exact P|]. rewrite Qmult_comm. exact B1.
  - apply Qle_shift_div_r; [exact P|]. rewrite Qmult_comm. exact B2.
Qed.

Lemma takeWhile_In {A} (f : A -> bool) (l : list A) (a : A) :
  In a (takeWhile f l) -> In a l.
Proof.
  induction l as [|b l IH]; simpl; [tauto|].
  destruct (f b); simpl; [|tauto]. intros [->|H]; auto.
Qed.

Lemma dropWhile_In {A} (f : A -> bool) (l : list A) (a : A) :
  In a (dropWhile f l) -> In a l.
Proof.
  induction l as [|b l IH]; simpl; [tauto|].
  destruct (f b); simpl; auto.
Qed.

Lemma queue_In (p : AllPlot) (k : Z) (dp : DataPoint.t) :
  In dp (queue p k) -> exists i, dp = dataPoint p i.
Proof.
  intros H. apply dropWhile_In, takeWhile_In in H.
  unfold points in H. apply in_map_iff in H as (i & <- & _). now exists i.
Qed.

Section Bounds.
Variable maxYValue : QwtPlotCurve.t -> Q.
Variables (p : AllPlot) (c : Channel) (M : Q).
Hypothesis Hne : empty (timeArray p) = false.
Hypothesis Hsmooth : 1 <= smooth p.
Hypothesis Hrts : 0 <= rideTimeSecs p <= limit.
Hypothesis HM : (0 <= M)%Q.
Hypothesis Hsamples : Forall (between 0 M) (samples c p).

Lemma reading_between (i : nat) : between 0 M (reading c (dataPoint p i)).
Proof.
  rewrite reading_dataPoint.
  assert (Z0 : between 0 M 0) by (split; [apply Qle_refl | exact HM]).
  destruct (negb (empty (samples c p))); [|exact Z0].
  destruct (nth_in_or_default i (samples c p) 0%Q) as [I | ->]; [|exact Z0].
  rewrite Forall_forall in Hsamples. now apply Hsamples.
Qed.

Lemma storedAt_between (k : Z) (t : Totals) (v : Smooth) :
  Sums t (queue p k) ->
  Forall (between 0 M) (smoothed c v) ->
  between 0 M (storedAt c k t (queue p k) v).
Proof.
  intros S V. unfold storedAt.
  assert (Z0 : between 0 M 0) by (split; [apply Qle_refl | exact HM]).
  destruct (empty (queue p k)) eqn:E.
  - destruct c; try exact Z0. now apply vnth_Forall.
  - unfold size. rewrite <- (length_map (reading c)).
    apply average_between.
    + destruct (queue p k); [discriminate | simpl; congruence].
    + apply Forall_forall. intros x Hx.
      apply in_map_iff in Hx as (dp & <- & Hdp).
      destruct (queue_In p k dp Hdp) as [i ->]. apply reading_between.
    + now apply Sums_total.
Qed.


End Bounds.

Section Warmup.
Variable maxYValue : QwtPlotCurve.t -> Q.
Variable p : AllPlot.
Hypothesis Hne : empty (timeArray p) = false.
Hypothesis Hsmooth : 1 <= smooth p.
Hypothesis Hrts : 0 <= rideTimeSecs p <= limit.


End Warmup.



(** ** Altitude over gaps in the recording *)

Section Gaps.
Variable maxYValue : QwtPlotCurve.t -> Q.
Variable p : AllPlot.
Hypothesis Hne : empty (timeArray p) = false.
Hypothesis Hsorted : sortedByTime p.
Hypothesis Hlast : (lastTime p <= inject_Z (7 * 24 * 60 * 60))%Q.
Hypothesis Hsmooth : 1 <= smooth p <= rideTimeSecs p.


End Gaps.

(** ** The x-values in distance mode *)

Lemma seen_length_mono (p : AllPlot) (i j : Z) :
  i <= j -> (length (seen p i) <= length (seen p j))%nat.
Proof.
  intros H. unfold seen.
  rewrite (takeWhile_extend (upTo i) (upTo j) (points p)).
  - rewrite length_app. lia.
  - intros a. now apply upTo_mono.
Qed.

Section Distance.
Variable maxYValue : QwtPlotCurve.t -> Q.
Variable p : AllPlot.
Hypothesis Hne : empty (timeArray p) = false.
Hypothesis Hsmooth : 1 <= smooth p <= rideTimeSecs p.
Hypothesis Hhi : rideTimeSecs p <= limit.
Hypothesis Hlen : length (distanceArray p) = arrayLength p.
Hypothesis Hmono : StronglySorted Qle (distanceArray p).
Hypothesis Hnn : allNonNeg (distanceArray p).

Lemma distUpTo_mono (a b : nat) :
  (a <= b <= arrayLength p)%nat -> (distUpTo p a <= distUpTo p b)%Q.
Proof.
  intros H. destruct a as [|a], b as [|b]; simpl; try lia.
  - apply Qle_refl.
  - unfold allNonNeg in Hnn. rewrite Forall_forall in Hnn.
    apply Hnn, nth_In. lia.
  - apply (sorted_nth Qle 0%Q (distanceArray p) Qle_refl Hmono). lia.
Qed.


End Distance.



(** ** Markers of transitions that share a bin *)

Lemma lastPerBin_cons2 (p : AllPlot) (a b : DataPoint.t) l :
  lastPerBin p (a :: b :: l)
  = if binOf p a =? binOf p b then lastPerBin p (b :: l)
    else a :: lastPerBin p (b :: l).
Proof. reflexivity. Qed.

Lemma sorted_prefix {A} (R : A -> A -> Prop) (l1 l2 : list A) :
  StronglySorted R (l1 ++ l2) -> StronglySorted R l1.
Proof.
  induction l1 as [|a l1 IH]; simpl; intros H; [constructor|].
  inversion H as [|? ? S F]; subst. constructor; [now apply IH|].
  apply Forall_app in F. tauto.
Qed.

Lemma sorted_weaken {A} (R R' : A -> A -> Prop) (l : list A) :
  (forall a b, R a b -> R' a b) -> StronglySorted R l -> StronglySorted R' l.
Proof.
  intros H. induction 1 as [|a l _ IH F]; constructor; auto.
  eapply Forall_impl; [|exact F]. auto.
Qed.

Lemma key_compare_eq (b : Z) : (inject_Z b / 60 ?= inject_Z b / 60)%Q = Eq.
Proof. apply Qeq_alt. reflexivity. Qed.

Lemma key_compare_gt (a b : Z) :
  a < b -> (inject_Z b / 60 ?= inject_Z a / 60)%Q = Gt.
Proof. intros H. apply Qgt_alt. now apply key_lt. Qed.

Section PerBin.
Variable p : AllPlot.

Lemma lastPerBin_In (l : list DataPoint.t) (dp : DataPoint.t) :
  In dp (lastPerBin p l) -> In dp l.
Proof.
  induction l as [|a [|b l] IH]; [tauto | simpl; tauto |].
  rewrite lastPerBin_cons2.
  destruct (binOf p a =? binOf p b).
  - intros H. right. now apply IH.
  - intros [->|H]; [now left | right; now apply IH].
Qed.

(** Inserting the entry of a sample whose bin is not below those
    already there: the entry of the same bin is overwritten, or the
    new entry is appended. *)
Lemma insert_lastPerBin (l0 : list DataPoint.t) (dp : DataPoint.t) :
  StronglySorted (binLe p) (l0 ++ [dp]) ->
  insertAt p (map (entryOf p) (lastPerBin p l0)) dp
  = map (entryOf p) (lastPerBin p (l0 ++ [dp])).
Proof.
  unfold insertAt.
  change (fst (entryOf p dp)) with (inject_Z (binOf p dp) / 60)%Q.
  change (snd (entryOf p dp)) with (DataPoint.inter dp).
  assert (K : forall a m,
             binOf p a < binOf p dp ->
             qmap_insert (inject_Z (binOf p dp) / 60) (DataPoint.inter dp)
               (entryOf p a :: m)
             = entryOf p a
               :: qmap_insert (inject_Z (binOf p dp) / 60) (DataPoint.inter dp)
                    m).
  { intros a m H. unfold entryOf at 1. cbn [qmap_insert].
    now rewrite key_compare_gt. }
  induction l0 as [|a [|b l0] IH]; intros S.
  - reflexivity.
  - cbn [app] in *. rewrite lastPerBin_cons2.
    inversion S as [|? ? _ F]; subst.
    inversion F as [|? ? Hab _]; subst. unfold binLe in Hab.
    cbn [lastPerBin map].
    destruct (binOf p a =? binOf p dp) eqn:E.
    + apply Z.eqb_eq in E. unfold entryOf. cbn [qmap_insert].
      rewrite E, key_compare_eq. reflexivity.
    + apply Z.eqb_neq in E. rewrite K by lia. reflexivity.
  - change ((a :: b :: l0) ++ [dp]) with (a :: b :: (l0 ++ [dp])) in *.
    rewrite !lastPerBin_cons2.
    inversion S as [|? ? S' F]; subst.
    destruct (binOf p a =? binOf p b) eqn:E.
    + apply IH. exact S'.
    + apply Z.eqb_neq in E.
      inversion F as [|? ? Hab F']; subst. unfold binLe in Hab.
      assert (Hbd : binOf p b <= binOf p dp).
      { inversion S' as [|? ? _ G]; subst.
        rewrite Forall_forall in G. apply G. apply in_or_app.
        right. now left. }
      rewrite !map_cons, K by lia.
      f_equal. apply IH. exact S'.
Qed.

Lemma fold_lastPerBin (l : list DataPoint.t) : forall l0,
  StronglySorted (binLe p) (l0 ++ l) ->
  fold_left (insertAt p) l (map (entryOf p) (lastPerBin p l0))
  = map (entryOf p) (lastPerBin p (l0 ++ l)).
Proof.
  induction l as [|dp l IH]; intros l0 S; simpl.
  - now rewrite app_nil_r.
  - replace (l0 ++ dp :: l) with ((l0 ++ [dp]) ++ l) in *
      by (rewrite <- app_assoc; reflexivity).
    rewrite insert_lastPerBin by (eapply sorted_prefix; exact S).
    now apply IH.
Qed.

Lemma lastPerBin_increasing (l : list DataPoint.t) :
  StronglySorted (binLe p) l ->
  StronglySorted Z.lt (map (binOf p) (lastPerBin p l)).
Proof.
  induction l as [|a [|b l] IH]; intros S.
  - constructor.
  - repeat constructor.
  - rewrite lastPerBin_cons2.
    inversion S as [|? ? S' F]; subst.
    destruct (binOf p a =? binOf p b) eqn:E; [now apply IH|].
    apply Z.eqb_neq in E. cbn [map]. constructor; [now apply IH|].
    apply Forall_forall. intros x Hx.
    apply in_map_iff in Hx as (dp & <- & Hdp).
    apply lastPerBin_In in Hdp.
    inversion F as [|? ? Hab _]; subst. unfold binLe in Hab.
    assert (binOf p b <= binOf p dp).
    { destruct Hdp as [->|Hdp]; [lia|].
      inversion S' as [|? ? _ G]; subst.
      rewrite Forall_forall in G. now apply G. }
    lia.
Qed.

Lemma lastPerBin_covers (l : list DataPoint.t) (dp : DataPoint.t) :
  In dp l ->
  exists dp', In dp' (lastPerBin p l) /\ binOf p dp' = binOf p dp.
Proof.
  revert dp. induction l as [|a [|b l] IH]; intros dp; [intros [] | |].
  - intros [->|[]]. exists dp. split; [now left | reflexivity].
  - rewrite lastPerBin_cons2. intros [->|H].
    + destruct (binOf p dp =? binOf p b) eqn:E.
      * apply Z.eqb_eq in E.
        destruct (IH b (or_introl eq_refl)) as (x & Hx & Ex).
        exists x. split; [exact Hx | lia].
      * exists dp. split; [now left | reflexivity].
    + destruct (IH dp H) as (x & Hx & Ex). exists x. split; [|exact Ex].
      destruct (binOf p a =? binOf p b); [exact Hx | now right].
Qed.

Lemma lastPerBin_last (l : list DataPoint.t) (dp : DataPoint.t) :
  StronglySorted (binLe p) l ->
  In dp (lastPerBin p l) ->
  exists l1 l2,
    l = l1 ++ dp :: l2 /\ Forall (fun x => binOf p dp < binOf p x) l2.
Proof.
  induction l as [|a [|b l] IH]; intros S; [intros [] | |].
  - intros [->|[]]. exists [], []. split; [reflexivity | constructor].
  - rewrite lastPerBin_cons2.
    inversion S as [|? ? S' F]; subst.
    assert (Tail : In dp (lastPerBin p (b :: l)) ->
                   exists l1 l2,
                     a :: b :: l = l1 ++ dp :: l2 /\
                     Forall (fun x => binOf p dp < binOf p x) l2).
    { intros H. destruct (IH S' H) as (l1 & l2 & E & G).
      exists (a :: l1), l2. split; [now rewrite E | exact G]. }
    destruct (binOf p a =? binOf p b) eqn:E; [exact Tail|].
    apply Z.eqb_neq in E. intros [->|H]; [|now apply Tail].
    exists [], (b :: l). split; [reflexivity|].
    inversion F as [|? ? Hab _]; subst. unfold binLe in Hab.
    inversion S' as [|? ? _ G]; subst.
    constructor; [lia|].
    eapply Forall_impl; [|exact G]. intros x Hx. unfold binLe in Hx. lia.
Qed.

End PerBin.

Section MarkersPerBin.
Variable maxYValue : QwtPlotCurve.t -> Q.
Variable p : AllPlot.
Hypothesis Hne : empty (timeArray p) = false.
Hypothesis Hsorted : sortedByTime p.
Hypothesis Hlast : (lastTime p <= inject_Z (7 * 24 * 60 * 60))%Q.
Hypothesis Hsmooth : 1 <= smooth p <= rideTimeSecs p.


End MarkersPerBin.


(** ** Zone labels *)

Lemma newZoneLabel_ext (p q : AllPlot) (z : Z) :
  rideItem q = rideItem p -> shadeZones q = shadeZones p ->
  newZoneLabel q z = newZoneLabel p z.
Proof. unfold newZoneLabel. intros -> ->. reflexivity. Qed.

Lemma newZoneLabel_number (p : AllPlot) (z : Z) :
  AllPlotZoneLabel.zone_number (newZoneLabel p z) = z.
Proof.
  unfold newZoneLabel.
  destruct (rideItem p) as [item|]; [|reflexivity].
  destruct (RideItem.zones item) as [[zs|]|]; try reflexivity.
  destruct (_ && _); [|reflexivity].
  destruct (z <? _); reflexivity.
Qed.

Lemma refreshZoneLabels_ext (p q : AllPlot) :
  rideItem q = rideItem p -> shadeZones q = shadeZones p ->
  zoneLabels (refreshZoneLabels q) = zoneLabels (refreshZoneLabels p).
Proof.
  intros Hi Hs. unfold refreshZoneLabels. cbn [rideItem set_zoneLabels].
  rewrite Hi. destruct (rideItem p) as [item|] eqn:Ep; [|reflexivity].
  destruct (RideItem.zones item) as [[zs|]|]; try reflexivity.
  destruct (0 <=? RideItem.zoneRange item); [|reflexivity].
  cbn [zoneLabels set_zoneLabels]. apply map_ext. intros z.
  rewrite (newZoneLabel_ext q (set_zoneLabels [] q)) by reflexivity.
  rewrite (newZoneLabel_ext p (set_zoneLabels [] p)) by reflexivity.
  apply newZoneLabel_ext; [congruence | exact Hs].
Qed.

Lemma upto_In (n z : Z) : In z (upto n) <-> 0 <= z < n.
Proof.
  unfold upto. rewrite in_map_iff. split.
  - intros (k & <- & Hk). apply in_seq in Hk. lia.
  - intros H. exists (Z.to_nat z). split; [lia|]. apply in_seq. lia.
Qed.

Lemma sorted_lows (lows : list Z) (i j : Z) :
  StronglySorted Z.le lows ->
  0 <= i <= j -> j < Z.of_nat (length lows) ->
  (inject_Z (nth (Z.to_nat i) lows 0%Z) <= inject_Z (nth (Z.to_nat j) lows 0%Z))%Q.
Proof.
  intros S Hij Hj. rewrite <- Zle_Qle.
  apply (sorted_nth Z.le 0 lows Z.le_refl S). lia.
Qed.

(** The label position lies in its zone. *)
Lemma labelWatts_in_zone (lows : list Z) (z : Z) :
  StronglySorted Z.le lows -> Forall (fun w => 0 <= w) lows ->
  0 <= z < Z.of_nat (length lows) ->
  let low z := inject_Z (nth (Z.to_nat z) lows 0) in
  let w := labelWatts lows z in
  (low z <= w)%Q /\
  (z + 1 < Z.of_nat (length lows) ->
   (w <= low (z + 1)%Z)%Q /\ (w - low z == low (z + 1)%Z - w)%Q) /\
  (z + 1 = Z.of_nat (length lows) -> 0 < z ->
   (w - low z == (low z - low (z - 1)%Z) / 2)%Q).
Proof.
  intros S P Hz low w. subst w low. cbv beta. unfold labelWatts.
  destruct (z + 1 <? Z.of_nat (length lows)) eqn:E.
  - apply Z.ltb_lt in E.
    pose proof (sorted_lows lows z (z + 1) S ltac:(lia) E) as Hle.
    split; [lra|]. split; [intros _; split; lra | lia].
  - apply Z.ltb_ge in E. split; [|split; [lia|]].
    + destruct (0 <? z) eqn:Z0.
      * apply Z.ltb_lt in Z0.
        pose proof (sorted_lows lows (z - 1) z S ltac:(lia) ltac:(lia)) as Hle.
        lra.
      * assert (0 <= nth (Z.to_nat z) lows 0) as Hp.
        { rewrite Forall_forall in P. apply P, nth_In. lia. }
        rewrite Zle_Qle in Hp. change (inject_Z 0) with 0%Q in Hp. lra.
    + intros _ Z0. apply Z.ltb_lt in Z0. rewrite Z0. field.
Qed.

Section ZoneLabels.
Variable maxYValue : QwtPlotCurve.t -> Q.
Variables (p : AllPlot) (item : RideItem.t) (zones : Zones.t).
Hypothesis Hitem : rideItem p = Some item.
Hypothesis Hzones : RideItem.zones item = Some (Some zones).
Hypothesis Hrange : 0 <= RideItem.zoneRange item.

Lemma refreshZoneLabels_labels :
  zoneLabels (refreshZoneLabels p)
  = map (newZoneLabel p)
      (upto (Zones.numZones zones (RideItem.zoneRange item))).
Proof.
  unfold refreshZoneLabels. cbn [rideItem set_zoneLabels].
  rewrite Hitem, Hzones.
  replace (0 <=? RideItem.zoneRange item) with true
    by (symmetry; now apply Z.leb_le).
  cbn [zoneLabels set_zoneLabels]. apply map_ext. intros z.
  now apply newZoneLabel_ext.
Qed.

Lemma label_of_refresh (lab : AllPlotZoneLabel.t) :
  In lab (zoneLabels (refreshZoneLabels p)) ->
  lab = newZoneLabel p (AllPlotZoneLabel.zone_number lab) /\
  0 <= AllPlotZoneLabel.zone_number lab
    < Zones.numZones zones (RideItem.zoneRange item).
Proof.
  rewrite refreshZoneLabels_labels, in_map_iff.
  intros (z & <- & Hz). rewrite newZoneLabel_number.
  split; [reflexivity | now apply upto_In].
Qed.

Lemma newZoneLabel_set (z : Z) :
  shadeZones p = true ->
  z < Z.of_nat (length (Zones.getZoneLows zones (RideItem.zoneRange item))) ->
  newZoneLabel p z
  = AllPlotZoneLabel.mk z
      (Some (labelWatts (Zones.getZoneLows zones (RideItem.zoneRange item)) z))
      (Some (nth (Z.to_nat z)
               (Zones.getZoneNames zones (RideItem.zoneRange item))
               ""%string)).
Proof.
  intros Hs Hz. unfold newZoneLabel, labelWatts.
  rewrite Hitem, Hzones, Hs.
  replace (0 <=? RideItem.zoneRange item) with true
    by (symmetry; now apply Z.leb_le).
  cbn [andb].
  replace (z <? _) with true by (symmetry; now apply Z.ltb_lt).
  reflexivity.
Qed.

Lemma newZoneLabel_unset (z : Z) :
  shadeZones p = false \/
  Z.of_nat (length (Zones.getZoneLows zones (RideItem.zoneRange item))) <= z ->
  newZoneLabel p z = AllPlotZoneLabel.mk z None None.
Proof.
  intros H. unfold newZoneLabel. rewrite Hitem, Hzones.
  destruct (shadeZones p); [|reflexivity].
  destruct H as [H|H]; [discriminate|].
  destruct (0 <=? RideItem.zoneRange item); [|reflexivity]. cbn [andb].
  replace (z <? _) with false by (symmetry; now apply Z.ltb_ge).
  reflexivity.
Qed.

Lemma rideItem_setYMax (q : AllPlot) :
  rideItem (setYMax maxYValue q) = rideItem q.
Proof. rewrite setYMax_only_plot. reflexivity. Qed.

Lemma shadeZones_setYMax (q : AllPlot) :
  shadeZones (setYMax maxYValue q) = shadeZones q.
Proof. rewrite setYMax_only_plot. reflexivity. Qed.

Lemma curves_frame (q : AllPlot) (cw ch cs cc ca : QwtPlotCurve.t)
    (t : QwtPlot.t) :
  let q' :=
    set_plot t
      (set_altCurve ca (set_cadCurve cc (set_speedCurve cs
         (set_hrCurve ch (set_wattsCurve cw q))))) in
  rideItem q' = rideItem q /\ shadeZones q' = shadeZones q.
Proof. split; reflexivity. Qed.

Lemma zoneLabels_set_d_mrk m (q : AllPlot) :
  zoneLabels (set_d_mrk m q) = zoneLabels q.
Proof. reflexivity. Qed.

Lemma finished_zoneLabels (s : Locals.t) :
  zoneLabels (finished maxYValue p s) = zoneLabels (refreshZoneLabels p).
Proof.
  unfold finished. cbv zeta. rewrite zoneLabels_set_d_mrk.
  apply refreshZoneLabels_ext.
  - rewrite rideItem_setYMax. apply curves_frame.
  - rewrite shadeZones_setYMax. apply curves_frame.
Qed.

(** Property X10.  [refreshZoneLabels] makes one label per zone of
    the ride's zone range, numbered from 0 ([numZones] of them), and
    [recalc] ends with exactly these labels.  With shading active and
    zone lows that are non-negative and do not decrease, the label of
    a zone that has a low is placed inside its zone: not below the
    zone's low and, unless it is the top zone, half-way to the low of
    the next zone; the top zone's label sits half the width of the
    zone below above its low.  Its text is the zone's name.  When
    shading is not active, or for a zone number without a low, the
    constructor leaves [watts] and [text] unset. *)
Theorem zone_labels_placed :
  let lows := Zones.getZoneLows zones (RideItem.zoneRange item) in
  let names := Zones.getZoneNames zones (RideItem.zoneRange item) in
  let n := Z.of_nat (length lows) in
  let low z := inject_Z (nth (Z.to_nat z) lows 0) in
  let labels := zoneLabels (refreshZoneLabels p) in
  map AllPlotZoneLabel.zone_number labels
  = upto (Zones.numZones zones (RideItem.zoneRange item)) /\
  (forall s, zoneLabels (finished maxYValue p s) = labels) /\
  (forall lab, In lab labels ->
     shadeZones p = false \/ n <= AllPlotZoneLabel.zone_number lab ->
     AllPlotZoneLabel.watts lab = None /\ AllPlotZoneLabel.text lab = None) /\
  (StronglySorted Z.le lows -> Forall (fun w => 0 <= w) lows ->
   shadeZones p = true ->
   forall lab, In lab labels ->
     let z := AllPlotZoneLabel.zone_number lab in
     z < n ->
     exists w,
       AllPlotZoneLabel.watts lab = Some w /\
       AllPlotZoneLabel.text lab = Some (nth (Z.to_nat z) names ""%string) /\
       (low z <= w)%Q /\
       (z + 1 < n -> (w <= low (z + 1)%Z)%Q /\ (w - low z == low (z + 1)%Z - w)%Q) /\
       (z + 1 = n -> 0 < z -> (w - low z == (low z - low (z - 1)%Z) / 2)%Q)).
Proof.
  intros lows names n low labels.
  split; [|split; [|split]].
  - unfold labels. rewrite refreshZoneLabels_labels, map_map.
    rewrite (map_ext _ (fun z => z)) by apply newZoneLabel_number.
    apply map_id.
  - apply finished_zoneLabels.
  - intros lab Hin H. destruct (label_of_refresh lab Hin) as [E _].
    rewrite E, (newZoneLabel_unset _ H). split; reflexivity.
  - intros S P Hs lab Hin z Hz.
    destruct (label_of_refresh lab Hin) as [E R]. fold z in E, R.
    exists (labelWatts lows z).
    rewrite E, (newZoneLabel_set z Hs Hz). cbn [AllPlotZoneLabel.watts
      AllPlotZoneLabel.text AllPlotZoneLabel.zone_number].
    split; [reflexivity|]. split; [reflexivity|].
    apply (labelWatts_in_zone lows z S P). fold n. lia.
Qed.

(** Property X11.  A zone label is drawn inside the band of its
    zone.  With shading active, zone lows that are non-negative and do
    not decrease, and a scale map under which a larger power is never
    mapped to a lower row, [AllPlotZoneLabel::draw] centres the name of
    a zone that has a low horizontally in the canvas, at a row that is
    not below the bottom row of the zone's band and, unless the zone is
    the top one, not above the band's top row.  With shading off
    nothing is drawn.  A label whose zone number has no low (when
    [numZones] exceeds the number of lows) reads the [watts] member
    that its constructor never assigned. *)
Theorem zone_label_inside_band (yMap : Q -> Z) (rect : QRect) :
  let lows := Zones.getZoneLows zones (RideItem.zoneRange item) in
  let names := Zones.getZoneNames zones (RideItem.zoneRange item) in
  let n := Z.of_nat (length lows) in
  let labels := zoneLabels (refreshZoneLabels p) in
  (forall a b, (a <= b)%Q -> yMap b <= yMap a) ->
  StronglySorted Z.le lows -> Forall (fun w => 0 <= w) lows ->
  (shadeZones p = false ->
   forall lab, AllPlotZoneLabel_draw p lab yMap rect = Nothing) /\
  (shadeZones p = true ->
   forall lab, In lab labels ->
     let z := AllPlotZoneLabel.zone_number lab in
     (z < n ->
      exists y,
        AllPlotZoneLabel_draw p lab yMap rect
        = TextAt (Z.quot (left rect + right rect) 2) y
            (Some (nth (Z.to_nat z) names ""%string)) /\
        y <= bandBottom yMap lows z /\
        (z + 1 < n -> bandTop yMap rect lows z <= y)) /\
     (n <= z -> AllPlotZoneLabel_draw p lab yMap rect = UnsetWatts)).
Proof.
  intros lows names n labels Hmap S P. split.
  - intros Hs lab. unfold AllPlotZoneLabel_draw. now rewrite Hs.
  - intros Hs lab Hin z.
    destruct (label_of_refresh lab Hin) as [E R]. fold z in E, R.
    unfold AllPlotZoneLabel_draw. rewrite Hs. split.
    + intros Hz. exists (yMap (labelWatts lows z)).
      rewrite E, (newZoneLabel_set z Hs Hz).
      cbn [AllPlotZoneLabel.watts AllPlotZoneLabel.text].
      split; [reflexivity|].
      destruct (labelWatts_in_zone lows z S P ltac:(fold n; lia))
        as (Lo & Hi & _).
      unfold bandBottom, bandTop, lowRow, num_zones. fold lows. fold n.
      split; [now apply Hmap|].
      intros Hz1.
      replace (z + 1 <? n) with true by (symmetry; now apply Z.ltb_lt).
      apply Hmap. now apply Hi.
    + intros Hz. rewrite E, (newZoneLabel_unset z (or_intror Hz)).
      reflexivity.
Qed.

End ZoneLabels.

Lemma zone_labels_placed_witness :
  exists w,
    AllPlotZoneLabel.watts Ex5.midLabel = Some w /\
    (150 <= w)%Q /\ (w <= 300)%Q.
Proof.
  assert (Hi : rideItem Ex4.shaded = Some Ex4.zonedItem)
    by evaluated.
  assert (Hr : 0 <= RideItem.zoneRange Ex4.zonedItem) by evaluated.
  assert (Hs : shadeZones Ex4.shaded = true) by evaluated.
  assert (In1 : In Ex5.midLabel (zoneLabels (refreshZoneLabels Ex4.shaded))).
  { vm_compute. right. left. reflexivity. }
  assert (S : StronglySorted Z.le (Zones.getZoneLows Ex4.zones3 0)).
  { evaluated. }
  assert (P : Forall (fun w => 0 <= w) (Zones.getZoneLows Ex4.zones3 0)).
  { evaluated. }
  assert (N : AllPlotZoneLabel.zone_number Ex5.midLabel = 1)
    by evaluated.
  destruct (zone_labels_placed Ex.maxY Ex4.shaded Ex4.zonedItem Ex4.zones3
              Hi eq_refl Hr) as (_ & _ & _ & H).
  destruct (H S P Hs Ex5.midLabel In1) as (w & Hw & _ & Lo & Up & _).
  { rewrite N. reflexivity. }
  rewrite N in Lo, Up.
  exists w. split; [exact Hw|]. split; [exact Lo|].
  apply Up. reflexivity.
Defined.

Lemma zone_label_inside_band_witness :
  exists y,
    AllPlotZoneLabel_draw Ex4.shaded Ex5.midLabel Ex4.tallRows Ex4.tallCanvas
    = TextAt 100 y (Some "Z2"%string) /\
    bandTop Ex4.tallRows Ex4.tallCanvas [0; 150; 300] 1 <= y /\
    y <= bandBottom Ex4.tallRows [0; 150; 300] 1.
Proof.
  assert (Hi : rideItem Ex4.shaded = Some Ex4.zonedItem)
    by evaluated.
  assert (Hr : 0 <= RideItem.zoneRange Ex4.zonedItem) by evaluated.
  assert (Hs : shadeZones Ex4.shaded = true) by evaluated.
  assert (In1 : In Ex5.midLabel (zoneLabels (refreshZoneLabels Ex4.shaded))).
  { vm_compute. right. left. reflexivity. }
  assert (S : StronglySorted Z.le (Zones.getZoneLows Ex4.zones3 0)).
  { evaluated. }
  assert (P : Forall (fun w => 0 <= w) (Zones.getZoneLows Ex4.zones3 0)).
  { evaluated. }
  assert (N : AllPlotZoneLabel.zone_number Ex5.midLabel = 1)
    by evaluated.
  assert (Mono : forall a b, (a <= b)%Q -> Ex4.tallRows b <= Ex4.tallRows a).
  { intros a b Hab. unfold Ex4.tallRows.
    apply Qfloor_resp_le in Hab. lia. }
  destruct (zone_label_inside_band Ex4.shaded Ex4.zonedItem Ex4.zones3
              Hi eq_refl Hr Ex4.tallRows Ex4.tallCanvas Mono S P)
    as (_ & H).
  destruct (H Hs Ex5.midLabel In1) as (D & _).
  rewrite N in D.
  destruct (D eq_refl) as (y & Hd & Hb & Ht).
  exists y. split; [exact Hd|]. split; [apply Ht; reflexivity | exact Hb].
Defined.

(** ** What a run leaves of its calls *)

Lemma run_lastSet {A} (maxYValue : QwtPlotCurve.t -> Q) (f : AllPlot -> A)
    (pick : Call -> option A) :
  (forall p c p', exec maxYValue p c = Ok p' ->
     f p' = match pick c with Some a => a | None => f p end) ->
  forall cs p p', run maxYValue p cs = Ok p' -> f p' = lastSet pick cs (f p).
Proof.
  intros Hstep. induction cs as [|c cs IH]; simpl; intros p p' H.
  - now inversion H.
  - destruct (exec maxYValue p c) as [q|e] eqn:E; simpl in H; [|discriminate].
    rewrite (IH q p' H). now rewrite (Hstep p c q E).
Qed.

Section Settings.
Variable maxYValue : QwtPlotCurve.t -> Q.

Lemma setYMax_flags (p : AllPlot) : flags (setYMax maxYValue p) = flags p.
Proof. rewrite setYMax_only_plot. reflexivity. Qed.

Lemma setYMax_titles (p : AllPlot) :
  QwtPlot.title (plot (setYMax maxYValue p)) = QwtPlot.title (plot p) /\
  QwtPlot.axisTitle (plot (setYMax maxYValue p)) xBottom
  = QwtPlot.axisTitle (plot p) xBottom.
Proof.
  unfold setYMax.
  destruct (QwtPlotCurve.isVisible (wattsCurve p)),
           (QwtPlotCurve.isVisible (hrCurve p)),
           (QwtPlotCurve.isVisible (cadCurve p)),
           (QwtPlotCurve.isVisible (altCurve p)); split; reflexivity.
Qed.

Lemma plot_scaled (q : AllPlot) (cw ch cs cc ca : QwtPlotCurve.t) (lo hi : Q) :
  let q1 :=
    set_altCurve ca (set_cadCurve cc (set_speedCurve cs
      (set_hrCurve ch (set_wattsCurve cw q)))) in
  plot q1 = plot q /\
  QwtPlot.title
    (plot (set_plot (QwtPlot.setAxisScale xBottom lo hi (plot q1)) q1))
  = QwtPlot.title (plot q) /\
  QwtPlot.axisTitle
    (plot (set_plot (QwtPlot.setAxisScale xBottom lo hi (plot q1)) q1))
    xBottom
  = QwtPlot.axisTitle (plot q) xBottom.
Proof. repeat split. Qed.

(** [recalc] leaves the plot title and the title of the bottom axis. *)
Lemma recalc_titles (p p' : AllPlot) :
  recalc maxYValue p = Ok p' ->
  QwtPlot.title (plot p') = QwtPlot.title (plot p) /\
  QwtPlot.axisTitle (plot p') xBottom = QwtPlot.axisTitle (plot p) xBottom.
Proof.
  unfold recalc.
  destruct (empty (timeArray p)).
  { intros H; inversion H; auto. }
  destruct (rideTimeSecs p >? limit).
  { intros H; inversion H; subst; clear H.
    rewrite (proj1 (plot_scaled p _ _ _ _ _ 0 0)). auto. }
  destruct (smoothing p) as [s|f]; cbn [bind]; [|discriminate].
  match goal with
  | |- context [bind ?m _] => destruct m as [xmax|f]; cbn [bind]; [|discriminate]
  end.
  match goal with
  | |- context [bind ?m _] => destruct m as [mrk|f]; cbn [bind]; [|discriminate]
  end.
  intros H; inversion H; subst; clear H.
  rewrite plot_set_d_mrk, plot_refreshZoneLabels.
  match goal with
  | |- context [setYMax maxYValue ?q] =>
      destruct (setYMax_titles q) as [-> ->]
  end.
  apply plot_scaled.
Qed.

Lemma load_titles (p : AllPlot) (ride : RideFile.t) :
  QwtPlot.title (plot (load p ride)) = RideFile.startTime ride /\
  QwtPlot.axisTitle (plot (load p ride)) xBottom
  = QwtPlot.axisTitle (plot p) xBottom.
Proof. split; reflexivity. Qed.

Lemma load_shape (p : AllPlot) (ride : RideFile.t) :
  exists a a0 t,
    load p ride
    = set_arrays a (attachCurves (detachCurves (set_arrays a0 (set_plot t p)))).
Proof. unfold load. do 3 eexists. reflexivity. Qed.

Lemma curveOf_set_arrays (ch : Channel) a (q : AllPlot) :
  curveOf ch (set_arrays a q) = curveOf ch q.
Proof. destruct ch; reflexivity. Qed.

Lemma curveOf_set_plot (ch : Channel) t (q : AllPlot) :
  curveOf ch (set_plot t q) = curveOf ch q.
Proof. destruct ch; reflexivity. Qed.

Lemma visible_attachCurves (ch : Channel) (q : AllPlot) :
  QwtPlotCurve.visible (curveOf ch (attachCurves q))
  = QwtPlotCurve.visible (curveOf ch q).
Proof.
  destruct ch; unfold attachCurves; cbn [curveOf wattsCurve hrCurve
    speedCurve cadCurve altCurve set_altCurve set_cadCurve set_speedCurve
    set_hrCurve set_wattsCurve]; unfold attachIfPresent;
    match goal with
    | |- context [negb (empty ?a)] => destruct (negb (empty a))
    end; reflexivity.
Qed.

Lemma visible_detachCurves (ch : Channel) (q : AllPlot) :
  QwtPlotCurve.visible (curveOf ch (detachCurves q))
  = QwtPlotCurve.visible (curveOf ch q).
Proof. destruct ch; reflexivity. Qed.

Lemma load_flags_visible (p : AllPlot) (ride : RideFile.t) :
  forall ch,
    QwtPlotCurve.visible (curveOf ch (load p ride))
    = QwtPlotCurve.visible (curveOf ch p).
Proof.
  intros ch. destruct (load_shape p ride) as (a & a0 & t & ->).
  now rewrite curveOf_set_arrays, visible_attachCurves, visible_detachCurves,
    curveOf_set_arrays, curveOf_set_plot.
Qed.

Lemma flags_visible (p q : AllPlot) :
  flags p = flags q ->
  forall ch,
    QwtPlotCurve.visible (curveOf ch p) = QwtPlotCurve.visible (curveOf ch q).
Proof.
  intros E ch.
  apply flags_inv in E as (Ew & Eh & Es & Ec & Ea).
  destruct ch; cbn [curveOf]; now apply curveFlags_inv.
Qed.

(** What one call does to the configuration. *)
Lemma exec_config (p p' : AllPlot) (c : Call) :
  exec maxYValue p c = Ok p' ->
  config p'
  = (unit p, useMetricUnits p,
     match c with SetData item => Some item | _ => rideItem p end,
     match c with SetSmoothing value => value | _ => smooth p end,
     match c with SetByDistance id => id =? 1 | _ => bydist p end,
     match c with ShowPower id => id =? 0 | _ => shade_zones p end,
     match c with ShowGrid state => isChecked state | _ => grid p end).
Proof.
  destruct c as [item|id|st|st|st|st|st|v|id]; cbn [exec]; intros H.
  - unfold setData in H. destruct (RideItem.ride item) as [ride|].
    + apply recalc_frame in H as (_ & -> & _). now rewrite load_config.
    + inversion H. reflexivity.
  - unfold showPower in H. apply recalc_frame in H as (_ & -> & _).
    now rewrite setYMax_config.
  - inversion H. unfold showHr. now rewrite setYMax_config.
  - inversion H. unfold showSpeed. now rewrite setYMax_config.
  - inversion H. unfold showCad. now rewrite setYMax_config.
  - inversion H. unfold showAlt. now rewrite setYMax_config.
  - inversion H. reflexivity.
  - unfold setSmoothing in H. apply recalc_frame in H as (_ & -> & _).
    reflexivity.
  - unfold setByDistance in H. apply recalc_frame in H as (_ & -> & _).
    unfold setXTitle. cbn [bydist set_bydist].
    destruct (id =? 1); reflexivity.
Qed.

(** What one call does to the visibility of a curve. *)
Lemma exec_shown (ch : Channel) (p p' : AllPlot) (c : Call) :
  exec maxYValue p c = Ok p' ->
  QwtPlotCurve.visible (curveOf ch p')
  = match shownOf ch c with
    | Some b => b
    | None => QwtPlotCurve.visible (curveOf ch p)
    end.
Proof.
  destruct c as [item|id|st|st|st|st|st|v|id]; cbn [exec]; intros H.
  - replace (shownOf ch (SetData item)) with (@None bool)
      by (destruct ch; reflexivity).
    unfold setData in H. destruct (RideItem.ride item) as [ride|].
    + apply recalc_frame in H as (_ & _ & F).
      rewrite (flags_visible _ _ F ch). now rewrite load_flags_visible.
    + inversion H. destruct ch; reflexivity.
  - unfold showPower in H. apply recalc_frame in H as (_ & _ & F).
    rewrite (flags_visible _ _ F ch).
    rewrite (flags_visible _ _ (setYMax_flags _) ch).
    destruct ch; reflexivity.
  - inversion H. unfold showHr.
    rewrite (flags_visible _ _ (setYMax_flags _) ch). destruct ch; reflexivity.
  - inversion H. unfold showSpeed.
    rewrite (flags_visible _ _ (setYMax_flags _) ch). destruct ch; reflexivity.
  - inversion H. unfold showCad.
    rewrite (flags_visible _ _ (setYMax_flags _) ch). destruct ch; reflexivity.
  - inversion H. unfold showAlt.
    rewrite (flags_visible _ _ (setYMax_flags _) ch). destruct ch; reflexivity.
  - inversion H. destruct ch; reflexivity.
  - replace (shownOf ch (SetSmoothing v)) with (@None bool)
      by (destruct ch; reflexivity).
    unfold setSmoothing in H. apply recalc_frame in H as (_ & _ & F).
    rewrite (flags_visible _ _ F ch). destruct ch; reflexivity.
  - replace (shownOf ch (SetByDistance id)) with (@None bool)
      by (destruct ch; reflexivity).
    unfold setByDistance in H. apply recalc_frame in H as (_ & _ & F).
    rewrite (flags_visible _ _ F ch). unfold setXTitle.
    cbn [bydist set_bydist]. destruct (id =? 1), ch; reflexivity.
Qed.

(** What one call does to the plot title and to the bottom axis. *)
Lemma exec_titles (p p' : AllPlot) (c : Call) :
  exec maxYValue p c = Ok p' ->
  QwtPlot.title (plot p')
  = match titleOf c with Some t => t | None => QwtPlot.title (plot p) end /\
  QwtPlot.axisTitle (plot p') xBottom
  = match c with
    | SetByDistance id => xTitle (id =? 1) (unit p)
    | _ => QwtPlot.axisTitle (plot p) xBottom
    end.
Proof.
  destruct c as [item|id|st|st|st|st|st|v|id]; cbn [exec titleOf]; intros H.
  - unfold setData in H. destruct (RideItem.ride item) as [ride|].
    + apply recalc_titles in H as [-> ->].
      destruct (load_titles (set_wattsArray [] (set_rideItem (Some item) p))
                  ride) as [-> ->].
      split; reflexivity.
    + inversion H. split; reflexivity.
  - unfold showPower in H. apply recalc_titles in H as [-> ->].
    match goal with
    | |- context [setYMax maxYValue ?q] =>
        destruct (setYMax_titles q) as [-> ->]
    end.
    split; reflexivity.
  - inversion H. unfold showHr.
    match goal with
    | |- context [setYMax maxYValue ?q] =>
        destruct (setYMax_titles q) as [-> ->]
    end.
    split; reflexivity.
  - inversion H. unfold showSpeed.
    match goal with
    | |- context [setYMax maxYValue ?q] =>
        destruct (setYMax_titles q) as [-> ->]
    end.
    split; reflexivity.
  - inversion H. unfold showCad.
    match goal with
    | |- context [setYMax maxYValue ?q] =>
        destruct (setYMax_titles q) as [-> ->]
    end.
    split; reflexivity.
  - inversion H. unfold showAlt.
    match goal with
    | |- context [setYMax maxYValue ?q] =>
        destruct (setYMax_titles q) as [-> ->]
    end.
    split; reflexivity.
  - inversion H. split; reflexivity.
  - unfold setSmoothing in H. apply recalc_titles in H as [-> ->].
    split; reflexivity.
  - unfold setByDistance in H. apply recalc_titles in H as [-> ->].
    unfold setXTitle, xTitle. cbn [bydist set_bydist unit].
    destruct (id =? 1); split; reflexivity.
Qed.

Lemma config_inv (p : AllPlot) u m i s b z g :
  config p = (u, m, i, s, b, z, g) ->
  unit p = u /\ rideItem p = i /\ smooth p = s /\ bydist p = b /\ grid p = g.
Proof. unfold config. intros E. inversion E. auto. Qed.

(** Property X12.  The bottom axis is always titled for the current
    mode: after any run of calls from the constructor with unit
    setting [u], the plot is in distance mode exactly when the last
    [setByDistance] had [id == 1] (time mode when there was none), the
    bottom axis is titled "Distance (km)" or "Distance (miles)" in
    distance mode and "Time (minutes)" in time mode, and the plot title
    is the start time of the ride given to the last [setData], "no
    data" when that item had no ride, and empty before any [setData].
    No other slot touches these titles. *)
Theorem titles_follow_last_call (u : string) (cs : list Call) (p : AllPlot) :
  run maxYValue (newAllPlot u) cs = Ok p ->
  bydist p = lastSet byDistanceOf cs false /\
  QwtPlot.axisTitle (plot p) xBottom = xTitle (bydist p) u /\
  QwtPlot.title (plot p) = lastSet titleOf cs ""%string.
Proof.
  intros H.
  split; [|split].
  - apply (run_lastSet maxYValue bydist byDistanceOf) with (p := newAllPlot u);
      [|exact H].
    intros q c q' E. apply exec_config, config_inv in E as (_ & _ & _ & -> & _).
    destruct c; reflexivity.
  - assert (G : forall cs q q',
               run maxYValue q cs = Ok q' ->
               QwtPlot.axisTitle (plot q) xBottom = xTitle (bydist q) (unit q) ->
               QwtPlot.axisTitle (plot q') xBottom
               = xTitle (bydist q') (unit q')).
    { clear. induction cs as [|c cs IH]; simpl; intros q q' H I.
      - inversion H; subst. exact I.
      - destruct (exec maxYValue q c) as [r|e] eqn:E; simpl in H;
          [|discriminate].
        apply (IH r q' H).
        destruct (exec_titles q r c E) as [_ T].
        apply exec_config, config_inv in E as (-> & _ & _ & -> & _).
        rewrite T. destruct c; auto. }
    rewrite (G cs (newAllPlot u) p H); [|reflexivity].
    f_equal. apply (run_units maxYValue cs _ _ H).
  - apply (run_lastSet maxYValue (fun q => QwtPlot.title (plot q)) titleOf)
      with (p := newAllPlot u); [|exact H].
    intros q c q' E. apply (exec_titles q q' c E).
Qed.

(** Property X13.  Every setting is decided by the last call that
    sets it, and by nothing else: after any run of calls from the
    constructor, the smoothing window is the value of the last
    [setSmoothing] (30 when there was none), the ride item is the one
    of the last [setData], the grid is shown as the last [showGrid]
    asked (shown by default), and each curve is visible as the last
    call of its own show slot asked -- the power curve iff the last
    [showPower] had [id < 2] -- all five being visible by default.
    Loading a ride, smoothing and switching the x-axis never change
    the visibility of a curve. *)
Theorem settings_follow_last_call (u : string) (cs : list Call)
    (p : AllPlot) :
  run maxYValue (newAllPlot u) cs = Ok p ->
  smooth p = lastSet smoothOf cs 30 /\
  rideItem p = lastSet itemOf cs None /\
  grid p = lastSet gridOf cs true /\
  forall ch,
    QwtPlotCurve.isVisible (curveOf ch p) = lastSet (shownOf ch) cs true.
Proof.
  intros H.
  split; [|split; [|split]].
  - apply (run_lastSet maxYValue smooth smoothOf) with (p := newAllPlot u);
      [|exact H].
    intros q c q' E. apply exec_config, config_inv in E as (_ & _ & -> & _).
    destruct c; reflexivity.
  - apply (run_lastSet maxYValue rideItem itemOf) with (p := newAllPlot u);
      [|exact H].
    intros q c q' E. apply exec_config, config_inv in E as (_ & -> & _).
    destruct c; reflexivity.
  - apply (run_lastSet maxYValue grid gridOf) with (p := newAllPlot u);
      [|exact H].
    intros q c q' E.
    apply exec_config, config_inv in E as (_ & _ & _ & _ & ->).
    destruct c; reflexivity.
  - intros ch. unfold QwtPlotCurve.isVisible.
    rewrite (run_lastSet maxYValue
               (fun q => QwtPlotCurve.visible (curveOf ch q)) (shownOf ch)
               (fun q c q' => exec_shown ch q q' c) cs (newAllPlot u) p H).
    destruct ch; reflexivity.
Qed.

End Settings.

Lemma titles_follow_last_call_witness :
  QwtPlot.axisTitle
    (plot (Ex.after (newAllPlot "Metric")
             [SetByDistance 1; SetData Ex.lowItem; ShowHr Unchecked]))
    xBottom
  = "Distance (km)"%string.
Proof.
  assert (R : run Ex.maxY (newAllPlot "Metric")
                [SetByDistance 1; SetData Ex.lowItem; ShowHr Unchecked]
              = Ok (Ex.after (newAllPlot "Metric")
                      [SetByDistance 1; SetData Ex.lowItem; ShowHr Unchecked]))
    by evaluated.
  destruct (titles_follow_last_call Ex.maxY "Metric" _ _ R) as (B & T & _).
  rewrite T, B. reflexivity.
Defined.

Lemma settings_follow_last_call_witness :
  QwtPlotCurve.isVisible
    (curveOf HeartRate
       (Ex.after (newAllPlot "Metric")
          [ShowHr Unchecked; SetData Ex.lowItem; SetSmoothing 2]))
  = false /\
  smooth (Ex.after (newAllPlot "Metric")
            [ShowHr Unchecked; SetData Ex.lowItem; SetSmoothing 2])
  = 2.
Proof.
  assert (R : run Ex.maxY (newAllPlot "Metric")
                [ShowHr Unchecked; SetData Ex.lowItem; SetSmoothing 2]
              = Ok (Ex.after (newAllPlot "Metric")
                      [ShowHr Unchecked; SetData Ex.lowItem; SetSmoothing 2]))
    by evaluated.
  destruct (settings_follow_last_call Ex.maxY "Metric" _ _ R)
    as (Sm & _ & _ & V).
  rewrite (V HeartRate), Sm. split; reflexivity.
Defined.

(** ** The stack of zone bands *)

Lemma filter_all {A} (f : A -> bool) (l : list A) :
  Forall (fun a => f a = true) l -> filter f l = l.
Proof.
  induction 1 as [|a l Ha _ IH]; simpl; [reflexivity|]. now rewrite Ha, IH.
Qed.

Section Stack.
Variable zoneColor : Z -> Z -> QColor.
Variables (p : AllPlot) (item : RideItem.t) (zones : Zones.t).
Variables (yMap : Q -> Z) (rect : QRect).
Hypothesis Hitem : rideItem p = Some item.
Hypothesis Hzones : RideItem.zones item = Some (Some zones).
Hypothesis Hshade : shadeZones p = true.
Hypothesis Hrange : 0 <= RideItem.zoneRange item.
Hypothesis Hmap : forall a b, (a <= b)%Q -> yMap b <= yMap a.
Hypothesis Hlows :
  StronglySorted Z.le (Zones.getZoneLows zones (RideItem.zoneRange item)).

(** Property X15.  The zone bands are stacked without a gap.  With
    shading active, zone lows that do not decrease and a scale map
    under which a larger power is never mapped to a lower row, the
    background fills the band of every zone below the top one, the
    top row of each of these bands being the bottom row of the band of
    the next zone; the band of the top zone is filled exactly when the
    row of its low is not above the top of the canvas.  So at most one
    zone, the top one, is left without a band. *)
Theorem bands_stack :
  let lows := Zones.getZoneLows zones (RideItem.zoneRange item) in
  let n := Z.of_nat (length lows) in
  AllPlotBackground.draw zoneColor p yMap rect
  = map (fun z => (bandRect yMap rect lows z, shade zoneColor lows z))
      (filled yMap rect lows) /\
  (0 < n ->
   filled yMap rect lows
   = upto (n - 1)
     ++ (if top rect <=? lowRow yMap lows (n - 1) then [n - 1] else [])) /\
  (forall z, 0 <= z -> z + 1 < n ->
     top (bandRect yMap rect lows z)
     = bottom (bandRect yMap rect lows (z + 1))).
Proof.
  intros lows n.
  assert (Low : forall z, 0 <= z -> z + 1 < n ->
                  (bandTop yMap rect lows z <=? bandBottom yMap lows z)
                  = true).
  { intros z Hz Hz1. apply Z.leb_le.
    unfold bandTop, bandBottom, lowRow, num_zones. fold n.
    replace (z + 1 <? n) with true by (symmetry; now apply Z.ltb_lt).
    apply Hmap. apply sorted_lows; [exact Hlows | lia | exact Hz1]. }
  split; [now apply draw_spec|]. split.
  - intros Hn. unfold filled, upto, num_zones. fold n.
    replace (Z.to_nat n) with (S (Z.to_nat (n - 1))) by lia.
    rewrite seq_S, map_app, filter_app. cbn [Nat.add map filter].
    rewrite Z2Nat.id by lia. f_equal.
    + apply filter_all. apply Forall_forall. intros z Hz.
      apply in_map_iff in Hz as (k & <- & Hk). apply in_seq in Hk.
      apply Low; lia.
    + unfold bandTop, bandBottom, num_zones. fold n.
      now replace (n - 1 + 1 <? n) with false
        by (symmetry; apply Z.ltb_ge; lia).
  - intros z Hz Hz1.
    unfold bandRect, bandTop, bandBottom, num_zones. cbn [top bottom].
    fold n. now replace (z + 1 <? n) with true
      by (symmetry; now apply Z.ltb_lt).
Qed.

End Stack.

Lemma bands_stack_witness :
  filled Ex4.rows Ex4.canvas [0; 150; 300] = [0; 1] /\
  top (bandRect Ex4.rows Ex4.canvas [0; 150; 300] 0)
  = bottom (bandRect Ex4.rows Ex4.canvas [0; 150; 300] 1).
Proof.
  assert (S : StronglySorted Z.le (Zones.getZoneLows Ex4.zones3 0))
    by evaluated.
  assert (Hr : 0 <= RideItem.zoneRange Ex4.zonedItem) by evaluated.
  assert (Mono : forall a b, (a <= b)%Q -> Ex4.rows b <= Ex4.rows a).
  { intros a b Hab. unfold Ex4.rows. apply Qfloor_resp_le in Hab. lia. }
  assert (Hi : rideItem Ex4.shaded = Some Ex4.zonedItem) by evaluated.
  assert (Hs : shadeZones Ex4.shaded = true) by evaluated.
  destruct (bands_stack Ex4.color Ex4.shaded Ex4.zonedItem Ex4.zones3
              Ex4.rows Ex4.canvas Hi eq_refl Hs Hr Mono S) as (_ & F & H).
  split; [|apply (H 0); reflexivity].
  etransitivity; [exact (F eq_refl) | reflexivity].
Defined.

(** ** Rides without zones *)

Section NoZones.
Variable zoneColor : Z -> Z -> QColor.

(** Property X16.  Without zones there is nothing to shade: when the
    plot has no ride item, or the item has no zones (the pointer or
    the object it points to is null), or its zone range is negative,
    [refreshZoneLabels] leaves the plot without zone labels, a label
    constructed for any zone number stays unset, and the background
    fills nothing -- also when shading is switched on and the ride has
    power data. *)
Theorem no_zones_nothing_drawn (p : AllPlot) (yMap : Q -> Z) (rect : QRect) :
  hasZones p = false ->
  zoneLabels (refreshZoneLabels p) = [] /\
  (forall z, newZoneLabel p z = AllPlotZoneLabel.mk z None None) /\
  AllPlotBackground.draw zoneColor p yMap rect = [].
Proof.
  unfold hasZones, refreshZoneLabels, newZoneLabel, AllPlotBackground.draw.
  cbn [rideItem set_zoneLabels zoneLabels].
  destruct (rideItem p) as [item|]; [|repeat split].
  destruct (RideItem.zones item) as [[zs|]|]; [|repeat split..].
  intros ->. rewrite andb_false_r. repeat split.
Qed.

End NoZones.

Lemma no_zones_nothing_drawn_witness :
  shadeZones (Ex.after (newAllPlot "Metric") [SetData Ex.lowItem; ShowPower 0])
  = true /\
  AllPlotBackground.draw Ex4.color
    (Ex.after (newAllPlot "Metric") [SetData Ex.lowItem; ShowPower 0])
    Ex4.rows Ex4.canvas
  = [].
Proof.
  assert (Hs : shadeZones
                 (Ex.after (newAllPlot "Metric")
                    [SetData Ex.lowItem; ShowPower 0]) = true) by evaluated.
  assert (Hz : hasZones
                 (Ex.after (newAllPlot "Metric")
                    [SetData Ex.lowItem; ShowPower 0]) = false) by evaluated.
  destruct (no_zones_nothing_drawn Ex4.color
              (Ex.after (newAllPlot "Metric")
                 [SetData Ex.lowItem; ShowPower 0])
              Ex4.rows Ex4.canvas Hz)
    as (_ & _ & D).
  split; [exact Hs | exact D].
Defined.
